(** * 2fa-ts: HOTP / TOTP engines, base32 codec, HMAC construction and
    the otpauth key-URI codec, embedded from the TypeScript sources.

    Part I is the embedding, one block per source module; Part II holds
    the lemmas and the theorems.

    Modelling conventions.
    - A JavaScript [number] that holds an integer is a [Z] (arithmetic on
      integer-valued doubles is exact up to 2^53); the 32-bit views taken
      by the bitwise operators are written out ([ToInt32], [ToUint32]).
    - A [Uint8Array] is a [list byte]; a store into it wraps modulo 256
      ([u8]) and an out-of-range store is dropped, as typed arrays do.
    - A JavaScript string is a [string] of code units below 256; the case
      mappings, [trim] and the regular expressions are those of the ASCII
      range, and a percent-escape that decodes above U+00FF is rejected.
    - A function that may throw returns a [result]; the constructors of
      [error] are the exception classes the sources throw.
    - The platform services (the hash primitives and the random source)
      are parameters of the development. *)

From Stdlib Require Import ZArith QArith Qround Lia.
From Stdlib.Strings Require Import Byte Ascii String.
From stdpp Require Import base list strings gmap.

Local Open Scope Z_scope.

(** stdpp freezes [String.append] under [simpl]; the strings of this
    development are built with it, so it is released again. *)
#[local] Arguments String.append : simpl nomatch.

(** * Part I: the embedding *)

(** ** Exceptions and fallible computations *)

Inductive error : Type :=
| TypeError (msg : string)
| URIError (msg : string)
| Error (msg : string).

Inductive result (A : Type) : Type :=
| Ok (a : A)
| Throw (e : error).

Arguments Ok {A} a.
Arguments Throw {A} e.

Definition bind {A B : Type} (m : result A) (k : A -> result B) : result B :=
  match m with
  | Ok a => k a
  | Throw e => Throw e
  end.

Notation "'let*' x ':=' m 'in' k" := (bind m (fun x => k))
  (at level 10, x name, m at level 100, k at level 200).

(** ** Numbers: the 32-bit views used by the bitwise operators *)

Definition ToUint32 (x : Z) : Z := x mod 2 ^ 32.
Definition ToInt32 (x : Z) : Z := (x + 2 ^ 31) mod 2 ^ 32 - 2 ^ 31.

(** [x << n], [x | y], [x & y], [x ^ y] and [x >>> n]. *)
Definition js_shl (x n : Z) : Z := ToInt32 (Z.shiftl (ToInt32 x) (n mod 32)).
Definition js_or (x y : Z) : Z := ToInt32 (Z.lor (ToInt32 x) (ToInt32 y)).
Definition js_and (x y : Z) : Z := ToInt32 (Z.land (ToInt32 x) (ToInt32 y)).
Definition js_xor (x y : Z) : Z := ToInt32 (Z.lxor (ToInt32 x) (ToInt32 y)).
Definition js_ushr (x n : Z) : Z := Z.shiftr (ToUint32 x) (n mod 32).

(** ** Bytes and typed arrays *)

Definition byte_to_Z (b : byte) : Z := Z.of_N (Byte.to_N b).

(** The conversion applied by a store into a [Uint8Array]. *)
Definition u8 (z : Z) : byte :=
  match Byte.of_N (Z.to_N (z mod 256)) with
  | Some b => b
  | None => x00
  end.

#[global] Instance byte_inhabited : Inhabited byte := populate x00.

(** [new Uint8Array(n)]. *)
Definition zeros (n : nat) : list byte := replicate n x00.

(** [target.set(source, offset)], for a source that fits. *)
Definition typed_set (target source : list byte) (offset : nat) : list byte :=
  take offset target ++ source ++ drop (offset + length source) target.

(** [arr[i]] read as a number inside a bitwise expression: an index
    outside the array reads [undefined], which the operators take as 0. *)
Definition byte_at (arr : list byte) (i : Z) : Z :=
  if i <? 0 then 0
  else match arr !! Z.to_nat i with
       | Some b => byte_to_Z b
       | None => 0
       end.

(** [arr[i] = v] on a typed array. *)
Definition byte_store (arr : list byte) (i : Z) (v : Z) : list byte :=
  if i <? 0 then arr else <[Z.to_nat i := u8 v]> arr.

(** ** Strings *)

Definition charCode (c : ascii) : Z := Z.of_N (Ascii.N_of_ascii c).
Definition fromCharCode (z : Z) : ascii := Ascii.ascii_of_N (Z.to_N z).

Definition is_upper (c : ascii) : bool := (65 <=? charCode c) && (charCode c <=? 90).
Definition is_lower (c : ascii) : bool := (97 <=? charCode c) && (charCode c <=? 122).
Definition is_digit (c : ascii) : bool := (48 <=? charCode c) && (charCode c <=? 57).
Definition is_alnum (c : ascii) : bool := is_upper c || is_lower c || is_digit c.

Definition lower_char (c : ascii) : ascii :=
  if is_upper c then fromCharCode (charCode c + 32) else c.
Definition upper_char (c : ascii) : ascii :=
  if is_lower c then fromCharCode (charCode c - 32) else c.

Fixpoint string_map (f : ascii -> ascii) (s : string) : string :=
  match s with
  | EmptyString => EmptyString
  | String c s' => String (f c) (string_map f s')
  end.

Fixpoint string_forallb (p : ascii -> bool) (s : string) : bool :=
  match s with
  | EmptyString => true
  | String c s' => p c && string_forallb p s'
  end.

Fixpoint string_filter (p : ascii -> bool) (s : string) : string :=
  match s with
  | EmptyString => EmptyString
  | String c s' => if p c then String c (string_filter p s') else string_filter p s'
  end.

(** [s.toLowerCase()] and [s.toUpperCase()]. *)
Definition toLowerCase (s : string) : string := string_map lower_char s.
Definition toUpperCase (s : string) : string := string_map upper_char s.

(** [s.length] and [s[i]]. *)
Definition strlen (s : string) : Z := Z.of_nat (String.length s).
Definition char_at (s : string) (i : Z) : option ascii :=
  if i <? 0 then None else String.get (Z.to_nat i) s.

(** [s.substring(0, n)] and [s.substring(n)]. *)
Definition str_take (n : nat) (s : string) : string := String.substring 0 n s.
Fixpoint str_drop (n : nat) (s : string) : string :=
  match n, s with
  | O, _ => s
  | S n', String _ s' => str_drop n' s'
  | S _, EmptyString => EmptyString
  end.

(** [s.startsWith(p)]. *)
Definition startsWith (s p : string) : bool := String.prefix p s.

(** [s.split(c)] for a one-character separator. *)
Fixpoint split_on (c : ascii) (s : string) : list string :=
  match s with
  | EmptyString => [EmptyString]
  | String d s' =>
      if Ascii.eqb d c then EmptyString :: split_on c s'
      else match split_on c s' with
           | h :: t => String d h :: t
           | [] => [String d EmptyString]
           end
  end.

(** The text before and after the first [c], when there is one. *)
Fixpoint split_first (c : ascii) (s : string) : option (string * string) :=
  match s with
  | EmptyString => None
  | String d s' =>
      if Ascii.eqb d c then Some (EmptyString, s')
      else match split_first c s' with
           | Some (a, b) => Some (String d a, b)
           | None => None
           end
  end.

(** The text before and after the last [c], when there is one. *)
Fixpoint split_last (c : ascii) (s : string) : option (string * string) :=
  match s with
  | EmptyString => None
  | String d s' =>
      match split_last c s' with
      | Some (a, b) => Some (String d a, b)
      | None => if Ascii.eqb d c then Some (EmptyString, s') else None
      end
  end.

(** [s.replace(/c/, "")]: the first [c] is removed. *)
Fixpoint remove_first (c : ascii) (s : string) : string :=
  match s with
  | EmptyString => EmptyString
  | String d s' => if Ascii.eqb d c then s' else String d (remove_first c s')
  end.

(** White space and line terminators of the string model. *)
Definition is_line_terminator (c : ascii) : bool :=
  (charCode c =? 10) || (charCode c =? 13).
Definition is_white_space (c : ascii) : bool :=
  ((9 <=? charCode c) && (charCode c <=? 13)) || (charCode c =? 32) || (charCode c =? 160).

Fixpoint trim_start (s : string) : string :=
  match s with
  | EmptyString => EmptyString
  | String c s' => if is_white_space c then trim_start s' else s
  end.

Fixpoint trim_end (s : string) : string :=
  match s with
  | EmptyString => EmptyString
  | String c s' =>
      match trim_end s' with
      | EmptyString => if is_white_space c then EmptyString else String c EmptyString
      | r => String c r
      end
  end.

(** [s.trim()]. *)
Definition trim (s : string) : string := trim_end (trim_start s).

(** [s.padStart(targetLength, c)] for a one-character filler. *)
Fixpoint str_repeat (n : nat) (c : ascii) : string :=
  match n with
  | O => EmptyString
  | S n' => String c (str_repeat n' c)
  end.
Definition padStart (s : string) (targetLength : Z) (c : ascii) : string :=
  str_repeat (Z.to_nat (targetLength - strlen s)) c +:+ s.

(** [String(n)] for an integer [n]. *)
Definition digit_char (d : Z) : ascii := fromCharCode (48 + d).

Fixpoint decimal_digits (fuel : nat) (n : Z) (acc : string) : string :=
  match fuel with
  | O => acc
  | S fuel' =>
      let acc' := String (digit_char (n mod 10)) acc in
      if n <? 10 then acc' else decimal_digits fuel' (n / 10) acc'
  end.

Definition Number_toString (n : Z) : string :=
  if n <? 0
  then String "-" (decimal_digits (S (Z.to_nat (Z.log2 (- n)))) (- n) EmptyString)
  else decimal_digits (S (Z.to_nat (Z.log2 n))) n EmptyString.

(** [parseInt(s, 10)] on a string that starts with an optional sign
    followed by decimal digits; [None] stands for [NaN]. *)
Fixpoint parse_digits (s : string) (acc : option Z) : option Z :=
  match s with
  | EmptyString => acc
  | String c s' =>
      if is_digit c
      then parse_digits s' (Some (10 * default 0 acc + (charCode c - 48)))
      else acc
  end.

Definition parseInt (s : string) : option Z :=
  match trim_start s with
  | String "+" s' => parse_digits s' None
  | String "-" s' => Z.opp <$> parse_digits s' None
  | s' => parse_digits s' None
  end.

(** ** Regular expressions

    The patterns of uri.ts are kept as regular expressions and run by
    Brzozowski derivatives; a character class is a predicate, which
    also carries the [i] flag. *)

Inductive regex : Type :=
| Void
| Eps
| Chr (p : ascii -> bool)
| Cat (r1 r2 : regex)
| Alt (r1 r2 : regex)
| Star (r : regex).

Fixpoint nullable (r : regex) : bool :=
  match r with
  | Void => false
  | Eps => true
  | Chr _ => false
  | Cat r1 r2 => nullable r1 && nullable r2
  | Alt r1 r2 => nullable r1 || nullable r2
  | Star _ => true
  end.

Fixpoint deriv (c : ascii) (r : regex) : regex :=
  match r with
  | Void => Void
  | Eps => Void
  | Chr p => if p c then Eps else Void
  | Cat r1 r2 =>
      if nullable r1
      then Alt (Cat (deriv c r1) r2) (deriv c r2)
      else Cat (deriv c r1) r2
  | Alt r1 r2 => Alt (deriv c r1) (deriv c r2)
  | Star r1 => Cat (deriv c r1) (Star r1)
  end.

(** [/^r$/.test(s)]. *)
Fixpoint regex_test (r : regex) (s : string) : bool :=
  match s with
  | EmptyString => nullable r
  | String c s' => regex_test (deriv c r) s'
  end.

Definition Plus (r : regex) : regex := Cat r (Star r).
Definition Opt (r : regex) : regex := Alt r Eps.

(** A literal under the [i] flag. *)
Fixpoint Lit_i (s : string) : regex :=
  match s with
  | EmptyString => Eps
  | String c s' => Cat (Chr (fun d => Ascii.eqb (lower_char d) (lower_char c))) (Lit_i s')
  end.

Definition chr_is (c : ascii) : ascii -> bool := fun d => Ascii.eqb d c.
Definition chr_in (s : string) : ascii -> bool :=
  fun d => negb (string_forallb (fun c => negb (Ascii.eqb d c)) s).

(** ** secret.ts: the base32 codec and the Secret class *)

(** The platform random source behind [randomBytes]
    ([crypto.getRandomValues]); it throws where the API is missing. *)
Definition RandomSource : Type := Z -> result (list byte).

Definition ALPHABET : string := "ABCDEFGHIJKLMNOPQRSTUVWXYZ234567".

(** [s.indexOf(c)] for a one-character [c]. *)
Fixpoint index_from (c : ascii) (s : string) (i : Z) : Z :=
  match s with
  | EmptyString => -1
  | String d s' => if Ascii.eqb c d then i else index_from c s' (i + 1)
  end.
Definition indexOf (s : string) (c : ascii) : Z := index_from c s 0.

(** [str += s[i]]; an index outside the string appends ["undefined"]. *)
Definition append_char_at (str s : string) (i : Z) : string :=
  match char_at s i with
  | Some c => str +:+ String c EmptyString
  | None => str +:+ "undefined"
  end.

(** [while (str[end - 1] === "=") --end]. *)
Fixpoint padding_end (fuel : nat) (str : string) (end_ : Z) : Z :=
  match fuel with
  | O => end_
  | S fuel' =>
      match char_at str (end_ - 1) with
      | Some c => if Ascii.eqb c "=" then padding_end fuel' str (end_ - 1) else end_
      | None => end_
      end
  end.

(** The state of the decoding loop. *)
Record decoder : Type := {
  d_bits : Z;
  d_value : Z;
  d_index : Z;
  d_arr : list byte
}.

Definition decode_step (st : decoder) (c : ascii) : result decoder :=
  let idx := indexOf ALPHABET c in
  if idx =? -1
  then Throw (TypeError ("Carácter inválido encontrado: " +:+ String c EmptyString))
  else
    let value := js_or (js_shl (d_value st) 5) idx in
    let bits := d_bits st + 5 in
    if 8 <=? bits
    then Ok {| d_bits := bits - 8;
               d_value := value;
               d_index := d_index st + 1;
               d_arr := byte_store (d_arr st) (d_index st) (js_ushr value (bits - 8)) |}
    else Ok {| d_bits := bits; d_value := value;
               d_index := d_index st; d_arr := d_arr st |}.

Fixpoint decode_loop (st : decoder) (str : string) : result decoder :=
  match str with
  | EmptyString => Ok st
  | String c str' => let* st' := decode_step st c in decode_loop st' str'
  end.

(** The string the loop runs on: spaces removed, upper-cased, trailing
    ['='] cut. *)
Definition decode_input (str : string) : string :=
  let str := toUpperCase (string_filter (fun c => negb (Ascii.eqb c " ")) str) in
  let end_ := padding_end (String.length str) str (strlen str) in
  str_take (Z.to_nat end_) str.

Definition base32Decode (str : string) : result (list byte) :=
  let str := decode_input str in
  let arr := zeros (Z.to_nat (js_or (strlen str * 5 / 8) 0)) in
  let* st := decode_loop {| d_bits := 0; d_value := 0; d_index := 0; d_arr := arr |} str in
  Ok (d_arr st).

(** The state of the encoding loop: [bits], [value] and [str]. *)
Definition encoder : Type := Z * Z * string.

(** [while (bits >= 5) { str += ALPHABET[(value >>> (bits - 5)) & 31]; bits -= 5 }]. *)
Fixpoint encode_while (fuel : nat) (bits value : Z) (str : string) : Z * string :=
  match fuel with
  | O => (bits, str)
  | S fuel' =>
      if 5 <=? bits
      then encode_while fuel' (bits - 5) value
             (append_char_at str ALPHABET (js_and (js_ushr value (bits - 5)) 31))
      else (bits, str)
  end.

Definition encode_step (st : encoder) (b : byte) : encoder :=
  let '(bits, value, str) := st in
  let value := js_or (js_shl value 8) (byte_to_Z b) in
  let bits := bits + 8 in
  let '(bits, str) := encode_while (Z.to_nat bits) bits value str in
  (bits, value, str).

Definition base32Encode (arr : list byte) : string :=
  let '(bits, value, str) := foldl encode_step (0, 0, EmptyString) arr in
  if 0 <? bits
  then append_char_at str ALPHABET (js_and (js_shl value (5 - bits)) 31)
  else str.

(** [new Secret({ buffer, size })]: the bytes are copied, or drawn from
    the random source when no buffer is given.  The [base32] getter
    caches the value [base32Encode] computes from the frozen bytes. *)
Record Secret : Type := { bytes : list byte }.

Definition Secret_new (random : RandomSource) (buffer : option (list byte)) (size : Z)
  : result Secret :=
  match buffer with
  | None => let* b := random size in Ok {| bytes := b |}
  | Some b => Ok {| bytes := b |}
  end.

Definition base32 (s : Secret) : string := base32Encode (bytes s).

Definition Secret_fromBase32 (base32Str : string) : result Secret :=
  let* b := base32Decode base32Str in Ok {| bytes := b |}.

(** A [secret] option of the constructors: a [Secret] or a base32 string. *)
Inductive secret_option : Type :=
| SecretObject (s : Secret)
| SecretString (s : string).

(** [typeof secret === "string" ? new Secret({ buffer: base32Decode(secret) }) : secret],
    with [new Secret()] as the default. *)
Definition resolve_secret (random : RandomSource) (secret : option secret_option)
  : result Secret :=
  match secret with
  | None => Secret_new random None 20
  | Some (SecretObject s) => Ok s
  | Some (SecretString str) => let* b := base32Decode str in Ok {| bytes := b |}
  end.

(** ** A reference SHA-1 (FIPS 180-4)

    The sources obtain their digests from the platform ([crypto.subtle]
    or [node:crypto]).  This executable SHA-1 stands for that primitive
    wherever a statement is evaluated on real digests. *)

Module SHA1.

Definition w32 (x : Z) : Z := x mod 2 ^ 32.

Definition rotl (n x : Z) : Z :=
  w32 (Z.lor (Z.shiftl x n) (Z.shiftr x (32 - n))).

Fixpoint be_bytes (n : nat) (x : Z) : list Z :=
  match n with
  | O => []
  | S n' => be_bytes n' (x / 256) ++ [x mod 256]
  end.

Definition padding (msg : list Z) : list Z :=
  let l := Z.of_nat (length msg) in
  msg ++ [128] ++ replicate (Z.to_nat ((55 - l) mod 64)) 0 ++ be_bytes 8 (8 * l).

Fixpoint words (bs : list Z) : list Z :=
  match bs with
  | a :: b :: c :: d :: rest =>
      (((a * 256 + b) * 256 + c) * 256 + d) :: words rest
  | _ => []
  end.

Fixpoint blocks (fuel : nat) (ws : list Z) : list (list Z) :=
  match fuel, ws with
  | S fuel', _ :: _ => take 16 ws :: blocks fuel' (drop 16 ws)
  | _, _ => []
  end.

Fixpoint expand (n : nat) (rev_ws : list Z) : list Z :=
  match n with
  | O => rev_ws
  | S n' =>
      let w := rotl 1 (Z.lxor (Z.lxor (nth 2 rev_ws 0) (nth 7 rev_ws 0))
                              (Z.lxor (nth 13 rev_ws 0) (nth 15 rev_ws 0))) in
      expand n' (w :: rev_ws)
  end.

Definition schedule (block : list Z) : list Z := rev (expand 64 (rev block)).

Definition f (t : nat) (b c d : Z) : Z :=
  if (t <? 20)%nat then Z.lor (Z.land b c) (Z.land (w32 (Z.lnot b)) d)
  else if (t <? 40)%nat then Z.lxor (Z.lxor b c) d
  else if (t <? 60)%nat then Z.lor (Z.lor (Z.land b c) (Z.land b d)) (Z.land c d)
  else Z.lxor (Z.lxor b c) d.

Definition K (t : nat) : Z :=
  if (t <? 20)%nat then 0x5A827999
  else if (t <? 40)%nat then 0x6ED9EBA1
  else if (t <? 60)%nat then 0x8F1BBCDC
  else 0xCA62C1D6.

Definition state : Type := Z * Z * Z * Z * Z.

Definition round (s : state) (tw : nat * Z) : state :=
  let '(a, b, c, d, e) := s in
  let '(t, w) := tw in
  (w32 (rotl 5 a + f t b c d + e + K t + w), a, rotl 30 b, c, d).

Definition compress (h : state) (block : list Z) : state :=
  let '(h0, h1, h2, h3, h4) := h in
  let '(a, b, c, d, e) :=
    foldl round h (zip (seq 0 80) (schedule block)) in
  (w32 (h0 + a), w32 (h1 + b), w32 (h2 + c), w32 (h3 + d), w32 (h4 + e)).

Definition initial : state :=
  (0x67452301, 0xEFCDAB89, 0x98BADCFE, 0x10325476, 0xC3D2E1F0).

Definition state_bytes (h : state) : list Z :=
  let '(h0, h1, h2, h3, h4) := h in
  be_bytes 4 h0 ++ be_bytes 4 h1 ++ be_bytes 4 h2 ++ be_bytes 4 h3 ++ be_bytes 4 h4.

Definition digest (msg : list byte) : list byte :=
  let ws := words (padding (map byte_to_Z msg)) in
  map u8 (state_bytes (foldl compress initial (blocks (length ws) ws))).

Definition hash (msg : list byte) : result (list byte) := Ok (digest msg).

End SHA1.

(** ** hmac.ts: the HMAC construction over the platform hashes *)

(** The three primitives [sha1], [sha256] and [sha512] of hmac.ts; each
    throws when the platform offers no implementation. *)
Record HashEngine : Type := {
  sha1 : list byte -> result (list byte);
  sha256 : list byte -> result (list byte);
  sha512 : list byte -> result (list byte)
}.

(** [key[i] ^ c] stored into a [Uint8Array]. *)
Definition xor_byte (b : Z) (c : Z) : byte := u8 (js_xor b c).

(** One turn of the loop that fills [innerPadding] and [outerPadding]. *)
Definition pad_step (key : list byte) (st : list byte * list byte) (i : nat)
  : list byte * list byte :=
  (<[i := xor_byte (byte_at key (Z.of_nat i)) 0x36]> (fst st),
   <[i := xor_byte (byte_at key (Z.of_nat i)) 0x5c]> (snd st)).

Definition paddings (key : list byte) (blockSize : nat) : list byte * list byte :=
  foldl (pad_step key) (zeros blockSize, zeros blockSize) (seq 0 blockSize).

Section Hmac.

Variable engine : HashEngine.

Definition getHashFunction (algorithm : string)
  : result (list byte -> result (list byte)) :=
  let a := toLowerCase algorithm in
  if String.eqb a "sha1" then Ok (sha1 engine)
  else if String.eqb a "sha256" then Ok (sha256 engine)
  else if String.eqb a "sha512" then Ok (sha512 engine)
  else Throw (Error ("Unsupported algorithm: " +:+ algorithm)).

Definition hmacDigest (algorithm : string) (key message : list byte)
  : result (list byte) :=
  let* hashFunc := getHashFunction algorithm in
  let blockSize : nat :=
    if String.eqb (toLowerCase algorithm) "sha512" then 128%nat else 64%nat in
  let* key := (if (blockSize <? length key)%nat then hashFunc key else Ok key) in
  let key :=
    if (length key <? blockSize)%nat
    then typed_set (zeros blockSize) key 0
    else key in
  let innerPadding := fst (paddings key blockSize) in
  let outerPadding := snd (paddings key blockSize) in
  let innerMessage :=
    typed_set
      (typed_set (zeros (length innerPadding + length message)) innerPadding 0)
      message (length innerPadding) in
  let* innerHash := hashFunc innerMessage in
  let outerMessage :=
    typed_set
      (typed_set (zeros (length outerPadding + length innerHash)) outerPadding 0)
      innerHash (length outerPadding) in
  hashFunc outerMessage.

End Hmac.

(** The construction in the words of the specification: the key,
    zero-padded to the block size, XORed byte-wise with a constant. *)
Definition pad (blockSize : nat) (key : list byte) (c : Z) : list byte :=
  map (fun b => u8 (Z.lxor (byte_to_Z b) c)) (key ++ zeros (blockSize - length key)).

Definition hmac_spec (hash : list byte -> result (list byte)) (blockSize : nat)
    (key message : list byte) : result (list byte) :=
  let* key := (if (blockSize <? length key)%nat then hash key else Ok key) in
  let* inner := hash (pad blockSize key 0x36 ++ message) in
  hash (pad blockSize key 0x5c ++ inner).

(** The block size the specification assigns to a canonical name:
    128 for the SHA-512 family and for SHA3-384/512, 64 otherwise. *)
Definition spec_block_size (algorithm : string) : nat :=
  if String.eqb algorithm "SHA384" || String.eqb algorithm "SHA512"
     || String.eqb algorithm "SHA3-384" || String.eqb algorithm "SHA3-512"
  then 128%nat else 64%nat.

(** ** totp.ts (first part): canonical algorithm names *)

(** The values of the [HashAlgorithm] type of types.ts. *)
Definition HashAlgorithm : list string :=
  ["SHA1"; "SHA224"; "SHA256"; "SHA384"; "SHA512";
   "SHA3-224"; "SHA3-256"; "SHA3-384"; "SHA3-512"].

Definition includes (l : list string) (s : string) : bool :=
  existsb (String.eqb s) l.

Definition canonicalizeAlgorithm (algorithm : string) : result string :=
  let upperAlgorithm := toUpperCase algorithm in
  let unknown := Throw (TypeError ("Algoritmo de hash desconocido: " +:+ algorithm)) in
  if startsWith upperAlgorithm "SHA3-" then
    if includes ["SHA3-224"; "SHA3-256"; "SHA3-384"; "SHA3-512"] upperAlgorithm
    then Ok upperAlgorithm
    else unknown
  else
    let simpleAlgorithm := remove_first "-" upperAlgorithm in
    if String.eqb simpleAlgorithm "SHA1" then Ok "SHA1"
    else if String.eqb simpleAlgorithm "SHA224" then Ok "SHA224"
    else if String.eqb simpleAlgorithm "SHA256" then Ok "SHA256"
    else if String.eqb simpleAlgorithm "SHA384" then Ok "SHA384"
    else if String.eqb simpleAlgorithm "SHA512" then Ok "SHA512"
    else unknown.

(** ** URI text encodings used by [toString] and [URI.parse] *)

Definition hex_digit (n : Z) : ascii :=
  if n <? 10 then fromCharCode (48 + n) else fromCharCode (55 + n).

Definition hex_value (c : ascii) : option Z :=
  if is_digit c then Some (charCode c - 48)
  else if (65 <=? charCode c) && (charCode c <=? 70) then Some (charCode c - 55)
  else if (97 <=? charCode c) && (charCode c <=? 102) then Some (charCode c - 87)
  else None.

(** [%XX] for one byte. *)
Definition percent (b : Z) (rest : string) : string :=
  String "%" (String (hex_digit (b / 16)) (String (hex_digit (b mod 16)) rest)).

(** The UTF-8 bytes of a code unit below 256, percent-encoded. *)
Definition percent_utf8 (c : ascii) (rest : string) : string :=
  let n := charCode c in
  if n <? 128 then percent n rest
  else percent (192 + n / 64) (percent (128 + n mod 64) rest).

(** Characters [encodeURIComponent] leaves alone: [A-Za-z0-9-_.!~*'()]. *)
Definition uri_unreserved (c : ascii) : bool :=
  is_alnum c || chr_in "-_.!~*'()" c.

Fixpoint encodeURIComponent (s : string) : string :=
  match s with
  | EmptyString => EmptyString
  | String c s' =>
      if uri_unreserved c then String c (encodeURIComponent s')
      else percent_utf8 c (encodeURIComponent s')
  end.

(** Characters the [application/x-www-form-urlencoded] serializer of
    [URLSearchParams] leaves alone: [A-Za-z0-9*-._]; a space becomes
    ['+']. *)
Definition form_unreserved (c : ascii) : bool :=
  is_alnum c || chr_in "*-._" c.

Fixpoint form_encode (s : string) : string :=
  match s with
  | EmptyString => EmptyString
  | String c s' =>
      if form_unreserved c then String c (form_encode s')
      else if Ascii.eqb c " " then String "+" (form_encode s')
      else percent_utf8 c (form_encode s')
  end.

Definition malformed {A : Type} : result A := Throw (URIError "URI malformed").

(** [decodeURIComponent(s)]: an escape below [%80] is the character; the
    two-byte sequences [%C2%80]..[%C3%BF] are the code units 128..255;
    every other escape is rejected. *)
Fixpoint decodeURIComponent (s : string) : result string :=
  match s with
  | EmptyString => Ok EmptyString
  | String "%" (String h1 (String h2 rest)) =>
      match hex_value h1, hex_value h2 with
      | Some a, Some b =>
          let n := a * 16 + b in
          if n <? 128 then
            let* r := decodeURIComponent rest in Ok (String (fromCharCode n) r)
          else if (n =? 194) || (n =? 195) then
            match rest with
            | String "%" (String h3 (String h4 rest')) =>
                match hex_value h3, hex_value h4 with
                | Some a', Some b' =>
                    let m := a' * 16 + b' in
                    if (128 <=? m) && (m <? 192) then
                      let* r := decodeURIComponent rest' in
                      Ok (String (fromCharCode ((n - 192) * 64 + (m - 128))) r)
                    else malformed
                | _, _ => malformed
                end
            | _ => malformed
            end
          else malformed
      | _, _ => malformed
      end
  | String "%" _ => malformed
  | String c rest => let* r := decodeURIComponent rest in Ok (String c r)
  end.

(** [new URLSearchParams(record)], [params.set(name, value)] and
    [params.toString()]. *)
Definition URLSearchParams : Type := list (string * string).

Fixpoint params_replace (name value : string) (l : URLSearchParams) : URLSearchParams :=
  match l with
  | [] => []
  | (k, v) :: l' =>
      if String.eqb k name
      then (k, value) :: filter (fun kv => negb (String.eqb (fst kv) name)) l'
      else (k, v) :: params_replace name value l'
  end.

Definition params_set (l : URLSearchParams) (name value : string) : URLSearchParams :=
  if existsb (fun kv => String.eqb (fst kv) name) l
  then params_replace name value l
  else l ++ [(name, value)].

Fixpoint params_toString (l : URLSearchParams) : string :=
  match l with
  | [] => EmptyString
  | [(k, v)] => form_encode k +:+ "=" +:+ form_encode v
  | (k, v) :: l' => form_encode k +:+ "=" +:+ form_encode v +:+ "&" +:+ params_toString l'
  end.

(** ** hotp.ts *)

(** The loop of [uintDecode]: [i] runs from 7 down to 0 and stops early
    once [acc] is 0. *)
Fixpoint uintDecode_loop (fuel : nat) (i : Z) (acc : Z) (arr : list byte) : list byte :=
  match fuel with
  | O => arr
  | S fuel' =>
      if i <? 0 then arr
      else if acc =? 0 then arr
      else
        let arr := byte_store arr i (js_and acc 255) in
        let acc := acc - byte_at arr i in
        let acc := acc / 256 in
        uintDecode_loop fuel' (i - 1) acc arr
  end.

Definition uintDecode (num : Z) : list byte :=
  uintDecode_loop 8 7 num (zeros 8).

(** The loop of [timingSafeEqual]: [out |= a.charCodeAt(i) ^ b.charCodeAt(i)]. *)
Fixpoint timingSafeEqual_loop (a b : string) (out : Z) : Z :=
  match a, b with
  | String x a', String y b' =>
      timingSafeEqual_loop a' b' (js_or out (js_xor (charCode x) (charCode y)))
  | _, _ => out
  end.

Definition timingSafeEqual (a b : string) : result bool :=
  if negb (strlen a =? strlen b)
  then Throw (TypeError "Las cadenas de entrada deben tener la misma longitud")
  else Ok (timingSafeEqual_loop a b 0 =? 0).

Module HOTP.

(** The fields of an instance. *)
Record t : Type := {
  issuer : string;
  label : string;
  issuerInLabel : bool;
  secret : Secret;
  algorithm : string;
  digits : Z;
  counter : Z
}.

(** The options of the constructor; [None] is an absent option. *)
Record options : Type := {
  o_issuer : option string;
  o_label : option string;
  o_issuerInLabel : option bool;
  o_secret : option secret_option;
  o_algorithm : option string;
  o_digits : option Z;
  o_counter : option Z
}.

Definition default_issuer : string := "".
Definition default_label : string := "OTPAuth".
Definition default_issuerInLabel : bool := true.
Definition default_algorithm : string := "SHA1".
Definition default_digits : Z := 6.
Definition default_counter : Z := 0.
Definition default_window : Z := 1.

(** [new HOTP(options)]. *)
Definition new (random : RandomSource) (o : options) : result t :=
  let* secret := resolve_secret random (o_secret o) in
  Ok {| issuer := default default_issuer (o_issuer o);
        label := default default_label (o_label o);
        issuerInLabel := default default_issuerInLabel (o_issuerInLabel o);
        secret := secret;
        algorithm := toUpperCase (default default_algorithm (o_algorithm o));
        digits := default default_digits (o_digits o);
        counter := default default_counter (o_counter o) |}.

(** The dynamic truncation of a digest, before the reduction. *)
Definition truncate (digest : list byte) : Z :=
  let offset := js_and (byte_at digest (Z.of_nat (length digest) - 1)) 15 in
  js_or
    (js_or
       (js_or (js_shl (js_and (byte_at digest offset) 127) 24)
              (js_shl (js_and (byte_at digest (offset + 1)) 255) 16))
       (js_shl (js_and (byte_at digest (offset + 2)) 255) 8))
    (js_and (byte_at digest (offset + 3)) 255).

Section Engine.

Variable engine : HashEngine.

(** [HOTP.generate({ secret, algorithm, digits, counter })]. *)
Definition generate (secret : Secret) (algorithm : string) (digits counter : Z)
  : result string :=
  let* digest := hmacDigest engine algorithm (bytes secret) (uintDecode counter) in
  let otp := Z.rem (truncate digest) (10 ^ digits) in
  Ok (padStart (Number_toString otp) digits "0").

(** The [for] loop of [HOTP.validate], started at [i]; [fuel] bounds the
    number of turns. *)
Fixpoint validate_loop (fuel : nat) (token : string) (secret : Secret)
    (algorithm : string) (digits counter window : Z) (i : Z) (delta : option Z)
  : result (option Z) :=
  match fuel with
  | O => Ok delta
  | S fuel' =>
      if i <=? counter + window then
        let* generatedToken := generate secret algorithm digits i in
        let* same := timingSafeEqual token generatedToken in
        validate_loop fuel' token secret algorithm digits counter window (i + 1)
          (if same then Some (i - counter) else delta)
      else Ok delta
  end.

(** [HOTP.validate({ token, secret, algorithm, digits, counter, window })]. *)
Definition validate (token : string) (secret : Secret) (algorithm : string)
    (digits counter window : Z) : result (option Z) :=
  if negb (strlen token =? digits) then Ok None
  else
    validate_loop (Z.to_nat (2 * window + 1)) token secret algorithm digits
      counter window (counter - window) None.

(** [hotp.generate({ counter })]: the default [this.counter++] is
    evaluated only when the caller passes no counter.  The instance
    after the call is returned with the outcome. *)
Definition generate_inst (self : t) (counter_arg : option Z) : t * result string :=
  let '(self, counter_used) :=
    match counter_arg with
    | Some c => (self, c)
    | None =>
        ({| issuer := issuer self; label := label self;
            issuerInLabel := issuerInLabel self; secret := secret self;
            algorithm := algorithm self; digits := digits self;
            counter := counter self + 1 |},
         counter self)
    end in
  (self, generate (secret self) (algorithm self) (digits self) counter_used).

(** [hotp.validate({ token, counter, window })]; nothing is assigned. *)
Definition validate_inst (self : t) (token : string) (counter_arg window_arg : option Z)
  : t * result (option Z) :=
  (self,
   validate token (secret self) (algorithm self) (digits self)
     (default (counter self) counter_arg) (default default_window window_arg)).

End Engine.

(** [hotp.toString()]. *)
Definition toString (self : t) : string :=
  let e := encodeURIComponent in
  let label_ :=
    if (0 <? strlen (issuer self)) && issuerInLabel self
    then e (issuer self) +:+ ":" +:+ e (label self)
    else e (label self) in
  let params : URLSearchParams :=
    [("secret", base32 (secret self));
     ("algorithm", algorithm self);
     ("digits", Number_toString (digits self));
     ("counter", Number_toString (counter self))] in
  let params :=
    if 0 <? strlen (issuer self)
    then params_set params "issuer" (issuer self)
    else params in
  "otpauth://hotp/" +:+ label_ +:+ "?" +:+ params_toString params.

End HOTP.

(** ** totp.ts *)

Module TOTP.

Record t : Type := {
  issuer : string;
  label : string;
  issuerInLabel : bool;
  secret : Secret;
  algorithm : string;
  digits : Z;
  period : Z
}.

Record options : Type := {
  o_issuer : option string;
  o_label : option string;
  o_issuerInLabel : option bool;
  o_secret : option secret_option;
  o_algorithm : option string;
  o_digits : option Z;
  o_period : option Z
}.

Definition default_issuer : string := "".
Definition default_label : string := "OTPAuth".
Definition default_issuerInLabel : bool := true.
Definition default_algorithm : string := "SHA1".
Definition default_digits : Z := 6.
Definition default_period : Z := 30.
Definition default_window : Z := 1.

(** [new TOTP(options)]. *)
Definition new (random : RandomSource) (o : options) : result t :=
  let* secret := resolve_secret random (o_secret o) in
  let* algorithm := canonicalizeAlgorithm (default default_algorithm (o_algorithm o)) in
  Ok {| issuer := default default_issuer (o_issuer o);
        label := default default_label (o_label o);
        issuerInLabel := default default_issuerInLabel (o_issuerInLabel o);
        secret := secret;
        algorithm := algorithm;
        digits := default default_digits (o_digits o);
        period := default default_period (o_period o) |}.

(** [TOTP.counter({ period, timestamp })]: [Math.floor(timestamp / 1000 / period)],
    the two divisions taken over the rationals. *)
Definition counter (period timestamp : Z) : Z :=
  Qfloor (inject_Z timestamp / inject_Z 1000 / inject_Z period)%Q.


Section Engine.

Variable engine : HashEngine.

(** [TOTP.generate({ secret, algorithm, digits, period, timestamp })]. *)
Definition generate (secret : Secret) (algorithm : string) (digits period timestamp : Z)
  : result string :=
  HOTP.generate engine secret algorithm digits (counter period timestamp).

(** [TOTP.validate({ token, secret, algorithm, digits, period, timestamp, window })]. *)
Definition validate (token : string) (secret : Secret) (algorithm : string)
    (digits period timestamp window : Z) : result (option Z) :=
  HOTP.validate engine token secret algorithm digits (counter period timestamp) window.

(** [totp.generate({ timestamp })] and [totp.validate({ token, timestamp, window })]. *)
Definition generate_inst (self : t) (timestamp : Z) : result string :=
  generate (secret self) (algorithm self) (digits self) (period self) timestamp.

Definition validate_inst (self : t) (token : string) (timestamp : Z)
    (window_arg : option Z) : result (option Z) :=
  validate token (secret self) (algorithm self) (digits self) (period self)
    timestamp (default HOTP.default_window window_arg).

End Engine.

(** [totp.toString()]. *)
Definition toString (self : t) : string :=
  let e := encodeURIComponent in
  let label_ :=
    if (0 <? strlen (issuer self)) && issuerInLabel self
    then e (issuer self) +:+ ":" +:+ e (label self)
    else e (label self) in
  let params : URLSearchParams :=
    [("secret", base32 (secret self));
     ("algorithm", algorithm self);
     ("digits", Number_toString (digits self));
     ("period", Number_toString (period self))] in
  let params :=
    if 0 <? strlen (issuer self)
    then params_set params "issuer" (issuer self)
    else params in
  "otpauth://totp/" +:+ label_ +:+ "?" +:+ params_toString params.

End TOTP.

(** ** uri.ts *)

Module URI.

(** [[A-Z0-9.~_-]] and [[^?&]], under the [i] flag. *)
Definition key_char (c : ascii) : bool := is_alnum c || chr_in ".~_-" c.
Definition value_char (c : ascii) : bool := negb (chr_in "?&" c).
(** [.]: any character but a line terminator. *)
Definition any_char (c : ascii) : bool := negb (is_line_terminator c).

Definition param_re : regex :=
  Cat (Plus (Chr key_char)) (Cat (Chr (chr_is "=")) (Star (Chr value_char))).

Definition params_re : regex :=
  Cat param_re (Star (Cat (Chr (chr_is "&")) param_re)).

Definition type_re : regex :=
  Cat (Chr (fun c => chr_in "ht" (lower_char c))) (Lit_i "otp").

(** [OTPURI_REGEX], flag [i]: the literal [otpauth://], the group
    [([ht]otp)], a [/], the group [(.+)], a [?], and the group of one
    [key=value] followed by any number of [&key=value], where a key is
    [[A-Z0-9.~_-]+] and a value is any run without [?] and [&]. *)
Definition OTPURI_REGEX : regex :=
  Cat (Lit_i "otpauth://")
    (Cat type_re
       (Cat (Chr (chr_is "/"))
          (Cat (Plus (Chr any_char))
             (Cat (Chr (chr_is "?")) params_re)))).

(** [/^[2-7A-Z]+=*$/i] *)
Definition SECRET_REGEX : regex :=
  Cat (Plus (Chr (fun c => is_upper c || is_lower c || chr_in "234567" c)))
      (Star (Chr (chr_is "="))).

(** [/^[+-]?\d+$/] *)
Definition INTEGER_REGEX : regex :=
  Cat (Opt (Chr (chr_in "+-"))) (Plus (Chr is_digit)).

(** [/^\+?[1-9]\d*$/] *)
Definition POSITIVE_INTEGER_REGEX : regex :=
  Cat (Opt (Chr (chr_is "+")))
      (Cat (Chr (fun c => is_digit c && negb (Ascii.eqb c "0"))) (Star (Chr is_digit))).

(** [uri.match(OTPURI_REGEX)]: the three groups of a match.  The third
    group admits no ['?'], so it starts after the last ['?'] of the
    URI; the first group is the four characters after ["otpauth://"]. *)
Definition match_OTPURI (uri : string) : option (string * string * string) :=
  if regex_test OTPURI_REGEX uri then
    match split_last "?" (str_drop 15 uri) with
    | Some (rawLabel, rawParams) =>
        Some (String.substring 10 4 uri, rawLabel, rawParams)
    | None => None
    end
  else None.

Fixpoint until_line_terminator (s : string) : string :=
  match s with
  | EmptyString => EmptyString
  | String c s' =>
      if is_line_terminator c then EmptyString else String c (until_line_terminator s')
  end.

(** [cur.split(re, 2)] where [re] is an ['='] followed by a group that
    takes the rest of the line: the key and, when there is an ['='],
    the value up to the end of its line. *)
Definition split_key_value (cur : string) : string * option string :=
  match split_first "=" cur with
  | Some (k, v) => (k, Some (until_line_terminator v))
  | None => (cur, None)
  end.

(** One turn of the [reduce] that builds [uriParams]. *)
Definition add_param (acc : result (gmap string string)) (cur : string)
  : result (gmap string string) :=
  let* acc := acc in
  let* key := decodeURIComponent (fst (split_key_value cur)) in
  match snd (split_key_value cur) with
  | Some v =>
      let* value := decodeURIComponent v in
      Ok (<[toLowerCase key := value]> acc)
  | None => Ok (delete (toLowerCase key) acc)
  end.

Definition parse_params (rawParams : string) : result (gmap string string) :=
  foldl add_param (Ok ∅) (split_on "&" rawParams).

(** What [URI.parse] returns. *)
Inductive otp : Type :=
| OTP_HOTP (h : HOTP.t)
| OTP_TOTP (t : TOTP.t).

(** [parseInt(s, 10)] right after a pattern accepted [s]; [NaN] cannot
    occur there. *)
Definition parseInt_checked (s : string) : Z := default 0 (parseInt s).

(** A truthy string property. *)
Definition truthy (o : option string) : option string :=
  match o with
  | Some EmptyString => None
  | _ => o
  end.

(** The counter of an hotp URI or the optional period of a totp one. *)
Definition parse_kind (uriType : string) (uriParams : gmap string string)
  : result (Z + option Z) :=
  if String.eqb (toLowerCase uriType) "hotp" then
    match uriParams !! "counter" with
    | Some v =>
        if regex_test INTEGER_REGEX v then Ok (inl (parseInt_checked v))
        else Throw (TypeError "Parámetro 'counter' faltante o inválido")
    | None => Throw (TypeError "Parámetro 'counter' faltante o inválido")
    end
  else if String.eqb (toLowerCase uriType) "totp" then
    match uriParams !! "period" with
    | Some v =>
        if regex_test POSITIVE_INTEGER_REGEX v then Ok (inr (Some (parseInt_checked v)))
        else Throw (TypeError "Parámetro 'period' inválido")
    | None => Ok (inr None)
    end
  else Throw (TypeError "Tipo de OTP desconocido").

(** [config.label], [config.issuer] and [config.issuerInLabel]. *)
Definition parse_label (decodedLabel : string) (uriParams : gmap string string)
  : option string * option string * option bool :=
  let issuer := truthy (uriParams !! "issuer") in
  match split_on ":" decodedLabel with
  | [issuerFromLabel; label] =>
      (Some (trim label),
       match truthy issuer with
       | Some i => Some i
       | None => Some (trim issuerFromLabel)
       end,
       None)
  | labelParts =>
      (Some (trim (hd EmptyString labelParts)),
       issuer,
       match truthy issuer with
       | Some _ => Some false
       | None => None
       end)
  end.

Definition parse_secret (uriParams : gmap string string) : result Secret :=
  match uriParams !! "secret" with
  | Some v =>
      if regex_test SECRET_REGEX v
      then let* b := base32Decode v in Ok {| bytes := b |}
      else Throw (TypeError "Parámetro 'secret' faltante o inválido")
  | None => Throw (TypeError "Parámetro 'secret' faltante o inválido")
  end.

Definition parse_digits_param (uriParams : gmap string string) : result (option Z) :=
  match uriParams !! "digits" with
  | Some v =>
      if regex_test POSITIVE_INTEGER_REGEX v then Ok (Some (parseInt_checked v))
      else Throw (TypeError "Parámetro 'digits' inválido")
  | None => Ok None
  end.

(** [URI.parse(uri)]. *)
Definition parse (random : RandomSource) (uri : string) : result otp :=
  match match_OTPURI uri with
  | None => Throw (URIError "Formato de URI inválido")
  | Some (uriType, rawLabel, rawParams) =>
      let* uriParams := parse_params rawParams in
      let* kind := parse_kind uriType uriParams in
      let* decodedLabel := decodeURIComponent rawLabel in
      let '(label, issuer, issuerInLabel) := parse_label decodedLabel uriParams in
      let* secret := parse_secret uriParams in
      let algorithm := uriParams !! "algorithm" in
      let* digits := parse_digits_param uriParams in
      match kind with
      | inl counter =>
          let* h := HOTP.new random
                      {| HOTP.o_issuer := issuer; HOTP.o_label := label;
                         HOTP.o_issuerInLabel := issuerInLabel;
                         HOTP.o_secret := Some (SecretObject secret);
                         HOTP.o_algorithm := algorithm;
                         HOTP.o_digits := digits;
                         HOTP.o_counter := Some counter |} in
          Ok (OTP_HOTP h)
      | inr period =>
          let* t := TOTP.new random
                      {| TOTP.o_issuer := issuer; TOTP.o_label := label;
                         TOTP.o_issuerInLabel := issuerInLabel;
                         TOTP.o_secret := Some (SecretObject secret);
                         TOTP.o_algorithm := algorithm;
                         TOTP.o_digits := digits;
                         TOTP.o_period := period |} in
          Ok (OTP_TOTP t)
      end
  end.

(** [URI.stringify(otp)]. *)
Definition stringify (o : otp) : string :=
  match o with
  | OTP_HOTP h => HOTP.toString h
  | OTP_TOTP t => TOTP.toString t
  end.

End URI.

(** ** Reference points used by the statements *)

(** The ASCII bytes of a string. *)
Definition ascii_bytes (s : string) : list byte :=
  map Ascii.byte_of_ascii (list_ascii_of_string s).

(** A platform that offers SHA-1 only; hmac.ts reports the two other
    primitives as not available there. *)
Definition sha1_platform : HashEngine :=
  {| sha1 := SHA1.hash;
     sha256 := fun _ => Throw (Error "SHA-256 implementation not available");
     sha512 := fun _ => Throw (Error "SHA-512 implementation not available") |}.

(** A platform without [crypto.getRandomValues]. *)
Definition no_random : RandomSource :=
  fun _ => Throw (Error "API de criptografía no disponible").

(** The secret of the RFC 4226 and RFC 6238 test vectors. *)
Definition rfc_secret : Secret := {| bytes := ascii_bytes "12345678901234567890" |}.

(** The value an array holds when read as a big-endian integer. *)
Definition be_value (arr : list byte) : Z :=
  foldl (fun acc b => acc * 256 + byte_to_Z b) 0 arr.



(** The 31-bit dynamic value of RFC 4226: four bytes of the digest at
    [offset = digest[last] & 0x0F], the top bit of the first cleared. *)
Definition truncate_value (digest : list byte) : Z :=
  let offset := Z.land (byte_at digest (Z.of_nat (length digest) - 1)) 15 in
  Z.land (byte_at digest offset) 127 * 2 ^ 24
  + byte_at digest (offset + 1) * 2 ^ 16
  + byte_at digest (offset + 2) * 2 ^ 8
  + byte_at digest (offset + 3).

(** RFC 4226, appendix D: the HMAC-SHA-1 value for counter 0. *)
Definition rfc_digest_0 : list byte :=
  map u8 [0xcc; 0x93; 0xcf; 0x18; 0x50; 0x8d; 0x94; 0x93; 0x4c; 0x64;
          0xb6; 0x5d; 0x8b; 0xa7; 0x66; 0x7f; 0xb7; 0xcd; 0xe4; 0xb0].


(** *** Instruments of the base32 proofs *)

(** The character of a 5-bit symbol. *)
Definition alphabet_char (s : Z) : ascii :=
  match char_at ALPHABET s with
  | Some c => c
  | None => "?"%char
  end.

(** What the encoder appends when it starts from [bits] and [value]. *)
Definition encode_tail (bits value : Z) (arr : list byte) : string :=
  let '(bits, value, str) := foldl encode_step (bits, value, EmptyString) arr in
  if 0 <? bits
  then append_char_at str ALPHABET (js_and (js_shl value (5 - bits)) 31)
  else str.

(** The decoder has consumed exactly what the encoder has emitted:
    the first [d_index] bytes of [full] are in place, and when the
    encoder holds [eb] pending bits their byte [p] is split between the
    [8 - eb] bits the decoder holds and those [eb] bits. *)
Definition codec_inv (full : list byte) (eb ev : Z) (dst : decoder)
    (rest : list byte) : Prop :=
  0 <= eb < 5
  /\ 0 <= d_index dst
  /\ length (d_arr dst) = length full
  /\ take (Z.to_nat (d_index dst)) (d_arr dst) = take (Z.to_nat (d_index dst)) full
  /\ ((eb = 0 /\ d_bits dst = 0 /\ drop (Z.to_nat (d_index dst)) full = rest)
      \/ (0 < eb /\ d_bits dst = 8 - eb
          /\ exists p, drop (Z.to_nat (d_index dst)) full = p :: rest
               /\ (ToUint32 (d_value dst) mod 2 ^ (8 - eb)) * 2 ^ eb
                  + ToUint32 ev mod 2 ^ eb = byte_to_Z p)).

(** A character the preparation of [base32Decode] leaves alone. *)
Definition clean_char (c : ascii) : bool :=
  Ascii.eqb (upper_char c) c && negb (Ascii.eqb c " ") && negb (Ascii.eqb c "=").

(** *** The language of a regular expression *)

Inductive lang : regex -> string -> Prop :=
| lang_eps : lang Eps EmptyString
| lang_chr (p : ascii -> bool) (c : ascii) :
    p c = true -> lang (Chr p) (String c EmptyString)
| lang_cat (r1 r2 : regex) (s1 s2 : string) :
    lang r1 s1 -> lang r2 s2 -> lang (Cat r1 r2) (s1 +:+ s2)
| lang_alt_l (r1 r2 : regex) (s : string) : lang r1 s -> lang (Alt r1 r2) s
| lang_alt_r (r1 r2 : regex) (s : string) : lang r2 s -> lang (Alt r1 r2) s
| lang_star_nil (r : regex) : lang (Star r) EmptyString
| lang_star_cons (r : regex) (s1 s2 : string) :
    lang r s1 -> lang (Star r) s2 -> lang (Star r) (s1 +:+ s2).


(** *** Key URIs of constructed configurations *)

(** [s] holds no [c]. *)
Definition no_char (c : ascii) (s : string) : bool :=
  string_forallb (fun d => negb (Ascii.eqb d c)) s.

(** The characters the two encoders emit. *)
Definition uri_char (c : ascii) : bool := uri_unreserved c || Ascii.eqb c "%".
Definition form_char (c : ascii) : bool :=
  form_unreserved c || Ascii.eqb c "%" || Ascii.eqb c "+".



(** A positive decimal integer, with an optional [+]. *)
Definition positive_integer (v : string) : Prop :=
  exists sign c digits,
    v = sign +:+ String c digits
    /\ (sign = EmptyString \/ sign = "+")
    /\ is_digit c = true /\ c <> "0"%char
    /\ string_forallb is_digit digits = true.






Definition otp_digits (o : URI.otp) : Z :=
  match o with
  | URI.OTP_HOTP h => HOTP.digits h
  | URI.OTP_TOTP t => TOTP.digits t
  end.








(** The text both [toString] methods write: the label, with the issuer
    in front when it is not empty and [issuerInLabel] is set, and the
    parameters, [name] being [counter] or [period]. *)
Definition label_text (issuer label : string) (issuerInLabel : bool) : string :=
  if (0 <? strlen issuer) && issuerInLabel
  then encodeURIComponent issuer +:+ ":" +:+ encodeURIComponent label
  else encodeURIComponent label.

Definition key_uri_params (issuer : string) (secret : Secret) (algorithm : string)
    (digits : Z) (name : string) (value : Z) : URLSearchParams :=
  [("secret", base32 secret); ("algorithm", algorithm);
   ("digits", Number_toString digits); (name, Number_toString value)]
  ++ (if 0 <? strlen issuer then [("issuer", issuer)] else []).

Definition key_uri (kind issuer label : string) (issuerInLabel : bool)
    (secret : Secret) (algorithm : string) (digits : Z) (name : string) (value : Z)
  : string :=
  "otpauth://" +:+ kind +:+ "/" +:+ label_text issuer label issuerInLabel +:+ "?"
  +:+ params_toString (key_uri_params issuer secret algorithm digits name value).


Definition acme_config : TOTP.t :=
  {| TOTP.issuer := "ACME"; TOTP.label := "alice@example.com";
     TOTP.issuerInLabel := true; TOTP.secret := rfc_secret;
     TOTP.algorithm := "SHA256"; TOTP.digits := 8; TOTP.period := 30 |}.

(** ** secret.ts: the hexadecimal view *)

(** A digit of [Number.prototype.toString(16)]. *)
Definition hex_char (d : Z) : ascii :=
  if d <? 10 then fromCharCode (48 + d) else fromCharCode (87 + d).

(** [n.toString(16)] for a non-negative integer [n]. *)
Fixpoint radix16_digits (fuel : nat) (n : Z) (acc : string) : string :=
  match fuel with
  | O => acc
  | S fuel' =>
      let acc' := String (hex_char (n mod 16)) acc in
      if n <? 16 then acc' else radix16_digits fuel' (n / 16) acc'
  end.

Definition toString16 (n : Z) : string :=
  radix16_digits (S (Z.to_nat (Z.log2 n))) n EmptyString.

(** [HEX_LUT = Array.from({ length: 256 }, (_, i) => i.toString(16).padStart(2, "0"))]. *)
Definition HEX_LUT : list string :=
  map (fun i => padStart (toString16 (Z.of_nat i)) 2 "0") (seq 0 256).

(** One turn of the loop of [bytesToHex]: [hex[i * 2]] and
    [hex[i * 2 + 1]] are assigned; an entry of an array is [None] while
    it is a hole or [undefined].  Both indices lie inside the array the
    function allocates. *)
Definition hex_step (bytes : list byte) (hex : list (option string)) (i : nat)
  : list (option string) :=
  let b := byte_at bytes (Z.of_nat i) in
  let hex := <[(i * 2)%nat := HEX_LUT !! Z.to_nat (js_ushr b 4)]> hex in
  <[(i * 2 + 1)%nat := HEX_LUT !! Z.to_nat (js_and b 15)]> hex.

(** [array.join("")]: a hole and [undefined] give the empty string. *)
Definition join_empty (l : list (option string)) : string :=
  foldr (fun s acc => default EmptyString s +:+ acc) EmptyString l.

Definition bytesToHex (bytes : list byte) : string :=
  join_empty
    (foldl (hex_step bytes) (replicate (length bytes * 2) None) (seq 0 (length bytes))).

(** The [hex] getter of [Secret]; like [base32] it caches what it
    computes from the frozen bytes. *)
Definition hex (s : Secret) : string := bytesToHex (bytes s).

(** ** hmac.ts: [xorArrays] *)

Definition xorArrays (a b : list byte) : list byte :=
  let length := Nat.min (length a) (length b) in
  foldl (fun result i =>
           <[i := u8 (js_xor (byte_at a (Z.of_nat i)) (byte_at b (Z.of_nat i)))]> result)
        (zeros length) (seq 0 length).

(** ** Instruments of the further properties *)

(** The four characters [bytesToHex] writes for one byte. *)
Definition hex_group (b : byte) : string :=
  String "0" (String (hex_char (byte_to_Z b / 16))
    (String "0" (String (hex_char (byte_to_Z b mod 16)) EmptyString))).

Definition string_concat (l : list string) : string :=
  foldr String.append EmptyString l.


(** A text of code units below 128, where the case mappings of the
    model are those of the platform. *)
Definition ascii_only (s : string) : bool :=
  string_forallb (fun c => charCode c <? 128) s.

(** A symbol of the base32 alphabet. *)
Definition in_alphabet (c : ascii) : bool := negb (indexOf ALPHABET c =? -1).

(** The first character of [s] that is not a symbol of the alphabet. *)
Fixpoint first_invalid (s : string) : option ascii :=
  match s with
  | EmptyString => None
  | String c s' => if in_alphabet c then first_invalid s' else Some c
  end.

(** The block size [hmacDigest] takes for an algorithm name. *)
Definition block_size (algorithm : string) : nat :=
  if String.eqb (toLowerCase algorithm) "sha512" then 128%nat else 64%nat.

(** The characters of a written key URI: letters, digits and
    [-_.!~*'()%+:/?=&]. *)
Definition uri_text_char (c : ascii) : bool :=
  is_alnum c || chr_in "-_.!~*'()%+:/?=&" c.






(** * Part II: lemmas and theorems *)

(** ** Fallible computations *)

Lemma bind_Ok {A B : Type} (a : A) (k : A -> result B) : bind (Ok a) k = k a.
Proof. reflexivity. Qed.

Lemma bind_inv {A B : Type} (m : result A) (k : A -> result B) (b : B) :
  bind m k = Ok b -> exists a, m = Ok a /\ k a = Ok b.
Proof. destruct m as [a|e]; simpl; intros H; [eauto | discriminate]. Qed.

(** ** Bytes *)

Lemma byte_to_Z_range (b : byte) : 0 <= byte_to_Z b < 256.
Proof.
  unfold byte_to_Z. pose proof (Byte.to_N_bounded b). lia.
Qed.

Lemma u8_byte_to_Z (b : byte) : u8 (byte_to_Z b) = b.
Proof.
  unfold u8. pose proof (byte_to_Z_range b) as Hr.
  rewrite Z.mod_small by lia.
  unfold byte_to_Z. rewrite N2Z.id, Byte.of_to_N. reflexivity.
Qed.

Lemma byte_to_Z_u8 (z : Z) : byte_to_Z (u8 z) = z mod 256.
Proof.
  unfold u8, byte_to_Z.
  pose proof (Z.mod_pos_bound z 256 ltac:(lia)) as Hr.
  destruct (Byte.of_N (Z.to_N (z mod 256))) as [b|] eqn:E.
  - apply Byte.to_of_N in E. rewrite E. lia.
  - apply Byte.of_N_None_iff in E. lia.
Qed.

Lemma byte_to_Z_inj (a b : byte) : byte_to_Z a = byte_to_Z b -> a = b.
Proof.
  intros H. rewrite <- (u8_byte_to_Z a), <- (u8_byte_to_Z b). congruence.
Qed.

Lemma u8_mod (z : Z) : u8 (z mod 256) = u8 z.
Proof. apply byte_to_Z_inj. rewrite !byte_to_Z_u8. apply Z.mod_mod. lia. Qed.

Lemma length_zeros (n : nat) : length (zeros n) = n.
Proof. apply length_replicate. Qed.

Lemma byte_at_range (arr : list byte) (i : Z) : 0 <= byte_at arr i < 256.
Proof.
  unfold byte_at. destruct (i <? 0); [lia|].
  destruct (arr !! Z.to_nat i) as [b|]; [apply byte_to_Z_range | lia].
Qed.

Lemma byte_at_lookup (arr : list byte) (i : nat) (b : byte) :
  arr !! i = Some b -> byte_at arr (Z.of_nat i) = byte_to_Z b.
Proof.
  intros H. unfold byte_at.
  destruct (Z.ltb_spec (Z.of_nat i) 0); [lia|].
  by rewrite Nat2Z.id, H.
Qed.

(** ** The 32-bit operators on small operands *)

Lemma ToInt32_small (x : Z) : - 2 ^ 31 <= x < 2 ^ 31 -> ToInt32 x = x.
Proof. intros H. unfold ToInt32. rewrite Z.mod_small; lia. Qed.

Lemma ToInt32_mod (x : Z) : ToInt32 x mod 2 ^ 32 = x mod 2 ^ 32.
Proof.
  unfold ToInt32.
  rewrite <- Zminus_mod_idemp_l.
  replace ((x + 2 ^ 31) mod 2 ^ 32 mod 2 ^ 32) with ((x + 2 ^ 31) mod 2 ^ 32)
    by (symmetry; apply Z.mod_mod; lia).
  rewrite Zminus_mod_idemp_l. f_equal. lia.
Qed.

Lemma ToInt32_range (x : Z) : - 2 ^ 31 <= ToInt32 x < 2 ^ 31.
Proof.
  unfold ToInt32. pose proof (Z.mod_pos_bound (x + 2 ^ 31) (2 ^ 32) ltac:(lia)). lia.
Qed.

Lemma pow2_bound_bits (n x : Z) : 0 <= n -> 0 <= x < 2 ^ n ->
  forall i, n <= i -> Z.testbit x i = false.
Proof.
  intros Hn Hx i Hi.
  destruct (Z.eq_dec x 0) as [->|Hne]; [apply Z.bits_0|].
  apply Z.bits_above_log2; [lia|].
  assert (Z.log2 x < n) by (apply Z.log2_lt_pow2; lia). lia.
Qed.

Lemma bits_pow2_bound (n x : Z) : 0 <= n -> 0 <= x ->
  (forall i, n <= i -> Z.testbit x i = false) -> x < 2 ^ n.
Proof.
  intros Hn Hx Hbits.
  destruct (Z.eq_dec x 0) as [->|Hne]; [apply Z.pow_pos_nonneg; lia|].
  apply Z.log2_lt_pow2; [lia|].
  destruct (Z_lt_le_dec (Z.log2 x) n) as [|Hle]; [assumption|].
  specialize (Hbits (Z.log2 x) Hle).
  rewrite Z.bit_log2 in Hbits by lia. discriminate.
Qed.

Lemma lor_range (n a b : Z) : 0 <= n -> 0 <= a < 2 ^ n -> 0 <= b < 2 ^ n ->
  0 <= Z.lor a b < 2 ^ n.
Proof.
  intros Hn Ha Hb. split; [apply Z.lor_nonneg; lia|].
  apply bits_pow2_bound; [lia | apply Z.lor_nonneg; lia|].
  intros i Hi. rewrite Z.lor_spec.
  rewrite (pow2_bound_bits n a), (pow2_bound_bits n b) by lia. reflexivity.
Qed.

Lemma lxor_range (n a b : Z) : 0 <= n -> 0 <= a < 2 ^ n -> 0 <= b < 2 ^ n ->
  0 <= Z.lxor a b < 2 ^ n.
Proof.
  intros Hn Ha Hb. split; [apply Z.lxor_nonneg; lia|].
  apply bits_pow2_bound; [lia | apply Z.lxor_nonneg; lia|].
  intros i Hi. rewrite Z.lxor_spec.
  rewrite (pow2_bound_bits n a), (pow2_bound_bits n b) by lia. reflexivity.
Qed.

Lemma land_range (n a b : Z) : 0 <= n -> 0 <= a -> 0 <= b < 2 ^ n ->
  0 <= Z.land a b < 2 ^ n.
Proof.
  intros Hn Ha Hb. split; [apply Z.land_nonneg; lia|].
  apply bits_pow2_bound; [lia | apply Z.land_nonneg; lia|].
  intros i Hi. rewrite Z.land_spec.
  rewrite (pow2_bound_bits n b) by lia. apply andb_false_r.
Qed.

(** [a * 2^k | b] is a sum when [b] fits in the [k] low bits. *)
Lemma lor_shift_add (k a b : Z) : 0 <= k -> 0 <= b < 2 ^ k ->
  Z.lor (a * 2 ^ k) b = a * 2 ^ k + b.
Proof.
  intros Hk Hb.
  assert (Hland : Z.land (a * 2 ^ k) b = 0).
  { apply Z.bits_inj'. intros i Hi. rewrite Z.land_spec, Z.bits_0.
    destruct (Z_lt_le_dec i k) as [Hlt|Hge].
    - rewrite Z.mul_pow2_bits_low by lia. reflexivity.
    - rewrite (pow2_bound_bits k b) by lia. apply andb_false_r. }
  rewrite <- Z.lxor_lor by assumption.
  symmetry. apply Z.add_nocarry_lxor. assumption.
Qed.

Lemma js_xor_small (a b : Z) : 0 <= a < 2 ^ 31 -> 0 <= b < 2 ^ 31 ->
  js_xor a b = Z.lxor a b.
Proof.
  intros Ha Hb. unfold js_xor.
  rewrite (ToInt32_small a), (ToInt32_small b) by lia.
  apply ToInt32_small. pose proof (lxor_range 31 a b ltac:(lia) Ha Hb). lia.
Qed.

Lemma js_or_small (a b : Z) : 0 <= a < 2 ^ 31 -> 0 <= b < 2 ^ 31 ->
  js_or a b = Z.lor a b.
Proof.
  intros Ha Hb. unfold js_or.
  rewrite (ToInt32_small a), (ToInt32_small b) by lia.
  apply ToInt32_small. pose proof (lor_range 31 a b ltac:(lia) Ha Hb). lia.
Qed.

Lemma js_and_small (a b : Z) : 0 <= a < 2 ^ 31 -> 0 <= b < 2 ^ 31 ->
  js_and a b = Z.land a b.
Proof.
  intros Ha Hb. unfold js_and.
  rewrite (ToInt32_small a), (ToInt32_small b) by lia.
  apply ToInt32_small. pose proof (land_range 31 a b ltac:(lia) ltac:(lia) Hb). lia.
Qed.

Lemma js_shl_small (a n : Z) : 0 <= n < 32 -> 0 <= a -> a * 2 ^ n < 2 ^ 31 ->
  js_shl a n = a * 2 ^ n.
Proof.
  intros Hn Ha Hlt. unfold js_shl.
  assert (a < 2 ^ 31).
  { assert (1 <= 2 ^ n) by (apply Z.pow_le_mono_r with (b := 0); lia). nia. }
  rewrite (ToInt32_small a) by lia.
  rewrite Z.mod_small by lia. rewrite Z.shiftl_mul_pow2 by lia.
  apply ToInt32_small. nia.
Qed.

(** ** Typed-array idioms *)

Lemma typed_set_zeros_prefix (n : nat) (src : list byte) :
  (length src <= n)%nat ->
  typed_set (zeros n) src 0 = src ++ zeros (n - length src).
Proof.
  intros Hle. unfold typed_set, zeros. rewrite take_0. simpl.
  f_equal. rewrite drop_replicate. reflexivity.
Qed.

Lemma typed_set_concat (a b : list byte) :
  typed_set (typed_set (zeros (length a + length b)) a 0) b (length a) = a ++ b.
Proof.
  rewrite typed_set_zeros_prefix by lia.
  unfold typed_set.
  rewrite take_app_length.
  rewrite drop_ge; [by rewrite app_nil_r|].
  rewrite length_app, length_zeros. lia.
Qed.

(** A loop [for (i = 0; i < n; i++) arr[i] = f(i)] over an array of
    length [n] builds [f 0, ..., f (n-1)]. *)
Lemma fill_loop_prefix (f : nat -> byte) (l : list byte) (k : nat) :
  (k <= length l)%nat ->
  foldl (fun acc i => <[i := f i]> acc) l (seq 0 k) = map f (seq 0 k) ++ drop k l.
Proof.
  induction k as [|k IH]; intros Hk.
  - simpl. by rewrite drop_0.
  - rewrite seq_S, foldl_app, IH by lia. simpl.
    rewrite map_app, <- app_assoc. simpl.
    assert (Hlen : length (map f (seq 0 k)) = k) by (by rewrite length_map, length_seq).
    rewrite insert_app_r_alt by lia.
    rewrite Hlen, Nat.sub_diag.
    f_equal.
    destruct (drop k l) as [|x rest] eqn:E.
    + apply (f_equal length) in E. rewrite length_drop in E. simpl in E. lia.
    + simpl. f_equal.
      change (S k) with (1 + k)%nat. rewrite Nat.add_comm.
      rewrite <- drop_drop, E. reflexivity.
Qed.

Lemma fill_loop (f : nat -> byte) (l : list byte) :
  foldl (fun acc i => <[i := f i]> acc) l (seq 0 (length l)) = map f (seq 0 (length l)).
Proof.
  rewrite fill_loop_prefix by lia. rewrite drop_all. apply app_nil_r.
Qed.

(** ** Test vectors of the primitives *)

(** FIPS 180-4, the digest of ["abc"]. *)
Example sha1_abc :
  map byte_to_Z (SHA1.digest (ascii_bytes "abc")) =
  [0xa9; 0x99; 0x3e; 0x36; 0x47; 0x06; 0x81; 0x6a; 0xba; 0x3e;
   0x25; 0x71; 0x78; 0x50; 0xc2; 0x6c; 0x9c; 0xd0; 0xd8; 0x9d].
Proof. vm_compute. reflexivity. Qed.

Lemma sha1_digest_length (msg : list byte) : length (SHA1.digest msg) = 20%nat.
Proof.
  unfold SHA1.digest. rewrite length_map.
  destruct (foldl SHA1.compress SHA1.initial _) as [[[[h0 h1] h2] h3] h4].
  reflexivity.
Qed.

Lemma sha1_hash_length (msg d : list byte) :
  SHA1.hash msg = Ok d -> length d = 20%nat.
Proof. unfold SHA1.hash. intros [= <-]. apply sha1_digest_length. Qed.

(** ** hmac.ts *)

Lemma xor_byte_lxor (b : byte) (c : Z) : 0 <= c < 256 ->
  xor_byte (byte_to_Z b) c = u8 (Z.lxor (byte_to_Z b) c).
Proof.
  intros Hc. pose proof (byte_to_Z_range b).
  unfold xor_byte. rewrite js_xor_small by lia. reflexivity.
Qed.

Lemma xor_byte_value (b : byte) (c : Z) : 0 <= c < 256 ->
  byte_to_Z (xor_byte (byte_to_Z b) c) = Z.lxor (byte_to_Z b) c.
Proof.
  intros Hc. pose proof (byte_to_Z_range b) as Hb.
  rewrite xor_byte_lxor, byte_to_Z_u8 by assumption.
  apply Z.mod_small. apply (lxor_range 8); lia.
Qed.

Lemma pad_step_fst (key : list byte) (l : list nat) (a b : list byte) :
  fst (foldl (pad_step key) (a, b) l) =
  foldl (fun acc i => <[i := xor_byte (byte_at key (Z.of_nat i)) 0x36]> acc) a l.
Proof.
  revert a b. induction l as [|i l IH]; intros a b; simpl; [reflexivity|].
  unfold pad_step at 2. simpl. apply IH.
Qed.

Lemma pad_step_snd (key : list byte) (l : list nat) (a b : list byte) :
  snd (foldl (pad_step key) (a, b) l) =
  foldl (fun acc i => <[i := xor_byte (byte_at key (Z.of_nat i)) 0x5c]> acc) b l.
Proof.
  revert a b. induction l as [|i l IH]; intros a b; simpl; [reflexivity|].
  unfold pad_step at 2. simpl. apply IH.
Qed.

Lemma map_byte_at (key : list byte) (c : Z) (n : nat) :
  0 <= c < 256 ->
  (n <= length key)%nat ->
  map (fun i => xor_byte (byte_at key (Z.of_nat i)) c) (seq 0 n) =
  map (fun b => u8 (Z.lxor (byte_to_Z b) c)) (take n key).
Proof.
  intros Hc Hn. apply list_eq. intros i.
  rewrite !list_lookup_fmap.
  destruct (decide (i < n)%nat) as [Hi|Hi].
  - rewrite lookup_seq_lt by lia. rewrite lookup_take_lt by lia. simpl.
    destruct (key !! i) as [b|] eqn:E.
    + simpl. rewrite (byte_at_lookup _ _ _ E). by rewrite xor_byte_lxor.
    + apply lookup_ge_None in E. lia.
  - rewrite lookup_seq_ge by lia. rewrite lookup_take_ge by lia. reflexivity.
Qed.

(** The padding loop computes the two pads of the specification. *)
Lemma paddings_spec (key : list byte) (blockSize : nat) :
  (length key <= blockSize)%nat ->
  paddings (key ++ zeros (blockSize - length key)) blockSize =
  (pad blockSize key 0x36, pad blockSize key 0x5c).
Proof.
  intros Hle. unfold paddings, pad.
  set (k := key ++ zeros (blockSize - length key)).
  assert (Hk : length k = blockSize).
  { unfold k. rewrite length_app, length_zeros. lia. }
  rewrite (surjective_pairing (foldl _ _ _)).
  rewrite pad_step_fst, pad_step_snd.
  rewrite <- (length_zeros blockSize) at 2 4.
  rewrite !fill_loop, !length_zeros.
  rewrite !map_byte_at by lia.
  rewrite <- Hk, firstn_all. reflexivity.
Qed.

Lemma length_pad (blockSize : nat) (key : list byte) (c : Z) :
  (length key <= blockSize)%nat -> length (pad blockSize key c) = blockSize.
Proof.
  intros H. unfold pad. rewrite length_map, length_app, length_zeros. lia.
Qed.

(** The body of [hmacDigest] once the hash function and the block size
    are chosen. *)
Lemma hmacDigest_body (hash : list byte -> result (list byte)) (blockSize : nat)
    (key message : list byte) :
  (forall d, hash key = Ok d -> (length d <= blockSize)%nat) ->
  (let* key := (if (blockSize <? length key)%nat then hash key else Ok key) in
   let key :=
     if (length key <? blockSize)%nat
     then typed_set (zeros blockSize) key 0
     else key in
   let innerPadding := fst (paddings key blockSize) in
   let outerPadding := snd (paddings key blockSize) in
   let innerMessage :=
     typed_set
       (typed_set (zeros (length innerPadding + length message)) innerPadding 0)
       message (length innerPadding) in
   let* innerHash := hash innerMessage in
   let outerMessage :=
     typed_set
       (typed_set (zeros (length outerPadding + length innerHash)) outerPadding 0)
       innerHash (length outerPadding) in
   hash outerMessage) = hmac_spec hash blockSize key message.
Proof.
  intros Hfit. unfold hmac_spec.
  assert (Hgen : forall k : list byte, (length k <= blockSize)%nat ->
    (if (length k <? blockSize)%nat then typed_set (zeros blockSize) k 0 else k)
    = k ++ zeros (blockSize - length k)).
  { intros k Hk. destruct (Nat.ltb_spec (length k) blockSize).
    - apply typed_set_zeros_prefix. lia.
    - replace (blockSize - length k)%nat with 0%nat by lia.
      simpl. by rewrite app_nil_r. }
  assert (Hmain : forall k : list byte, (length k <= blockSize)%nat ->
    (let key := if (length k <? blockSize)%nat
                then typed_set (zeros blockSize) k 0 else k in
     let innerPadding := fst (paddings key blockSize) in
     let outerPadding := snd (paddings key blockSize) in
     let innerMessage :=
       typed_set
         (typed_set (zeros (length innerPadding + length message)) innerPadding 0)
         message (length innerPadding) in
     let* innerHash := hash innerMessage in
     let outerMessage :=
       typed_set
         (typed_set (zeros (length outerPadding + length innerHash)) outerPadding 0)
         innerHash (length outerPadding) in
     hash outerMessage)
    = (let* inner := hash (pad blockSize k 0x36 ++ message) in
       hash (pad blockSize k 0x5c ++ inner))).
  { intros k Hk. cbv zeta. rewrite (Hgen k Hk), paddings_spec by assumption.
    simpl fst. simpl snd. rewrite typed_set_concat.
    destruct (hash (pad blockSize k 54 ++ message)) as [inner|e]; simpl;
      [|reflexivity].
    by rewrite typed_set_concat. }
  destruct (Nat.ltb_spec blockSize (length key)) as [Hlong|Hshort].
  - destruct (hash key) as [d|e] eqn:E; simpl; [|reflexivity].
    apply Hmain. by apply Hfit.
  - simpl. apply Hmain. lia.
Qed.

Section HmacFacts.

Variable engine : HashEngine.

(** A name outside [sha1], [sha256], [sha512] is rejected before any
    hashing. *)
Lemma hmacDigest_unsupported (algorithm : string) (key message : list byte) :
  toLowerCase algorithm <> "sha1" ->
  toLowerCase algorithm <> "sha256" ->
  toLowerCase algorithm <> "sha512" ->
  hmacDigest engine algorithm key message =
  Throw (Error ("Unsupported algorithm: " +:+ algorithm)).
Proof.
  intros H1 H2 H3. unfold hmacDigest, getHashFunction.
  apply String.eqb_neq in H1, H2, H3. rewrite H1, H2, H3. reflexivity.
Qed.

(** C1 (amended).  For an algorithm name that is [sha1], [sha256] or
    [sha512] up to letter case, [hmacDigest] is the HMAC construction
    with block size 128 for sha512 and 64 for sha1 and sha256: a key
    longer than the block is replaced by its hash, the key is
    zero-padded to the block size, and the result is
    [hash (pad key 0x5c ++ hash (pad key 0x36 ++ message))]; the digest
    of an over-long key is assumed to fit in a block. *)
Theorem hmacDigest_construction (algorithm : string) (key message : list byte)
    (hash : list byte -> result (list byte)) (blockSize : nat) :
  (toLowerCase algorithm = "sha1" /\ hash = sha1 engine /\ blockSize = 64%nat)
  \/ (toLowerCase algorithm = "sha256" /\ hash = sha256 engine /\ blockSize = 64%nat)
  \/ (toLowerCase algorithm = "sha512" /\ hash = sha512 engine /\ blockSize = 128%nat) ->
  (forall d, hash key = Ok d -> (length d <= blockSize)%nat) ->
  hmacDigest engine algorithm key message = hmac_spec hash blockSize key message.
Proof.
  intros Halg Hfit. rewrite <- (hmacDigest_body hash blockSize key message Hfit).
  unfold hmacDigest, getHashFunction.
  destruct Halg as [(-> & -> & ->) | [(-> & -> & ->) | (-> & -> & ->)]];
    reflexivity.
Qed.

End HmacFacts.

(** The test vector of tests/hmac.test.ts for SHA-1. *)
Example hmac_test_sha1 :
  hmacDigest sha1_platform "SHA1" (ascii_bytes "key")
    (ascii_bytes "The quick brown fox jumps over the lazy dog") =
  Ok (map u8 [0xde; 0x7c; 0x9b; 0x85; 0xb8; 0xb7; 0x8a; 0xa6; 0xbc; 0x8a;
              0x7a; 0x36; 0xf7; 0x0a; 0x90; 0x70; 0x1c; 0x9d; 0xb4; 0xd9]).
Proof. vm_compute. reflexivity. Qed.

Lemma hmacDigest_construction_witness :
  (toLowerCase "SHA1" = "sha1" /\ SHA1.hash = sha1 sha1_platform /\ 64%nat = 64%nat)
  /\ (forall d, SHA1.hash (ascii_bytes "key") = Ok d -> (length d <= 64)%nat)
  /\ hmacDigest sha1_platform "SHA1" (ascii_bytes "key") (ascii_bytes "message") =
     hmac_spec SHA1.hash 64 (ascii_bytes "key") (ascii_bytes "message").
Proof.
  assert (H1 : toLowerCase "SHA1" = "sha1" /\ SHA1.hash = sha1 sha1_platform
               /\ 64%nat = 64%nat) by (repeat split; reflexivity).
  assert (H2 : forall d, SHA1.hash (ascii_bytes "key") = Ok d -> (length d <= 64)%nat).
  { intros d Hd. rewrite (sha1_hash_length _ _ Hd). lia. }
  split; [exact H1|]. split; [exact H2|].
  apply (hmacDigest_construction sha1_platform "SHA1" (ascii_bytes "key")
           (ascii_bytes "message") SHA1.hash 64%nat (or_introl H1) H2).
Defined.

(** C1, as stated, fails on the code: [SHA384] is a canonical name of
    the SHA-512 family, and [hmacDigest] rejects it instead of running
    the construction with a 128-byte block. *)
Lemma hmacDigest_SHA384_rejected :
  canonicalizeAlgorithm "SHA384" = Ok "SHA384"
  /\ spec_block_size "SHA384" = 128%nat
  /\ hmacDigest sha1_platform "SHA384" (ascii_bytes "key") (ascii_bytes "message") =
     Throw (Error "Unsupported algorithm: SHA384").
Proof. split; [|split]; vm_compute; reflexivity. Qed.

(** ** Characters and decimal numerals *)

Lemma charCode_range (c : ascii) : 0 <= charCode c < 256.
Proof.
  unfold charCode. pose proof (N_ascii_bounded c). lia.
Qed.

Lemma charCode_fromCharCode (z : Z) : 0 <= z < 256 -> charCode (fromCharCode z) = z.
Proof.
  intros Hz. unfold charCode, fromCharCode.
  rewrite N_ascii_embedding by lia. lia.
Qed.

Lemma fromCharCode_charCode (c : ascii) : fromCharCode (charCode c) = c.
Proof.
  unfold charCode, fromCharCode. rewrite N2Z.id. apply ascii_N_embedding.
Qed.

Lemma charCode_inj (a b : ascii) : charCode a = charCode b -> a = b.
Proof.
  intros H. rewrite <- (fromCharCode_charCode a), <- (fromCharCode_charCode b).
  congruence.
Qed.

Lemma strlen_nonneg (s : string) : 0 <= strlen s.
Proof. unfold strlen. lia. Qed.

Lemma strlen_cons (c : ascii) (s : string) : strlen (String c s) = strlen s + 1.
Proof. unfold strlen. simpl. lia. Qed.

Lemma strlen_app (a b : string) : strlen (a +:+ b) = strlen a + strlen b.
Proof.
  unfold strlen. induction a as [|c a IH]; simpl; [lia|].
  change (String.app a b) with (a +:+ b). lia.
Qed.

Lemma str_app_nil_r (s : string) : s +:+ "" = s.
Proof. induction s as [|c s IH]; simpl; [reflexivity|]. f_equal. exact IH. Qed.

Lemma str_app_assoc (a b c : string) : (a +:+ b) +:+ c = a +:+ (b +:+ c).
Proof. induction a as [|x a IH]; simpl; [reflexivity|]. f_equal. exact IH. Qed.

Lemma forallb_app (p : ascii -> bool) (a b : string) :
  string_forallb p (a +:+ b) = string_forallb p a && string_forallb p b.
Proof.
  induction a as [|c a IH]; simpl; [reflexivity|].
  change (String.app a b) with (a +:+ b). rewrite IH. apply andb_assoc.
Qed.

Lemma strlen_repeat (n : nat) (c : ascii) : strlen (str_repeat n c) = Z.of_nat n.
Proof.
  induction n as [|n IH]; [reflexivity|].
  simpl str_repeat. rewrite strlen_cons, IH. lia.
Qed.

Lemma forallb_repeat (p : ascii -> bool) (n : nat) (c : ascii) :
  p c = true -> string_forallb p (str_repeat n c) = true.
Proof. intros H. induction n as [|n IH]; simpl; [reflexivity|]. by rewrite H, IH. Qed.

Lemma strlen_padStart (s : string) (n : Z) (c : ascii) :
  strlen (padStart s n c) = Z.max (strlen s) n.
Proof.
  unfold padStart. rewrite strlen_app, strlen_repeat.
  pose proof (strlen_nonneg s). lia.
Qed.

Lemma is_digit_digit_char (d : Z) : 0 <= d < 10 -> is_digit (digit_char d) = true.
Proof.
  intros Hd. unfold is_digit, digit_char.
  rewrite charCode_fromCharCode by lia.
  apply andb_true_iff. split; apply Z.leb_le; lia.
Qed.

Lemma charCode_digit_char (d : Z) : 0 <= d < 10 -> charCode (digit_char d) = 48 + d.
Proof. intros Hd. unfold digit_char. apply charCode_fromCharCode. lia. Qed.

Lemma parse_digits_app (a b : string) (acc : option Z) :
  string_forallb is_digit a = true ->
  parse_digits (a +:+ b) acc = parse_digits b (parse_digits a acc).
Proof.
  revert acc. induction a as [|c a IH]; intros acc H; simpl in *; [reflexivity|].
  apply andb_true_iff in H as [Hc Ha]. rewrite Hc.
  change (String.app a b) with (a +:+ b). by apply IH.
Qed.


(** What [decimal_digits] prepends: the decimal numeral of [n], whose
    first digit is not ['0'] unless [n] is 0. *)
Lemma decimal_digits_spec (fuel : nat) (n : Z) (acc : string) :
  (1 <= fuel)%nat -> 0 <= n < 2 ^ Z.of_nat fuel ->
  exists (c : ascii) (ds : string),
    decimal_digits fuel n acc = String c ds +:+ acc
    /\ is_digit c = true
    /\ (1 <= n -> c <> "0"%char)
    /\ string_forallb is_digit ds = true
    /\ parse_digits (String c ds) None = Some n
    /\ (forall d, 1 <= d -> n < 10 ^ d -> strlen (String c ds) <= d).
Proof.
  revert n acc. induction fuel as [|fuel IH]; intros n acc Hfuel Hn; [lia|].
  simpl decimal_digits.
  destruct (Z.ltb_spec n 10) as [Hlt|Hge].
  - exists (digit_char (n mod 10)), EmptyString.
    rewrite Z.mod_small by lia.
    repeat split.
    + apply is_digit_digit_char. lia.
    + intros H1 Hc. apply (f_equal charCode) in Hc.
      rewrite charCode_digit_char in Hc by lia.
      change (charCode "0") with 48 in Hc. lia.
    + simpl. rewrite is_digit_digit_char by lia.
      rewrite charCode_digit_char by lia. simpl. f_equal. lia.
    + intros d Hd _. rewrite strlen_cons. unfold strlen. simpl. lia.
  - assert (Hfuel' : (1 <= fuel)%nat).
    { destruct fuel; [|lia]. simpl in Hn. lia. }
    assert (Hn' : 0 <= n / 10 < 2 ^ Z.of_nat fuel).
    { split; [apply Z.div_pos; lia|].
      apply Z.div_lt_upper_bound; [lia|].
      rewrite Nat2Z.inj_succ, Z.pow_succ_r in Hn by lia.
      assert (0 < 2 ^ Z.of_nat fuel) by (apply Z.pow_pos_nonneg; lia). lia. }
    destruct (IH (n / 10) (String (digit_char (n mod 10)) acc) Hfuel' Hn')
      as (c & ds & Heq & Hc & Hnz & Hds & Hval & Hlen).
    pose proof (Z.mod_pos_bound n 10 ltac:(lia)) as Hmod.
    exists c, (ds +:+ String (digit_char (n mod 10)) EmptyString).
    repeat split.
    + rewrite Heq. simpl. f_equal. rewrite str_app_assoc. reflexivity.
    + exact Hc.
    + intros _. apply Hnz. apply Z.div_le_lower_bound; lia.
    + rewrite forallb_app, Hds. simpl. by rewrite is_digit_digit_char.
    + change (String c (ds +:+ String (digit_char (n mod 10)) ""))
        with (String c ds +:+ String (digit_char (n mod 10)) "").
      rewrite parse_digits_app by (simpl; by rewrite Hc, Hds).
      rewrite Hval. simpl. rewrite is_digit_digit_char by lia.
      rewrite charCode_digit_char by lia. simpl. f_equal.
      pose proof (Z.div_mod n 10 ltac:(lia)). lia.
    + intros d Hd Hnd.
      change (String c (ds +:+ String (digit_char (n mod 10)) ""))
        with (String c ds +:+ String (digit_char (n mod 10)) "").
      rewrite strlen_app.
      assert (Hd2 : 2 <= d).
      { destruct (Z_lt_le_dec d 2); [|lia]. replace d with 1 in Hnd by lia. lia. }
      specialize (Hlen (d - 1) ltac:(lia)).
      assert (n / 10 < 10 ^ (d - 1)).
      { apply Z.div_lt_upper_bound; [lia|].
        rewrite <- Z.pow_succ_r by lia. replace (Z.succ (d - 1)) with d by lia. lia. }
      specialize (Hlen ltac:(lia)).
      unfold strlen at 2. simpl. lia.
Qed.

Lemma Number_toString_fuel (n : Z) : 0 <= n ->
  (1 <= S (Z.to_nat (Z.log2 n)))%nat /\ 0 <= n < 2 ^ Z.of_nat (S (Z.to_nat (Z.log2 n))).
Proof.
  intros Hn. split; [lia|]. split; [lia|].
  rewrite Nat2Z.inj_succ, Z2Nat.id by apply Z.log2_nonneg.
  destruct (Z.eq_dec n 0) as [->|Hne]; [reflexivity|].
  apply Z.log2_spec. lia.
Qed.

(** The decimal numeral of a non-negative integer. *)
Lemma Number_toString_nonneg (n : Z) : 0 <= n ->
  exists (c : ascii) (ds : string),
    Number_toString n = String c ds
    /\ is_digit c = true
    /\ (1 <= n -> c <> "0"%char)
    /\ string_forallb is_digit ds = true
    /\ parse_digits (String c ds) None = Some n
    /\ (forall d, 1 <= d -> n < 10 ^ d -> strlen (String c ds) <= d).
Proof.
  intros Hn. unfold Number_toString.
  destruct (Z.ltb_spec n 0); [lia|].
  destruct (Number_toString_fuel n Hn) as [Hf Hb].
  destruct (decimal_digits_spec _ n EmptyString Hf Hb)
    as (c & ds & Heq & H1 & H2 & H3 & H4 & H5).
  exists c, ds. rewrite Heq, str_app_nil_r.
  split; [reflexivity | repeat (split; [assumption|]); assumption].
Qed.

Lemma parseInt_digits (c : ascii) (ds : string) :
  is_digit c = true -> parseInt (String c ds) = parse_digits (String c ds) None.
Proof.
  intros Hc. unfold parseInt.
  assert (Hws : is_white_space c = false).
  { unfold is_digit in Hc. unfold is_white_space.
    apply andb_true_iff in Hc as [H1 H2]. apply Z.leb_le in H1, H2.
    repeat (apply orb_false_iff; split);
      [apply andb_false_iff; right; apply Z.leb_gt; lia
      | apply Z.eqb_neq; lia | apply Z.eqb_neq; lia]. }
  simpl trim_start. rewrite Hws.
  destruct (Ascii.eqb_spec c "+") as [->|Hp]; [discriminate Hc|].
  destruct (Ascii.eqb_spec c "-") as [->|Hm]; [discriminate Hc|].
  destruct c as [[] [] [] [] [] [] [] []]; try reflexivity; congruence.
Qed.

(** ** hotp.ts: [uintDecode] *)

Lemma ToInt32_congr (x : Z) : exists k, ToInt32 x = x + k * 2 ^ 32.
Proof.
  unfold ToInt32. exists (- ((x + 2 ^ 31) / 2 ^ 32)).
  pose proof (Z.div_mod (x + 2 ^ 31) (2 ^ 32) ltac:(lia)). lia.
Qed.

Lemma ToInt32_mod_pow2 (x n : Z) : 0 <= n <= 32 -> ToInt32 x mod 2 ^ n = x mod 2 ^ n.
Proof.
  intros Hn. destruct (ToInt32_congr x) as [k ->].
  replace (2 ^ 32) with (2 ^ (32 - n) * 2 ^ n)
    by (rewrite <- Z.pow_add_r by lia; f_equal; lia).
  rewrite Z.mul_assoc. apply Z.mod_add.
  apply Z.pow_nonzero; lia.
Qed.

(** [x & (2^n - 1)] keeps the [n] low bits of any integer. *)
Lemma js_and_ones (x n : Z) : 0 <= n < 31 -> js_and x (Z.ones n) = x mod 2 ^ n.
Proof.
  intros Hn. unfold js_and.
  assert (Hones : 0 <= Z.ones n < 2 ^ 31).
  { rewrite Z.ones_equiv.
    assert (0 < 2 ^ n) by (apply Z.pow_pos_nonneg; lia).
    assert (2 ^ n < 2 ^ 31) by (apply Z.pow_lt_mono_r; lia). lia. }
  rewrite (ToInt32_small (Z.ones n)) by lia.
  rewrite Z.land_ones by lia.
  rewrite ToInt32_mod_pow2 by lia.
  pose proof (Z.mod_pos_bound x (2 ^ n) ltac:(apply Z.pow_pos_nonneg; lia)).
  assert (2 ^ n < 2 ^ 31) by (apply Z.pow_lt_mono_r; lia).
  apply ToInt32_small. lia.
Qed.

Lemma js_and_255 (x : Z) : js_and x 255 = x mod 256.
Proof. apply (js_and_ones x 8). lia. Qed.

Lemma js_and_127 (x : Z) : js_and x 127 = x mod 128.
Proof. apply (js_and_ones x 7). lia. Qed.

Lemma js_and_15 (x : Z) : js_and x 15 = x mod 16.
Proof. apply (js_and_ones x 4). lia. Qed.

Lemma js_and_31 (x : Z) : js_and x 31 = x mod 32.
Proof. apply (js_and_ones x 5). lia. Qed.

Lemma length_byte_store (arr : list byte) (i v : Z) :
  length (byte_store arr i v) = length arr.
Proof. unfold byte_store. destruct (i <? 0); [reflexivity | apply length_insert]. Qed.

Lemma byte_store_lookup (arr : list byte) (i v : Z) (j : nat) :
  0 <= i < Z.of_nat (length arr) ->
  byte_store arr i v !! j = if decide (j = Z.to_nat i) then Some (u8 v) else arr !! j.
Proof.
  intros Hi. unfold byte_store. destruct (Z.ltb_spec i 0); [lia|].
  destruct (decide (j = Z.to_nat i)) as [->|Hne].
  - apply list_lookup_insert_eq. lia.
  - apply list_lookup_insert_ne. congruence.
Qed.

(** The big-endian digits of [num], most significant first. *)
Lemma uintDecode_loop_spec (fuel : nat) (i acc : Z) (arr : list byte) :
  Z.of_nat fuel = i + 1 ->
  i < Z.of_nat (length arr) ->
  (forall j : nat, Z.of_nat j <= i -> arr !! j = Some x00) ->
  length (uintDecode_loop fuel i acc arr) = length arr
  /\ forall j : nat, (j < length arr)%nat ->
       uintDecode_loop fuel i acc arr !! j =
       if Z.of_nat j <=? i then Some (u8 (acc / 256 ^ (i - Z.of_nat j))) else arr !! j.
Proof.
  revert i acc arr. induction fuel as [|fuel IH]; intros i acc arr Hf Hi Hz.
  - simpl. split; [reflexivity|]. intros j Hj.
    destruct (Z.leb_spec (Z.of_nat j) i); [lia | reflexivity].
  - simpl uintDecode_loop.
    destruct (Z.ltb_spec i 0) as [|Hi0]; [lia|].
    destruct (Z.eqb_spec acc 0) as [->|Hacc].
    + split; [reflexivity|]. intros j Hj.
      destruct (Z.leb_spec (Z.of_nat j) i) as [Hle|]; [|reflexivity].
      rewrite Z.div_0_l by (apply Z.pow_nonzero; lia). by apply Hz.
    + set (arr' := byte_store arr i (js_and acc 255)).
      assert (Hlen : length arr' = length arr) by apply length_byte_store.
      assert (Hat : byte_at arr' i = acc mod 256).
      { unfold byte_at. destruct (Z.ltb_spec i 0); [lia|].
        unfold arr'. rewrite byte_store_lookup by lia.
        rewrite decide_True by reflexivity.
        rewrite byte_to_Z_u8, js_and_255. apply Z.mod_mod. lia. }
      rewrite Hat.
      replace ((acc - acc mod 256) / 256) with (acc / 256)
        by (pose proof (Z.div_mod acc 256 ltac:(lia));
            apply Z.div_unique_exact; lia).
      destruct (IH (i - 1) (acc / 256) arr') as [IHlen IHj].
      * lia.
      * lia.
      * intros j Hj. unfold arr'. rewrite byte_store_lookup by lia.
        rewrite decide_False by lia. apply Hz. lia.
      * split; [congruence|]. intros j Hj.
        rewrite IHj by lia.
        destruct (Z.leb_spec (Z.of_nat j) (i - 1)) as [Hle|Hgt].
        -- destruct (Z.leb_spec (Z.of_nat j) i); [|lia].
           rewrite Z.div_div by (try apply Z.pow_pos_nonneg; lia).
           rewrite <- Z.pow_succ_r by lia.
           replace (Z.succ (i - 1 - Z.of_nat j)) with (i - Z.of_nat j) by lia.
           reflexivity.
        -- unfold arr'. rewrite byte_store_lookup by lia.
           destruct (decide (j = Z.to_nat i)) as [->|Hne].
           ++ destruct (Z.leb_spec (Z.of_nat (Z.to_nat i)) i); [|lia].
              rewrite Z2Nat.id, Z.sub_diag, Z.pow_0_r, Z.div_1_r by lia.
              by rewrite js_and_255, u8_mod.
           ++ destruct (Z.leb_spec (Z.of_nat j) i); [lia | reflexivity].
Qed.

Lemma uintDecode_lookup (num : Z) (j : nat) : (j < 8)%nat ->
  uintDecode num !! j = Some (u8 (num / 256 ^ (7 - Z.of_nat j))).
Proof.
  intros Hj. unfold uintDecode.
  destruct (uintDecode_loop_spec 8 7 num (zeros 8)) as [_ H].
  - reflexivity.
  - rewrite length_zeros. lia.
  - intros k Hk. apply lookup_replicate. split; [reflexivity | lia].
  - rewrite H by (rewrite length_zeros; lia).
    destruct (Z.leb_spec (Z.of_nat j) 7); [reflexivity | lia].
Qed.

Lemma length_uintDecode (num : Z) : length (uintDecode num) = 8%nat.
Proof.
  unfold uintDecode.
  destruct (uintDecode_loop_spec 8 7 num (zeros 8)) as [H _].
  - reflexivity.
  - rewrite length_zeros. lia.
  - intros k Hk. apply lookup_replicate. split; [reflexivity | lia].
  - rewrite H. apply length_zeros.
Qed.

Lemma be_value_snoc (l : list byte) (b : byte) :
  be_value (l ++ [b]) = be_value l * 256 + byte_to_Z b.
Proof. unfold be_value. rewrite foldl_app. reflexivity. Qed.

Lemma be_value_digits (n : nat) (num : Z) :
  be_value (map (fun k => u8 (num / 256 ^ (Z.of_nat n - 1 - Z.of_nat k))) (seq 0 n))
  = num mod 256 ^ Z.of_nat n.
Proof.
  revert num. induction n as [|n IH]; intros num.
  - simpl. rewrite Z.mod_1_r. reflexivity.
  - rewrite seq_S, map_app, Nat.add_0_l. cbn [List.map].
    rewrite be_value_snoc, byte_to_Z_u8.
    replace (Z.of_nat (S n) - 1 - Z.of_nat n) with 0 by lia.
    rewrite Z.pow_0_r, Z.div_1_r.
    assert (Hmap :
      map (fun k => u8 (num / 256 ^ (Z.of_nat (S n) - 1 - Z.of_nat k))) (seq 0 n)
      = map (fun k => u8 (num / 256 / 256 ^ (Z.of_nat n - 1 - Z.of_nat k))) (seq 0 n)).
    { apply map_ext_in. intros k Hk. apply in_seq in Hk. f_equal.
      rewrite Z.div_div by (try apply Z.pow_pos_nonneg; lia).
      rewrite <- Z.pow_succ_r by lia. do 2 f_equal. lia. }
    rewrite Hmap, IH.
    rewrite Nat2Z.inj_succ, Z.pow_succ_r by lia.
    rewrite Z.rem_mul_r by (try apply Z.pow_nonzero; lia). lia.
Qed.

(** [uintDecode] writes the 8-byte big-endian encoding of the counter
    (taken modulo 2^64). *)
Lemma uintDecode_big_endian (num : Z) :
  length (uintDecode num) = 8%nat /\ be_value (uintDecode num) = num mod 2 ^ 64.
Proof.
  split; [apply length_uintDecode|].
  assert (H : uintDecode num =
              map (fun k => u8 (num / 256 ^ (Z.of_nat 8 - 1 - Z.of_nat k))) (seq 0 8)).
  { apply list_eq. intros j. destruct (decide (j < 8)%nat) as [Hj|Hj].
    - rewrite uintDecode_lookup by assumption.
      rewrite list_lookup_fmap, lookup_seq_lt by assumption. reflexivity.
    - rewrite lookup_ge_None_2 by (rewrite length_uintDecode; lia).
      rewrite list_lookup_fmap, lookup_seq_ge by lia. reflexivity. }
  rewrite H, be_value_digits. reflexivity.
Qed.

(** ** hotp.ts: [HOTP.generate] *)

Lemma land_15 (x : Z) : Z.land x 15 = x mod 16.
Proof. change 15 with (Z.ones 4). apply Z.land_ones. lia. Qed.

Lemma land_127 (x : Z) : Z.land x 127 = x mod 128.
Proof. change 127 with (Z.ones 7). apply Z.land_ones. lia. Qed.

(** The dynamic truncation reads four bytes at [offset] as a 31-bit
    big-endian number. *)
Lemma truncate_spec (digest : list byte) :
  let offset := Z.land (byte_at digest (Z.of_nat (length digest) - 1)) 15 in
  HOTP.truncate digest =
    Z.land (byte_at digest offset) 127 * 2 ^ 24
    + byte_at digest (offset + 1) * 2 ^ 16
    + byte_at digest (offset + 2) * 2 ^ 8
    + byte_at digest (offset + 3).
Proof.
  intros offset. unfold HOTP.truncate.
  rewrite js_and_15, <- land_15. fold offset.
  rewrite js_and_127, !js_and_255, <- land_127.
  pose proof (byte_at_range digest offset) as H0.
  pose proof (byte_at_range digest (offset + 1)) as H1.
  pose proof (byte_at_range digest (offset + 2)) as H2.
  pose proof (byte_at_range digest (offset + 3)) as H3.
  rewrite !(Z.mod_small (byte_at _ _) 256) by lia.
  assert (Hm : 0 <= Z.land (byte_at digest offset) 127 < 128).
  { rewrite land_127. apply Z.mod_pos_bound. lia. }
  set (b0 := Z.land (byte_at digest offset) 127) in *.
  set (b1 := byte_at digest (offset + 1)) in *.
  set (b2 := byte_at digest (offset + 2)) in *.
  set (b3 := byte_at digest (offset + 3)) in *.
  rewrite (js_shl_small b0 24), (js_shl_small b1 16), (js_shl_small b2 8) by lia.
  rewrite (js_or_small (b0 * 2 ^ 24)) by lia.
  rewrite (lor_shift_add 24 b0 (b1 * 2 ^ 16)) by lia.
  rewrite (js_or_small (b0 * 2 ^ 24 + b1 * 2 ^ 16)) by lia.
  replace (b0 * 2 ^ 24 + b1 * 2 ^ 16) with ((b0 * 2 ^ 8 + b1) * 2 ^ 16) by lia.
  rewrite (lor_shift_add 16 _ (b2 * 2 ^ 8)) by lia.
  rewrite js_or_small by lia.
  replace ((b0 * 2 ^ 8 + b1) * 2 ^ 16 + b2 * 2 ^ 8)
    with (((b0 * 2 ^ 8 + b1) * 2 ^ 8 + b2) * 2 ^ 8) by lia.
  rewrite (lor_shift_add 8 _ b3) by lia.
  lia.
Qed.

Lemma truncate_range (digest : list byte) : 0 <= HOTP.truncate digest < 2 ^ 31.
Proof.
  rewrite truncate_spec.
  set (offset := Z.land (byte_at digest (Z.of_nat (length digest) - 1)) 15).
  pose proof (byte_at_range digest (offset + 1)).
  pose proof (byte_at_range digest (offset + 2)).
  pose proof (byte_at_range digest (offset + 3)).
  assert (0 <= Z.land (byte_at digest offset) 127 < 128).
  { rewrite land_127. apply Z.mod_pos_bound. lia. }
  lia.
Qed.

Lemma parse_digits_zeros (k : nat) (s : string) (acc : option Z) :
  default 0 acc = 0 -> s <> EmptyString ->
  string_forallb is_digit s = true ->
  parse_digits (str_repeat k "0" +:+ s) acc = parse_digits s None.
Proof.
  intros Hacc Hs Hd. revert acc Hacc. induction k as [|k IH]; intros acc Hacc.
  - simpl. destruct s as [|c s]; [congruence|].
    simpl. simpl in Hd. apply andb_true_iff in Hd as [Hc _].
    rewrite Hc, Hacc. reflexivity.
  - change (parse_digits (str_repeat (S k) "0" +:+ s) acc)
      with (parse_digits (str_repeat k "0" +:+ s)
              (Some (10 * default 0 acc + (charCode "0" - 48)))).
    apply IH. cbn [default from_option]. rewrite Hacc. reflexivity.
Qed.

Lemma parseInt_all_digits (s : string) :
  s <> EmptyString -> string_forallb is_digit s = true ->
  parseInt s = parse_digits s None.
Proof.
  intros Hs Hd. destruct s as [|c s]; [congruence|].
  simpl in Hd. apply andb_true_iff in Hd as [Hc _].
  by apply parseInt_digits.
Qed.

(** A non-negative integer below [10^d], rendered and left-padded with
    zeros to [d] characters. *)
Lemma padded_numeral (n d : Z) : 1 <= d -> 0 <= n < 10 ^ d ->
  let token := padStart (Number_toString n) d "0" in
  strlen token = d
  /\ string_forallb is_digit token = true
  /\ parseInt token = Some n.
Proof.
  intros Hd Hn token.
  destruct (Number_toString_nonneg n ltac:(lia))
    as (c & ds & Heq & Hc & _ & Hds & Hval & Hlen).
  specialize (Hlen d Hd ltac:(lia)).
  assert (Hall : string_forallb is_digit (String c ds) = true)
    by (simpl; by rewrite Hc, Hds).
  unfold token. rewrite Heq.
  split; [rewrite strlen_padStart; lia|].
  unfold padStart.
  assert (Htok : string_forallb is_digit
                   (str_repeat (Z.to_nat (d - strlen (String c ds))) "0"
                    +:+ String c ds) = true).
  { rewrite forallb_app, Hall, forallb_repeat by reflexivity. reflexivity. }
  split; [exact Htok|].
  rewrite parseInt_all_digits; [| |exact Htok].
  - rewrite parse_digits_zeros by (try reflexivity; try exact Hall; congruence).
    exact Hval.
  - destruct (Z.to_nat (d - strlen (String c ds))); simpl; congruence.
Qed.

Section HotpGenerate.

Variable engine : HashEngine.

Lemma generate_eq (secret : Secret) (algorithm : string) (digits counter : Z)
    (digest : list byte) :
  0 <= digits ->
  hmacDigest engine algorithm (bytes secret) (uintDecode counter) = Ok digest ->
  HOTP.generate engine secret algorithm digits counter =
  Ok (padStart (Number_toString (truncate_value digest mod 10 ^ digits)) digits "0").
Proof.
  intros Hd Hdig. unfold HOTP.generate. rewrite Hdig. simpl.
  unfold truncate_value. rewrite <- truncate_spec.
  pose proof (truncate_range digest).
  rewrite Z.rem_mod_nonneg; [reflexivity | lia |].
  apply Z.pow_pos_nonneg; lia.
Qed.

(** C2.  For digits in {6,7,8} and a digest delivered by the HMAC layer:
    the counter is encoded as exactly 8 big-endian bytes, the offset is
    [digest[last] & 0x0F], the dynamic value is the 31-bit number read
    at that offset, and the token is that value modulo [10^digits] as
    exactly [digits] decimal characters, left-padded with zeros. *)
Theorem generate_spec (secret : Secret) (algorithm : string) (digits counter : Z)
    (digest : list byte) :
  digits = 6 \/ digits = 7 \/ digits = 8 ->
  hmacDigest engine algorithm (bytes secret) (uintDecode counter) = Ok digest ->
  length (uintDecode counter) = 8%nat
  /\ be_value (uintDecode counter) = counter mod 2 ^ 64
  /\ 0 <= truncate_value digest < 2 ^ 31
  /\ exists token,
       HOTP.generate engine secret algorithm digits counter = Ok token
       /\ token = padStart (Number_toString (truncate_value digest mod 10 ^ digits))
                    digits "0"
       /\ strlen token = digits
       /\ string_forallb is_digit token = true
       /\ parseInt token = Some (truncate_value digest mod 10 ^ digits).
Proof.
  intros Hd Hdig.
  destruct (uintDecode_big_endian counter) as [Hlen Hbe].
  split; [exact Hlen|]. split; [exact Hbe|].
  split.
  { unfold truncate_value. rewrite <- truncate_spec. apply truncate_range. }
  eexists. split; [apply generate_eq; [lia | exact Hdig]|].
  split; [reflexivity|].
  apply padded_numeral; [lia|].
  apply Z.mod_pos_bound. apply Z.pow_pos_nonneg; lia.
Qed.

End HotpGenerate.

(** The test vectors of RFC 4226 (6 digits) and RFC 6238 (8 digits,
    period 30, 59 seconds after the epoch). *)
Example rfc4226_vectors :
  HOTP.generate sha1_platform rfc_secret "SHA1" 6 0 = Ok "755224"
  /\ HOTP.generate sha1_platform rfc_secret "SHA1" 6 1 = Ok "287082"
  /\ HOTP.generate sha1_platform rfc_secret "SHA1" 6 9 = Ok "520489".
Proof. split; [|split]; vm_compute; reflexivity. Qed.

Example rfc6238_vector :
  TOTP.generate sha1_platform rfc_secret "SHA1" 8 30 59000 = Ok "94287082".
Proof. vm_compute. reflexivity. Qed.

Lemma generate_spec_witness :
  (6 = 6 \/ 6 = 7 \/ 6 = 8)
  /\ hmacDigest sha1_platform "SHA1" (bytes rfc_secret) (uintDecode 0) = Ok rfc_digest_0
  /\ exists token,
       HOTP.generate sha1_platform rfc_secret "SHA1" 6 0 = Ok token
       /\ strlen token = 6.
Proof.
  assert (H1 : 6 = 6 \/ 6 = 7 \/ 6 = 8) by (left; reflexivity).
  assert (H2 : hmacDigest sha1_platform "SHA1" (bytes rfc_secret) (uintDecode 0)
               = Ok rfc_digest_0) by (vm_compute; reflexivity).
  split; [exact H1|]. split; [exact H2|].
  destruct (generate_spec sha1_platform rfc_secret "SHA1" 6 0 rfc_digest_0 H1 H2)
    as (_ & _ & _ & token & Hgen & _ & Hlen & _).
  exists token. split; [exact Hgen | exact Hlen].
Defined.

(** ** hotp.ts: [timingSafeEqual] and [HOTP.validate] *)

Lemma timingSafeEqual_loop_spec (a b : string) (out : Z) :
  String.length a = String.length b -> 0 <= out < 256 ->
  0 <= timingSafeEqual_loop a b out < 256
  /\ (timingSafeEqual_loop a b out = 0 <-> out = 0 /\ a = b).
Proof.
  revert b out. induction a as [|x a IH]; intros [|y b] out Hlen Hout;
    simpl in Hlen; try discriminate.
  - simpl. split; [lia|]. tauto.
  - simpl timingSafeEqual_loop.
    pose proof (charCode_range x) as Hx. pose proof (charCode_range y) as Hy.
    pose proof (lxor_range 8 (charCode x) (charCode y) ltac:(lia) ltac:(lia) ltac:(lia))
      as Hxor.
    rewrite (js_xor_small (charCode x) (charCode y)) by lia.
    rewrite js_or_small by lia.
    pose proof (lor_range 8 out (Z.lxor (charCode x) (charCode y))
                  ltac:(lia) ltac:(lia) ltac:(lia)) as Hor.
    destruct (IH b (Z.lor out (Z.lxor (charCode x) (charCode y)))) as [Hr Hiff];
      [congruence | lia |].
    split; [exact Hr|].
    rewrite Hiff, Z.lor_eq_0_iff, Z.lxor_eq_0_iff.
    split.
    + intros [[Ho Hc] ->]. apply charCode_inj in Hc. subst. auto.
    + intros [Ho [= -> ->]]. auto.
Qed.

(** On strings of equal length [timingSafeEqual] decides equality. *)
Lemma timingSafeEqual_spec (a b : string) :
  strlen a = strlen b -> timingSafeEqual a b = Ok (bool_decide (a = b)).
Proof.
  intros Hlen. unfold timingSafeEqual.
  rewrite (proj2 (Z.eqb_eq _ _) Hlen). simpl. f_equal.
  assert (Hl : String.length a = String.length b) by (unfold strlen in Hlen; lia).
  destruct (timingSafeEqual_loop_spec a b 0 Hl ltac:(lia)) as [_ Hiff].
  destruct (decide (a = b)) as [Heq|Hne].
  - rewrite bool_decide_eq_true_2 by assumption.
    apply Z.eqb_eq. apply Hiff. auto.
  - rewrite bool_decide_eq_false_2 by assumption.
    apply Z.eqb_neq. intros H0. apply Hiff in H0. tauto.
Qed.



Section HotpValidate.

Variable engine : HashEngine.

(** A generated token has exactly [digits] characters. *)
Lemma generate_length (secret : Secret) (algorithm : string) (digits counter : Z)
    (token : string) :
  1 <= digits ->
  HOTP.generate engine secret algorithm digits counter = Ok token ->
  strlen token = digits.
Proof.
  intros Hd Hgen.
  assert (Hgen' := Hgen). unfold HOTP.generate in Hgen'.
  apply bind_inv in Hgen' as (digest & Hdig & _).
  rewrite (generate_eq engine secret algorithm digits counter digest) in Hgen
    by (try lia; exact Hdig).
  injection Hgen as <-.
  apply padded_numeral; [lia|].
  apply Z.mod_pos_bound. apply Z.pow_pos_nonneg; lia.
Qed.




(** More fuel than turns changes nothing: the loop leaves through its
    own condition. *)
Lemma validate_loop_exit (token : string) (secret : Secret) (algorithm : string)
    (digits counter window : Z) (fuel : nat) (i : Z) (delta : option Z) :
  counter + window < i ->
  HOTP.validate_loop engine fuel token secret algorithm digits counter window i delta
  = Ok delta.
Proof.
  intros Hi. destruct fuel as [|fuel]; [reflexivity|].
  simpl. destruct (Z.leb_spec i (counter + window)); [lia | reflexivity].
Qed.

End HotpValidate.

(** ** hotp.ts: validating a generated token *)







Section HotpRoundTrip.

Variable engine : HashEngine.


End HotpRoundTrip.






(** ** totp.ts: the counter and [TOTP.generate] *)


Section Totp.

Variable engine : HashEngine.


End Totp.


(** ** hotp.ts: the instance methods *)

Section HotpInstance.

Variable engine : HashEngine.


End HotpInstance.


(** ** totp.ts and hotp.ts: the algorithm of a constructed instance *)

Lemma includes_In (l : list string) (s : string) : includes l s = true -> In s l.
Proof.
  unfold includes. intros H. apply existsb_exists in H as (x & Hx & Heq).
  apply String.eqb_eq in Heq. by subst.
Qed.

(** Canonicalization answers with one of the nine names or throws a
    [TypeError]. *)
Lemma canonicalizeAlgorithm_spec (algorithm : string) :
  (exists name, canonicalizeAlgorithm algorithm = Ok name /\ In name HashAlgorithm)
  \/ canonicalizeAlgorithm algorithm
     = Throw (TypeError ("Algoritmo de hash desconocido: " +:+ algorithm)).
Proof.
  unfold canonicalizeAlgorithm.
  destruct (startsWith (toUpperCase algorithm) "SHA3-").
  - destruct (includes _ (toUpperCase algorithm)) eqn:E; [|by right].
    left. eexists. split; [reflexivity|].
    apply includes_In in E. unfold HashAlgorithm. simpl in *. tauto.
  - repeat match goal with
           | |- context [String.eqb ?a ?b] =>
               destruct (String.eqb a b);
               [left; eexists; split; [reflexivity | unfold HashAlgorithm; simpl; tauto]|]
           end.
    by right.
Qed.

Lemma canonicalizeAlgorithm_Ok (algorithm name : string) :
  canonicalizeAlgorithm algorithm = Ok name -> In name HashAlgorithm.
Proof.
  intros H. destruct (canonicalizeAlgorithm_spec algorithm) as [(n & Hn & Hin)|Hthrow];
    congruence.
Qed.

(** The TOTP constructor admits canonical algorithms only. *)
Lemma TOTP_new_algorithm (random : RandomSource) (o : TOTP.options) (t : TOTP.t) :
  TOTP.new random o = Ok t -> In (TOTP.algorithm t) HashAlgorithm.
Proof.
  unfold TOTP.new. intros H.
  apply bind_inv in H as (s & _ & H).
  apply bind_inv in H as (a & Ha & H).
  injection H as <-. simpl. by apply canonicalizeAlgorithm_Ok in Ha.
Qed.

Lemma TOTP_new_unknown_algorithm (random : RandomSource) (o : TOTP.options)
    (s : Secret) (a : string) :
  resolve_secret random (TOTP.o_secret o) = Ok s ->
  TOTP.o_algorithm o = Some a ->
  (forall name, canonicalizeAlgorithm a <> Ok name) ->
  TOTP.new random o = Throw (TypeError ("Algoritmo de hash desconocido: " +:+ a)).
Proof.
  intros Hs Ha Hno. unfold TOTP.new. rewrite Hs, Ha. simpl.
  destruct (canonicalizeAlgorithm_spec a) as [(n & Hn & _)|Hthrow].
  - by apply Hno in Hn.
  - by rewrite Hthrow.
Qed.

(** C7 fails on the code for HOTP: the constructor only upper-cases the
    name, so an instance with the algorithm ["MD5"] is constructed,
    directly and through [URI.parse], where the TOTP constructor
    rejects the same options. *)
Theorem HOTP_new_accepts_unknown_algorithm :
  HOTP.new no_random
    {| HOTP.o_issuer := None; HOTP.o_label := None; HOTP.o_issuerInLabel := None;
       HOTP.o_secret := Some (SecretObject rfc_secret);
       HOTP.o_algorithm := Some "md5"; HOTP.o_digits := None;
       HOTP.o_counter := None |}
  = Ok {| HOTP.issuer := ""; HOTP.label := "OTPAuth"; HOTP.issuerInLabel := true;
          HOTP.secret := rfc_secret; HOTP.algorithm := "MD5";
          HOTP.digits := 6; HOTP.counter := 0 |}
  /\ ~ In "MD5" HashAlgorithm
  /\ (exists h, URI.parse no_random
                  "otpauth://hotp/X?secret=JBSWY3DPEHPK3PXP&counter=0&algorithm=md5"
                = Ok (URI.OTP_HOTP h) /\ HOTP.algorithm h = "MD5")
  /\ TOTP.new no_random
       {| TOTP.o_issuer := None; TOTP.o_label := None; TOTP.o_issuerInLabel := None;
          TOTP.o_secret := Some (SecretObject rfc_secret);
          TOTP.o_algorithm := Some "md5"; TOTP.o_digits := None;
          TOTP.o_period := None |}
     = Throw (TypeError "Algoritmo de hash desconocido: md5").
Proof.
  split; [vm_compute; reflexivity|].
  split; [unfold HashAlgorithm; simpl; intuition discriminate|].
  split; [|vm_compute; reflexivity].
  eexists. split; [vm_compute; reflexivity | reflexivity].
Qed.

(** ** secret.ts: the base32 codec *)

Lemma ToUint32_range (x : Z) : 0 <= ToUint32 x < 2 ^ 32.
Proof. unfold ToUint32. apply Z.mod_pos_bound. lia. Qed.

Lemma ToUint32_ToInt32 (x : Z) : ToUint32 (ToInt32 x) = ToUint32 x.
Proof. unfold ToUint32. apply ToInt32_mod. Qed.

Lemma ToInt32_idem (x : Z) : ToInt32 (ToInt32 x) = ToInt32 x.
Proof. apply ToInt32_small. apply ToInt32_range. Qed.

Lemma js_shl_spec (v k : Z) : 0 <= k < 32 ->
  exists a, js_shl v k = a * 2 ^ k /\ ToUint32 (js_shl v k) = (ToUint32 v * 2 ^ k) mod 2 ^ 32.
Proof.
  intros Hk. unfold js_shl. rewrite (Z.mod_small k 32) by lia.
  rewrite Z.shiftl_mul_pow2 by lia.
  assert (Hpow : 2 ^ 32 = 2 ^ (32 - k) * 2 ^ k)
    by (rewrite <- Z.pow_add_r by lia; f_equal; lia).
  assert (Hk0 : 0 < 2 ^ k) by (apply Z.pow_pos_nonneg; lia).
  split with (ToInt32 (ToInt32 v * 2 ^ k) / 2 ^ k). split.
  - destruct (ToInt32_congr (ToInt32 v * 2 ^ k)) as [q Hq].
    rewrite Hq, Hpow.
    replace (ToInt32 v * 2 ^ k + q * (2 ^ (32 - k) * 2 ^ k))
      with ((ToInt32 v + q * 2 ^ (32 - k)) * 2 ^ k) by ring.
    rewrite Z.div_mul by lia. reflexivity.
  - rewrite ToUint32_ToInt32. unfold ToUint32.
    rewrite <- (Zmult_mod_idemp_l (ToInt32 v)), ToInt32_mod. reflexivity.
Qed.

(** [(v << k) | x] appends the [k] bits of [x] to [v], modulo 2^32. *)
Lemma js_or_shl (v k x : Z) : 0 <= k < 32 -> 0 <= x < 2 ^ k ->
  ToUint32 (js_or (js_shl v k) x) = (ToUint32 v * 2 ^ k + x) mod 2 ^ 32.
Proof.
  intros Hk Hx.
  destruct (js_shl_spec v k Hk) as (a & Ha & HL).
  assert (Hx31 : x < 2 ^ 31).
  { assert (2 ^ k <= 2 ^ 31) by (apply Z.pow_le_mono_r; lia). lia. }
  unfold js_or. rewrite (ToInt32_small x) by lia.
  assert (Hr : ToInt32 (js_shl v k) = js_shl v k).
  { unfold js_shl. apply ToInt32_idem. }
  rewrite Hr, ToUint32_ToInt32, Ha, lor_shift_add by lia.
  rewrite <- Ha. unfold ToUint32 in *.
  rewrite <- Zplus_mod_idemp_l, HL, Zplus_mod_idemp_l. reflexivity.
Qed.

Lemma js_ushr_spec (v s : Z) : 0 <= s < 32 -> js_ushr v s = ToUint32 v / 2 ^ s.
Proof.
  intros Hs. unfold js_ushr. rewrite (Z.mod_small s 32) by lia.
  apply Z.shiftr_div_pow2. lia.
Qed.

Lemma js_and_shl_31 (v s : Z) : 0 <= s < 32 ->
  js_and (js_shl v s) 31 = (ToUint32 v * 2 ^ s) mod 32.
Proof.
  intros Hs. rewrite js_and_31.
  destruct (js_shl_spec v s Hs) as (_ & _ & HL). unfold ToUint32 in HL.
  assert (H32 : forall y, y mod 32 = (y mod 2 ^ 32) mod 32).
  { intros y. symmetry. apply Z.mod_mod_divide. exists (2 ^ 27). reflexivity. }
  rewrite (H32 (js_shl v s)), HL, <- H32. reflexivity.
Qed.

(** The alphabet, symbol by symbol. *)
Lemma alphabet_facts (s : Z) : 0 <= s < 32 ->
  char_at ALPHABET s = Some (alphabet_char s)
  /\ indexOf ALPHABET (alphabet_char s) = s
  /\ upper_char (alphabet_char s) = alphabet_char s
  /\ Ascii.eqb (alphabet_char s) " " = false
  /\ Ascii.eqb (alphabet_char s) "=" = false.
Proof.
  intros Hs. rewrite <- (Z2Nat.id s) by lia.
  assert (Hn : (Z.to_nat s < 32)%nat) by lia.
  generalize dependent (Z.to_nat s). intros n Hn.
  do 32 (destruct n as [|n]; [vm_compute; repeat split; reflexivity|]).
  lia.
Qed.

Lemma append_alphabet_char (str : string) (s : Z) : 0 <= s < 32 ->
  append_char_at str ALPHABET s = str +:+ String (alphabet_char s) EmptyString.
Proof.
  intros Hs. unfold append_char_at.
  destruct (alphabet_facts s Hs) as [-> _]. reflexivity.
Qed.

Lemma decode_loop_app (st : decoder) (a b : string) :
  decode_loop st (a +:+ b) = let* st' := decode_loop st a in decode_loop st' b.
Proof.
  revert st. induction a as [|c a IH]; intros st; [reflexivity|].
  simpl. destruct (decode_step st c) as [st'|e]; simpl; [apply IH | reflexivity].
Qed.

Lemma append_char_at_app (str x s : string) (i : Z) :
  append_char_at (str +:+ x) s i = str +:+ append_char_at x s i.
Proof.
  unfold append_char_at. destruct (char_at s i); apply str_app_assoc.
Qed.

Lemma encode_while_app (fuel : nat) (bits value : Z) (str x : string) :
  encode_while fuel bits value (str +:+ x)
  = (fst (encode_while fuel bits value x), str +:+ snd (encode_while fuel bits value x)).
Proof.
  revert bits x. induction fuel as [|fuel IH]; intros bits x; [reflexivity|].
  simpl. destruct (5 <=? bits); [|reflexivity].
  rewrite append_char_at_app. apply IH.
Qed.

Lemma encode_step_eq (bits value : Z) (str : string) (b : byte) :
  encode_step (bits, value, str) b
  = (fst (encode_while (Z.to_nat (bits + 8)) (bits + 8)
            (js_or (js_shl value 8) (byte_to_Z b)) str),
     js_or (js_shl value 8) (byte_to_Z b),
     snd (encode_while (Z.to_nat (bits + 8)) (bits + 8)
            (js_or (js_shl value 8) (byte_to_Z b)) str)).
Proof.
  unfold encode_step. destruct (encode_while _ _ _ str). reflexivity.
Qed.

Lemma encode_step_app (bits value : Z) (str : string) (b : byte) :
  encode_step (bits, value, str) b
  = (fst (fst (encode_step (bits, value, EmptyString) b)),
     snd (fst (encode_step (bits, value, EmptyString) b)),
     str +:+ snd (encode_step (bits, value, EmptyString) b)).
Proof.
  rewrite !encode_step_eq. cbn [fst snd].
  generalize (js_or (js_shl value 8) (byte_to_Z b)) (Z.to_nat (bits + 8)).
  intros v n.
  pose proof (encode_while_app n (bits + 8) v str EmptyString) as H.
  rewrite str_app_nil_r in H. rewrite H. reflexivity.
Qed.

Lemma encode_fold_app (arr : list byte) (bits value : Z) (str : string) :
  foldl encode_step (bits, value, str) arr
  = (fst (fst (foldl encode_step (bits, value, EmptyString) arr)),
     snd (fst (foldl encode_step (bits, value, EmptyString) arr)),
     str +:+ snd (foldl encode_step (bits, value, EmptyString) arr)).
Proof.
  revert bits value str. induction arr as [|b arr IH]; intros bits value str.
  - simpl. by rewrite str_app_nil_r.
  - cbn [foldl]. rewrite (encode_step_app bits value str).
    destruct (encode_step (bits, value, EmptyString) b) as [[b1 v1] s1].
    cbn [fst snd]. rewrite (IH b1 v1 (str +:+ s1)), (IH b1 v1 s1).
    by rewrite str_app_assoc.
Qed.

Lemma encode_tail_nil (bits value : Z) :
  encode_tail bits value [] =
  if 0 <? bits
  then append_char_at EmptyString ALPHABET (js_and (js_shl value (5 - bits)) 31)
  else EmptyString.
Proof. reflexivity. Qed.

Lemma encode_tail_cons (bits value : Z) (b : byte) (arr : list byte) :
  encode_tail bits value (b :: arr)
  = snd (encode_step (bits, value, EmptyString) b)
    +:+ encode_tail (fst (fst (encode_step (bits, value, EmptyString) b)))
          (snd (fst (encode_step (bits, value, EmptyString) b))) arr.
Proof.
  unfold encode_tail. cbn [foldl].
  destruct (encode_step (bits, value, EmptyString) b) as [[b1 v1] s1].
  cbn [fst snd]. rewrite (encode_fold_app arr b1 v1 s1).
  destruct (foldl encode_step (b1, v1, EmptyString) arr) as [[b2 v2] s2].
  cbn [fst snd]. destruct (0 <? b2); [|reflexivity].
  apply append_char_at_app.
Qed.

Lemma base32Encode_tail (arr : list byte) : base32Encode arr = encode_tail 0 0 arr.
Proof. reflexivity. Qed.

(** The symbol of the stream that sits [k] bits above the low end. *)
Lemma symbol_range (v k : Z) : 0 <= (ToUint32 v / 2 ^ k) mod 32 < 32.
Proof. apply Z.mod_pos_bound. lia. Qed.

Lemma encode_while_S (fuel : nat) (bits value : Z) (str : string) :
  encode_while (S fuel) bits value str =
  if 5 <=? bits
  then encode_while fuel (bits - 5) value
         (append_char_at str ALPHABET (js_and (js_ushr value (bits - 5)) 31))
  else (bits, str).
Proof. reflexivity. Qed.

Lemma encode_while_done (fuel : nat) (bits value : Z) (str : string) :
  bits < 5 -> encode_while fuel bits value str = (bits, str).
Proof.
  intros Hb. destruct fuel as [|fuel]; [reflexivity|].
  rewrite encode_while_S. destruct (Z.leb_spec 5 bits); [lia | reflexivity].
Qed.

(** One byte makes the encoder emit one symbol when it held fewer than
    two bits, and two symbols otherwise. *)
Lemma encode_step_symbols (eb ev : Z) (b : byte) : 0 <= eb < 5 ->
  let V := js_or (js_shl ev 8) (byte_to_Z b) in
  encode_step (eb, ev, EmptyString) b =
  if eb <? 2
  then (eb + 3, V,
        String (alphabet_char ((ToUint32 V / 2 ^ (eb + 3)) mod 32)) EmptyString)
  else (eb - 2, V,
        String (alphabet_char ((ToUint32 V / 2 ^ (eb + 3)) mod 32))
          (String (alphabet_char ((ToUint32 V / 2 ^ (eb - 2)) mod 32)) EmptyString)).
Proof.
  intros Heb V. unfold encode_step. fold V.
  assert (Hsym : forall k str, 0 <= k < 32 ->
            append_char_at str ALPHABET (js_and (js_ushr V k) 31)
            = str +:+ String (alphabet_char ((ToUint32 V / 2 ^ k) mod 32)) EmptyString).
  { intros k str Hk. rewrite js_and_31, js_ushr_spec by lia.
    apply append_alphabet_char. apply Z.mod_pos_bound. lia. }
  clearbody V.
  destruct (Z.to_nat (eb + 8)) as [|[|[|n]]] eqn:E; try lia.
  rewrite encode_while_S. destruct (Z.leb_spec 5 (eb + 8)) as [_|]; [|lia].
  rewrite Hsym by lia.
  replace (eb + 8 - 5) with (eb + 3) by lia.
  destruct (Z.ltb_spec eb 2) as [Hlt|Hge].
  - rewrite encode_while_done by lia. reflexivity.
  - rewrite encode_while_S. destruct (Z.leb_spec 5 (eb + 3)) as [_|]; [|lia].
    rewrite Hsym by lia.
    replace (eb + 3 - 5) with (eb - 2) by lia.
    rewrite encode_while_done by lia. reflexivity.
Qed.

Lemma decode_step_symbol (st : decoder) (s : Z) : 0 <= s < 32 ->
  decode_step st (alphabet_char s) =
  Ok (if 8 <=? d_bits st + 5
      then {| d_bits := d_bits st + 5 - 8;
              d_value := js_or (js_shl (d_value st) 5) s;
              d_index := d_index st + 1;
              d_arr := byte_store (d_arr st) (d_index st)
                         (js_ushr (js_or (js_shl (d_value st) 5) s)
                            (d_bits st + 5 - 8)) |}
      else {| d_bits := d_bits st + 5;
              d_value := js_or (js_shl (d_value st) 5) s;
              d_index := d_index st;
              d_arr := d_arr st |}).
Proof.
  intros Hs. unfold decode_step.
  destruct (alphabet_facts s Hs) as (_ & -> & _).
  destruct (Z.eqb_spec s (-1)); [lia|].
  destruct (8 <=? d_bits st + 5); reflexivity.
Qed.

Lemma take_byte_store (arr : list byte) (i v : Z) :
  0 <= i < Z.of_nat (length arr) ->
  take (Z.to_nat (i + 1)) (byte_store arr i v) = take (Z.to_nat i) arr ++ [u8 v].
Proof.
  intros Hi. unfold byte_store. destruct (Z.ltb_spec i 0); [lia|].
  replace (Z.to_nat (i + 1)) with (S (Z.to_nat i)) by lia.
  rewrite (take_S_r _ _ (u8 v)) by (apply list_lookup_insert_eq; lia).
  rewrite take_insert_ge by lia. reflexivity.
Qed.

Lemma take_next (full : list byte) (n : nat) (p : byte) (rest : list byte) :
  drop n full = p :: rest ->
  take (S n) full = take n full ++ [p] /\ drop (S n) full = rest
  /\ (n < length full)%nat.
Proof.
  intros Hd.
  assert (Hlk : full !! n = Some p).
  { rewrite <- (Nat.add_0_r n), <- lookup_drop, Hd. reflexivity. }
  split; [by apply take_S_r|].
  split; [|by apply lookup_lt_Some in Hlk].
  change (S n) with (1 + n)%nat. rewrite Nat.add_comm, <- drop_drop, Hd. reflexivity.
Qed.

(** Resolves the tests of the two loops once the bit counts are known. *)
Ltac zbool :=
  repeat match goal with
  | |- context [?a <=? ?b] =>
      first [ rewrite (proj2 (Z.leb_le a b)) by lia
            | rewrite (proj2 (Z.leb_gt a b)) by lia ]
  | |- context [?a <? ?b] =>
      first [ rewrite (proj2 (Z.ltb_lt a b)) by lia
            | rewrite (proj2 (Z.ltb_ge a b)) by lia ]
  end.

Ltac zlit t :=
  lazymatch t with
  | Z0 => idtac
  | Zpos ?p => plit p
  | Zneg ?p => plit p
  end
with plit p :=
  lazymatch p with
  | xH => idtac
  | xO ?q => plit q
  | xI ?q => plit q
  end.

(** Evaluates the sums and differences of literals left by a case
    analysis on the number of pending bits. *)
Ltac zeval :=
  repeat match goal with
  | |- context [?a + ?b] =>
      zlit a; zlit b; let v := eval vm_compute in (a + b) in change (a + b) with v
  | |- context [?a - ?b] =>
      zlit a; zlit b; let v := eval vm_compute in (a - b) in change (a - b) with v
  end.

(** Brings the 32-bit operators of the two loops to arithmetic on the
    unsigned views and closes the goal by linear arithmetic. *)
Ltac codec_arith :=
  repeat first
    [ rewrite byte_to_Z_u8
    | rewrite js_ushr_spec by lia
    | rewrite js_or_shl by (try lia; apply symbol_range) ];
  Z.div_mod_to_equations; lia.

Lemma codec_step (full : list byte) (eb ev : Z) (dst : decoder) (b : byte)
    (rest : list byte) :
  codec_inv full eb ev dst (b :: rest) ->
  exists dst1,
    decode_loop dst (snd (encode_step (eb, ev, EmptyString) b)) = Ok dst1
    /\ codec_inv full (fst (fst (encode_step (eb, ev, EmptyString) b)))
         (snd (fst (encode_step (eb, ev, EmptyString) b))) dst1 rest
    /\ 5 * strlen (snd (encode_step (eb, ev, EmptyString) b))
       = eb + 8 - fst (fst (encode_step (eb, ev, EmptyString) b)).
Proof.
  intros (Heb & Hidx & Hlen & Htake & Hcase).
  rewrite (encode_step_symbols eb ev b Heb).
  pose proof (js_or_shl ev 8 (byte_to_Z b) ltac:(lia) (byte_to_Z_range b)) as HV.
  set (V := js_or (js_shl ev 8) (byte_to_Z b)) in *. clearbody V.
  pose proof (byte_to_Z_range b) as Hb.
  pose proof (ToUint32_range ev) as Hev. pose proof (ToUint32_range V) as HVr.
  pose proof (ToUint32_range (d_value dst)) as Hdv.
  destruct dst as [db dv di da]. cbn [d_bits d_value d_index d_arr] in *.
  assert (Hcases : eb = 0 \/ eb = 1 \/ eb = 2 \/ eb = 3 \/ eb = 4) by lia.
  destruct Hcases as [->|[->|[->|[->| ->]]]].
  - (* no pending bits: one symbol, nothing written *)
    destruct Hcase as [(_ & -> & Hdrop)|(? & _)]; [|lia].
    zbool. cbn [fst snd decode_loop].
    rewrite decode_step_symbol by apply symbol_range.
    cbn [d_bits d_value d_index d_arr bind]. zbool. zeval.
    eexists. split; [reflexivity|]. split; [|reflexivity].
    unfold codec_inv. cbn [d_bits d_value d_index d_arr].
    split; [lia|]. split; [lia|]. split; [exact Hlen|]. split; [exact Htake|].
    right. split; [lia|]. split; [reflexivity|].
    exists b. split; [exact Hdrop|]. zeval. codec_arith.
  - (* one pending bit: one symbol, the pending byte is written *)
    destruct Hcase as [(? & _)|(_ & -> & p & Hdrop & Hp)]; [lia|].
    destruct (take_next _ _ _ _ Hdrop) as (Htk & Hdr & Hlt).
    pose proof (byte_to_Z_range p) as Hpr.
    zbool. cbn [fst snd decode_loop].
    rewrite decode_step_symbol by apply symbol_range.
    cbn [d_bits d_value d_index d_arr bind]. zeval. zbool. zeval.
    eexists. split; [reflexivity|]. split; [|reflexivity].
    unfold codec_inv. cbn [d_bits d_value d_index d_arr].
    split; [lia|]. split; [lia|]. split; [by rewrite length_byte_store|].
    split.
    { rewrite take_byte_store by lia.
      replace (Z.to_nat (di + 1)) with (S (Z.to_nat di)) by lia.
      rewrite Htk, Htake. do 2 f_equal.
      apply byte_to_Z_inj. zeval. codec_arith. }
    right. split; [lia|]. split; [reflexivity|].
    exists b. split.
    { replace (Z.to_nat (di + 1)) with (S (Z.to_nat di)) by lia. exact Hdr. }
    zeval. codec_arith.
  - (* two pending bits: two symbols, both bytes are written *)
    destruct Hcase as [(? & _)|(_ & -> & p & Hdrop & Hp)]; [lia|].
    destruct (take_next _ _ _ _ Hdrop) as (Htk & Hdr & Hlt).
    destruct (take_next _ _ _ _ Hdr) as (Htk2 & Hdr2 & Hlt2).
    pose proof (byte_to_Z_range p) as Hpr.
    zbool. cbn [fst snd decode_loop].
    rewrite decode_step_symbol by apply symbol_range.
    cbn [d_bits d_value d_index d_arr bind]. zeval. zbool. zeval.
    rewrite decode_step_symbol by apply symbol_range.
    cbn [d_bits d_value d_index d_arr bind]. zeval. zbool. zeval.
    eexists. split; [reflexivity|]. split; [|reflexivity].
    unfold codec_inv. cbn [d_bits d_value d_index d_arr].
    split; [lia|]. split; [lia|]. split; [by rewrite !length_byte_store|].
    split.
    { rewrite take_byte_store by (rewrite length_byte_store; lia).
      rewrite take_byte_store by lia.
      replace (Z.to_nat (di + 1 + 1)) with (S (S (Z.to_nat di))) by lia.
      replace (Z.to_nat (di + 1)) with (S (Z.to_nat di)) by lia.
      rewrite Htk2, Htk, Htake. f_equal; [f_equal|]; f_equal;
        apply byte_to_Z_inj; zeval; codec_arith. }
    left. split; [reflexivity|]. split; [reflexivity|].
    replace (Z.to_nat (di + 1 + 1)) with (S (S (Z.to_nat di))) by lia. exact Hdr2.
  - (* three pending bits: two symbols, the pending byte is written *)
    destruct Hcase as [(? & _)|(_ & -> & p & Hdrop & Hp)]; [lia|].
    destruct (take_next _ _ _ _ Hdrop) as (Htk & Hdr & Hlt).
    pose proof (byte_to_Z_range p) as Hpr.
    zbool. cbn [fst snd decode_loop].
    rewrite decode_step_symbol by apply symbol_range.
    cbn [d_bits d_value d_index d_arr bind]. zeval. zbool. zeval.
    rewrite decode_step_symbol by apply symbol_range.
    cbn [d_bits d_value d_index d_arr bind]. zeval. zbool. zeval.
    eexists. split; [reflexivity|]. split; [|reflexivity].
    unfold codec_inv. cbn [d_bits d_value d_index d_arr].
    split; [lia|]. split; [lia|]. split; [by rewrite length_byte_store|].
    split.
    { rewrite take_byte_store by lia.
      replace (Z.to_nat (di + 1)) with (S (Z.to_nat di)) by lia.
      rewrite Htk, Htake. do 2 f_equal.
      apply byte_to_Z_inj. zeval. codec_arith. }
    right. split; [lia|]. split; [reflexivity|].
    exists b. split.
    { replace (Z.to_nat (di + 1)) with (S (Z.to_nat di)) by lia. exact Hdr. }
    zeval. codec_arith.
  - (* four pending bits: two symbols, the pending byte is written *)
    destruct Hcase as [(? & _)|(_ & -> & p & Hdrop & Hp)]; [lia|].
    destruct (take_next _ _ _ _ Hdrop) as (Htk & Hdr & Hlt).
    pose proof (byte_to_Z_range p) as Hpr.
    zbool. cbn [fst snd decode_loop].
    rewrite decode_step_symbol by apply symbol_range.
    cbn [d_bits d_value d_index d_arr bind]. zeval. zbool. zeval.
    rewrite decode_step_symbol by apply symbol_range.
    cbn [d_bits d_value d_index d_arr bind]. zeval. zbool. zeval.
    eexists. split; [reflexivity|]. split; [|reflexivity].
    unfold codec_inv. cbn [d_bits d_value d_index d_arr].
    split; [lia|]. split; [lia|]. split; [by rewrite length_byte_store|].
    split.
    { rewrite take_byte_store by lia.
      replace (Z.to_nat (di + 1)) with (S (Z.to_nat di)) by lia.
      rewrite Htk, Htake. do 2 f_equal.
      apply byte_to_Z_inj. zeval. codec_arith. }
    right. split; [lia|]. split; [reflexivity|].
    exists b. split.
    { replace (Z.to_nat (di + 1)) with (S (Z.to_nat di)) by lia. exact Hdr. }
    zeval. codec_arith.
Qed.

Lemma codec_final (full : list byte) (eb ev : Z) (dst : decoder) :
  codec_inv full eb ev dst [] ->
  exists dst',
    decode_loop dst (encode_tail eb ev []) = Ok dst'
    /\ d_arr dst' = full
    /\ eb <= 5 * strlen (encode_tail eb ev []) < eb + 5.
Proof.
  intros (Heb & Hidx & Hlen & Htake & Hcase).
  rewrite encode_tail_nil.
  pose proof (ToUint32_range ev) as Hev.
  pose proof (ToUint32_range (d_value dst)) as Hdv.
  destruct dst as [db dv di da]. cbn [d_bits d_value d_index d_arr] in *.
  destruct Hcase as [(-> & -> & Hdrop)|(Hpos & -> & p & Hdrop & Hp)].
  - zbool. exists {| d_bits := 0; d_value := dv; d_index := di; d_arr := da |}.
    split; [reflexivity|]. split; [|unfold strlen; simpl; lia].
    cbn [d_arr].
    assert (Hge : (length full <= Z.to_nat di)%nat).
    { apply (f_equal length) in Hdrop. rewrite length_drop in Hdrop.
      simpl in Hdrop. lia. }
    rewrite <- (take_ge da (Z.to_nat di)), <- (take_ge full (Z.to_nat di)) by lia.
    exact Htake.
  - destruct (take_next _ _ _ _ Hdrop) as (Htk & Hdr & Hlt).
    pose proof (byte_to_Z_range p) as Hpr.
    zbool. rewrite js_and_shl_31 by lia.
    rewrite append_alphabet_char by (apply Z.mod_pos_bound; lia).
    cbn [String.append decode_loop].
    rewrite decode_step_symbol by (apply Z.mod_pos_bound; lia).
    cbn [d_bits d_value d_index d_arr bind]. zbool.
    eexists. split; [reflexivity|]. split; [|unfold strlen; simpl; lia].
    cbn [d_arr].
    assert (Hfull : length full = S (Z.to_nat di)).
    { apply (f_equal length) in Hdr. rewrite length_drop in Hdr. simpl in Hdr. lia. }
    transitivity (take (S (Z.to_nat di)) full); [|apply take_ge; lia].
    rewrite <- (take_ge (byte_store _ _ _) (Z.to_nat (di + 1)))
      by (rewrite length_byte_store; lia).
    rewrite take_byte_store by lia.
    rewrite Htk, Htake. do 2 f_equal.
    apply byte_to_Z_inj.
    assert (Hcases : eb = 1 \/ eb = 2 \/ eb = 3 \/ eb = 4) by lia.
    destruct Hcases as [->|[->|[->| ->]]]; zeval;
      repeat first
        [ rewrite byte_to_Z_u8
        | rewrite js_ushr_spec by lia
        | rewrite js_or_shl by (try lia; apply Z.mod_pos_bound; lia) ];
      Z.div_mod_to_equations; lia.
Qed.

Lemma encode_step_bits (eb ev : Z) (b : byte) : 0 <= eb < 5 ->
  0 <= fst (fst (encode_step (eb, ev, EmptyString) b)) < 5.
Proof.
  intros Heb. rewrite (encode_step_symbols eb ev b Heb).
  destruct (Z.ltb_spec eb 2); cbn [fst snd]; lia.
Qed.

(** Decoding what the encoder emits from a matching pair of states
    rebuilds the input, and the text has the length of the bit stream
    rounded up to whole symbols. *)
Lemma codec_run (full : list byte) (rest : list byte) :
  forall (eb ev : Z) (dst : decoder),
    codec_inv full eb ev dst rest ->
    exists dst',
      decode_loop dst (encode_tail eb ev rest) = Ok dst'
      /\ d_arr dst' = full
      /\ 8 * Z.of_nat (length rest) + eb
         <= 5 * strlen (encode_tail eb ev rest)
         < 8 * Z.of_nat (length rest) + eb + 5.
Proof.
  induction rest as [|b rest IH]; intros eb ev dst Hinv.
  - destruct (codec_final full eb ev dst Hinv) as (dst' & Hrun & Harr & Hlen).
    exists dst'. split; [exact Hrun|]. split; [exact Harr|]. simpl length. lia.
  - destruct (codec_step full eb ev dst b rest Hinv) as (dst1 & Hrun1 & Hinv1 & Hlen1).
    destruct (IH _ _ _ Hinv1) as (dst' & Hrun & Harr & Hlen).
    exists dst'. rewrite encode_tail_cons, decode_loop_app, Hrun1. cbn [bind].
    split; [exact Hrun|]. split; [exact Harr|].
    rewrite strlen_app. simpl length. lia.
Qed.



Lemma filter_clean (s : string) :
  string_forallb clean_char s = true ->
  string_filter (fun c => negb (Ascii.eqb c " ")) s = s.
Proof.
  induction s as [|c s IH]; intros H; [reflexivity|].
  simpl in *. apply andb_true_iff in H as [Hc Hs].
  unfold clean_char in Hc. apply andb_true_iff in Hc as [Hc _].
  apply andb_true_iff in Hc as [_ Hc]. rewrite Hc. f_equal. by apply IH.
Qed.

Lemma toUpperCase_clean (s : string) :
  string_forallb clean_char s = true -> toUpperCase s = s.
Proof.
  unfold toUpperCase.
  induction s as [|c s IH]; intros H; [reflexivity|].
  simpl in *. apply andb_true_iff in H as [Hc Hs].
  unfold clean_char in Hc. apply andb_true_iff in Hc as [Hc _].
  apply andb_true_iff in Hc as [Hc _]. apply Ascii.eqb_eq in Hc.
  rewrite Hc. f_equal. by apply IH.
Qed.

Lemma get_clean (s : string) (n : nat) (c : ascii) :
  string_forallb clean_char s = true -> String.get n s = Some c -> clean_char c = true.
Proof.
  revert n. induction s as [|d s IH]; intros n H Hget; [discriminate|].
  simpl in H. apply andb_true_iff in H as [Hd Hs].
  destruct n as [|n]; simpl in Hget; [by injection Hget as <-|].
  by apply (IH n).
Qed.

Lemma str_take_all (s : string) : str_take (String.length s) s = s.
Proof.
  unfold str_take. induction s as [|c s IH]; [reflexivity|].
  simpl. f_equal. exact IH.
Qed.

(** The preparation of [base32Decode] is the identity on a text without
    spaces, lower-case letters and ['=']. *)
Lemma decode_input_clean (s : string) :
  string_forallb clean_char s = true -> decode_input s = s.
Proof.
  intros H. unfold decode_input.
  rewrite (filter_clean s H), (toUpperCase_clean s H).
  assert (Hend : padding_end (String.length s) s (strlen s) = strlen s).
  { destruct (String.length s) as [|n] eqn:E; [reflexivity|].
    simpl. unfold char_at. destruct (strlen s - 1 <? 0); [reflexivity|].
    destruct (String.get _ s) as [c|] eqn:G; [|reflexivity].
    apply (get_clean s _ c H) in G. unfold clean_char in G.
    apply andb_true_iff in G as [_ G]. apply negb_true_iff in G.
    rewrite G. reflexivity. }
  rewrite Hend. unfold strlen. rewrite Nat2Z.id. apply str_take_all.
Qed.




(** The secret of the documentation examples. *)
Example base32_example :
  base32Encode (map u8 [0x48; 0x65; 0x6c; 0x6c; 0x6f; 0x21; 0xde; 0xad; 0xbe; 0xef])
  = "JBSWY3DPEHPK3PXP"
  /\ base32Decode "jbsw y3dp ehpk 3pxp=="
     = Ok (map u8 [0x48; 0x65; 0x6c; 0x6c; 0x6f; 0x21; 0xde; 0xad; 0xbe; 0xef]).
Proof. split; vm_compute; reflexivity. Qed.

(** ** Regular expressions: the derivative matcher decides the language *)

Lemma nullable_lang (r : regex) : nullable r = true <-> lang r EmptyString.
Proof.
  induction r as [| |p|r1 IH1 r2 IH2|r1 IH1 r2 IH2|r IH]; simpl.
  - split; [discriminate | intros H; inversion H].
  - split; [intros _; constructor | reflexivity].
  - split; [discriminate | intros H; inversion H].
  - rewrite andb_true_iff, IH1, IH2. split.
    + intros [H1 H2]. apply (lang_cat r1 r2 "" "" H1 H2).
    + intros H. inversion H as [| |? ? s1 s2 H1 H2 Heq| | | |]; subst.
      destruct s1; [|discriminate]. destruct s2; [|discriminate]. auto.
  - rewrite orb_true_iff, IH1, IH2. split.
    + intros [H|H]; [by apply lang_alt_l | by apply lang_alt_r].
    + intros H. inversion H; subst; auto.
  - split; [intros _; constructor | reflexivity].
Qed.

Lemma deriv_sound (c : ascii) (r : regex) :
  forall s, lang (deriv c r) s -> lang r (String c s).
Proof.
  induction r as [| |p|r1 IH1 r2 IH2|r1 IH1 r2 IH2|r IH]; intros s H; simpl in H.
  - inversion H.
  - inversion H.
  - destruct (p c) eqn:E; inversion H; subst. by constructor.
  - assert (Hcat : forall t, lang (Cat (deriv c r1) r2) t -> lang (Cat r1 r2) (String c t)).
    { intros s0 H0. inversion H0 as [| |? ? s1 s2 H1 H2 Heq| | | |]; subst.
      apply (lang_cat r1 r2 (String c s1) s2); auto. }
    destruct (nullable r1) eqn:E; [|by apply Hcat].
    inversion H as [| | |? ? ? H1|? ? ? H2| |]; subst; [by apply Hcat|].
    apply (lang_cat r1 r2 "" (String c s)); [by apply nullable_lang | auto].
  - inversion H; subst; [apply lang_alt_l | apply lang_alt_r]; auto.
  - inversion H as [| |? ? s1 s2 H1 H2 Heq| | | |]; subst.
    apply (lang_star_cons r (String c s1) s2); auto.
Qed.

Lemma deriv_complete (r : regex) (s0 : string) :
  lang r s0 -> forall c s, s0 = String c s -> lang (deriv c r) s.
Proof.
  induction 1 as [|p d Hp|r1 r2 s1 s2 H1 IH1 H2 IH2|r1 r2 t H IH|r1 r2 t H IH
                  |r|r s1 s2 H1 IH1 H2 IH2]; intros c s Heq; simpl.
  - discriminate.
  - injection Heq as -> <-. rewrite Hp. constructor.
  - destruct s1 as [|d s1].
    + simpl in Heq. subst s2.
      rewrite (proj2 (nullable_lang r1) H1). apply lang_alt_r. by apply IH2.
    + simpl in Heq. injection Heq as -> <-.
      assert (Hc : lang (Cat (deriv c r1) r2) (s1 +:+ s2))
        by (apply lang_cat; [by apply IH1 | assumption]).
      destruct (nullable r1); [by apply lang_alt_l | assumption].
  - apply lang_alt_l. by apply IH.
  - apply lang_alt_r. by apply IH.
  - discriminate.
  - destruct s1 as [|d s1].
    + simpl in Heq. by apply IH2.
    + simpl in Heq. injection Heq as -> <-.
      apply lang_cat; [by apply IH1 | assumption].
Qed.

(** [regex_test] decides membership in the language. *)
Lemma regex_test_lang (r : regex) (s : string) : regex_test r s = true <-> lang r s.
Proof.
  revert r. induction s as [|c s IH]; intros r; simpl.
  - apply nullable_lang.
  - rewrite IH. split; [apply deriv_sound|].
    intros H. by apply (deriv_complete r (String c s) H).
Qed.

Lemma lang_star_chr (p : ascii -> bool) (s : string) :
  lang (Star (Chr p)) s <-> string_forallb p s = true.
Proof.
  split.
  - intros H. remember (Star (Chr p)) as r eqn:Er.
    induction H as [| | | | | |r0 s1 s2 H1 _ H2 IH2]; try discriminate; [reflexivity|].
    injection Er as ->. inversion H1; subst. simpl.
    rewrite H0. by apply IH2.
  - induction s as [|c s IH]; intros H; [constructor|].
    simpl in H. apply andb_true_iff in H as [Hc Hs].
    apply (lang_star_cons (Chr p) (String c "") s); [by constructor | auto].
Qed.

Lemma lang_plus_chr (p : ascii -> bool) (s : string) :
  lang (Plus (Chr p)) s <-> s <> EmptyString /\ string_forallb p s = true.
Proof.
  unfold Plus. split.
  - intros H. inversion H as [| |? ? s1 s2 H1 H2 Heq| | | |]; subst.
    inversion H1; subst. apply lang_star_chr in H2. simpl.
    split; [discriminate|]. by rewrite H3, H2.
  - intros [Hne H]. destruct s as [|c s]; [congruence|].
    simpl in H. apply andb_true_iff in H as [Hc Hs].
    apply (lang_cat (Chr p) (Star (Chr p)) (String c "") s);
      [by constructor | by apply lang_star_chr].
Qed.

Lemma lang_opt_chr (p : ascii -> bool) (s : string) :
  lang (Opt (Chr p)) s <-> s = EmptyString \/ exists c, s = String c "" /\ p c = true.
Proof.
  unfold Opt. split.
  - intros H. inversion H as [| | |? ? ? H1|? ? ? H2| |]; subst.
    + inversion H1; subst. right. eauto.
    + inversion H2. by left.
  - intros [->|(c & -> & Hc)]; [apply lang_alt_r; constructor|].
    apply lang_alt_l. by constructor.
Qed.




(** ** uri.ts: the counter of an hotp URI *)

(** [decodeURIComponent] one character at a time. *)
Lemma decodeURIComponent_cons (c : ascii) (rest : string) :
  decodeURIComponent (String c rest)
  = if Ascii.eqb c "%"
    then decodeURIComponent (String "%" rest)
    else let* r := decodeURIComponent rest in Ok (String c r).
Proof.
  destruct c as [[] [] [] [] [] [] [] []]; reflexivity.
Qed.

Ltac malformed_case :=
  cbn [decodeURIComponent]; unfold malformed; intros [= <-]; reflexivity.

(** The only error of [decodeURIComponent] is the URIError of a
    malformed escape. *)
Lemma decodeURIComponent_error (s : string) (e : error) :
  decodeURIComponent s = Throw e -> e = URIError "URI malformed".
Proof.
  remember (String.length s) as n eqn:Hn.
  revert s Hn e. induction n as [n IH] using lt_wf_ind. intros s Hn e.
  assert (Hrec : forall r : string, (String.length r < n)%nat ->
                   forall k : string -> string,
                     (let* x := decodeURIComponent r in Ok (k x)) = Throw e ->
                     e = URIError "URI malformed").
  { intros r Hr k H. destruct (decodeURIComponent r) as [x|e'] eqn:E; [discriminate|].
    simpl in H. injection H as <-. exact (IH _ Hr r eq_refl e' E). }
  destruct s as [|c s]; [discriminate|].
  rewrite decodeURIComponent_cons.
  destruct (Ascii.eqb_spec c "%") as [->|Hc].
  - destruct s as [|h1 [|h2 rest]]; [malformed_case..|].
    cbn [decodeURIComponent].
    destruct (hex_value h1) as [a|]; [|malformed_case].
    destruct (hex_value h2) as [b|]; [|malformed_case].
    destruct (a * 16 + b <? 128).
    { apply Hrec. subst n. simpl. lia. }
    destruct ((a * 16 + b =? 194) || (a * 16 + b =? 195));
      [|malformed_case].
    destruct rest as [|c3 rest]; [malformed_case|].
    destruct (Ascii.eqb_spec c3 "%") as [->|Hc3].
    2:{ destruct c3 as [[] [] [] [] [] [] [] []];
          first [malformed_case | contradiction]. }
    destruct rest as [|h3 [|h4 rest]]; [malformed_case..|].
    destruct (hex_value h3) as [a'|]; [|malformed_case].
    destruct (hex_value h4) as [b'|]; [|malformed_case].
    destruct ((128 <=? a' * 16 + b') && (a' * 16 + b' <? 192));
      [|malformed_case].
    apply Hrec. subst n. simpl. lia.
  - apply Hrec. subst n. simpl. lia.
Qed.





(** The counter of a URI is read with its sign. *)
Example parse_hotp_signed_counter :
  (let* o := URI.parse no_random
               "otpauth://hotp/ACME:bob?secret=JBSWY3DPEHPK3PXP&counter=-7&issuer=ACME" in
   match o with
   | URI.OTP_HOTP h => Ok (HOTP.issuer h, HOTP.label h, HOTP.counter h)
   | URI.OTP_TOTP _ => Throw (Error "totp")
   end) = Ok ("ACME", "bob", -7).
Proof. vm_compute. reflexivity. Qed.

(** ** Key URIs: splitting and the two encodings *)

Lemma forallb_impl (p q : ascii -> bool) (s : string) :
  (forall c, p c = true -> q c = true) ->
  string_forallb p s = true -> string_forallb q s = true.
Proof.
  intros Hpq. induction s as [|c s IH]; simpl; [reflexivity|].
  intros H. apply andb_true_iff in H as [Hc Hs].
  by rewrite (Hpq c Hc), IH.
Qed.




Lemma split_on_single (c : ascii) (a : string) :
  no_char c a = true -> split_on c a = [a].
Proof.
  unfold no_char. induction a as [|d a IH]; simpl; intros Ha; [reflexivity|].
  apply andb_true_iff in Ha as [Hd Ha].
  rewrite (IH Ha). by destruct (Ascii.eqb d c).
Qed.

Lemma split_on_app (c : ascii) (a b : string) :
  no_char c a = true -> split_on c (a +:+ String c b) = a :: split_on c b.
Proof.
  unfold no_char. induction a as [|d a IH]; simpl; intros Ha.
  - by rewrite Ascii.eqb_refl.
  - apply andb_true_iff in Ha as [Hd Ha].
    change (String.app a (String c b)) with (a +:+ String c b).
    rewrite (IH Ha). by destruct (Ascii.eqb d c).
Qed.


(** *** What the encoders emit *)

Lemma uri_char_percent (c : ascii) (rest : string) :
  string_forallb uri_char rest = true ->
  string_forallb uri_char (percent_utf8 c rest) = true.
Proof.
  intros H. destruct c as [[] [] [] [] [] [] [] []]; exact H.
Qed.

Lemma encodeURIComponent_chars (s : string) :
  string_forallb uri_char (encodeURIComponent s) = true.
Proof.
  induction s as [|c s IH]; [reflexivity|].
  cbn [encodeURIComponent].
  destruct (uri_unreserved c) eqn:E.
  - cbn [string_forallb]. unfold uri_char at 1. by rewrite E, IH.
  - by apply uri_char_percent.
Qed.

Lemma form_char_percent (c : ascii) (rest : string) :
  string_forallb form_char rest = true ->
  string_forallb form_char (percent_utf8 c rest) = true.
Proof.
  intros H. destruct c as [[] [] [] [] [] [] [] []]; exact H.
Qed.

Lemma form_encode_chars (s : string) :
  string_forallb form_char (form_encode s) = true.
Proof.
  induction s as [|c s IH]; [reflexivity|].
  cbn [form_encode].
  destruct (form_unreserved c) eqn:E.
  - cbn [string_forallb]. unfold form_char at 1. by rewrite E, IH.
  - destruct (Ascii.eqb c " "); [exact IH | by apply form_char_percent].
Qed.



(** *** Decoding what was encoded *)










(** ** Key URIs: the pattern and the parameter block *)




Lemma params_toString_cons (k v : string) (l : URLSearchParams) :
  params_toString ((k, v) :: l)
  = (form_encode k +:+ "=" +:+ form_encode v)
    +:+ match l with
        | [] => EmptyString
        | _ :: _ => String "&" (params_toString l)
        end.
Proof.
  destruct l as [|kv l]; cbn [params_toString].
  - by rewrite str_app_nil_r.
  - by rewrite !str_app_assoc.
Qed.











(** *** The key-URI pattern *)



(** ** Key URIs: numbers, secrets and labels *)





Lemma POSITIVE_INTEGER_REGEX_accepts (v : string) :
  positive_integer v -> regex_test URI.POSITIVE_INTEGER_REGEX v = true.
Proof.
  intros (sign & c & ds & -> & Hsign & Hc & Hnz & Hds).
  apply regex_test_lang. unfold URI.POSITIVE_INTEGER_REGEX.
  apply lang_cat.
  - apply lang_opt_chr. destruct Hsign as [->| ->]; [by left|].
    right. eexists. split; reflexivity.
  - apply (lang_cat _ _ (String c EmptyString) ds); [|by apply lang_star_chr].
    constructor. rewrite Hc.
    destruct (Ascii.eqb_spec c "0"); [contradiction|reflexivity].
Qed.




(** *** The base32 text of a secret *)

Lemma encode_tail_forall (p : ascii -> bool) :
  (forall s, 0 <= s < 32 -> p (alphabet_char s) = true) ->
  forall (rest : list byte) (eb ev : Z), 0 <= eb < 5 ->
    string_forallb p (encode_tail eb ev rest) = true.
Proof.
  intros Hp. induction rest as [|b rest IH]; intros eb ev Heb.
  - rewrite encode_tail_nil. destruct (0 <? eb); [|reflexivity].
    rewrite js_and_shl_31 by lia.
    rewrite append_alphabet_char by (apply Z.mod_pos_bound; lia).
    simpl. rewrite Hp by (apply Z.mod_pos_bound; lia). reflexivity.
  - rewrite encode_tail_cons, forallb_app.
    rewrite IH by (apply encode_step_bits; exact Heb).
    rewrite (encode_step_symbols eb ev b Heb).
    destruct (eb <? 2); cbn [fst snd string_forallb];
      rewrite ?Hp by apply symbol_range; reflexivity.
Qed.






(** ** Key URIs: what [URI.parse] reads from a written URI *)

Lemma HOTP_toString_key_uri (h : HOTP.t) :
  HOTP.toString h
  = key_uri "hotp" (HOTP.issuer h) (HOTP.label h) (HOTP.issuerInLabel h)
      (HOTP.secret h) (HOTP.algorithm h) (HOTP.digits h) "counter" (HOTP.counter h).
Proof.
  unfold HOTP.toString, key_uri, key_uri_params, label_text.
  by destruct (0 <? strlen (HOTP.issuer h)).
Qed.

Lemma TOTP_toString_key_uri (t : TOTP.t) :
  TOTP.toString t
  = key_uri "totp" (TOTP.issuer t) (TOTP.label t) (TOTP.issuerInLabel t)
      (TOTP.secret t) (TOTP.algorithm t) (TOTP.digits t) "period" (TOTP.period t).
Proof.
  unfold TOTP.toString, key_uri, key_uri_params, label_text.
  by destruct (0 <? strlen (TOTP.issuer t)).
Qed.







(** ** Key URIs: the round trip *)

Lemma upper_char_idem (c : ascii) : upper_char (upper_char c) = upper_char c.
Proof. destruct c as [[] [] [] [] [] [] [] []]; reflexivity. Qed.

Lemma toUpperCase_idem (s : string) : toUpperCase (toUpperCase s) = toUpperCase s.
Proof.
  unfold toUpperCase. induction s as [|c s IH]; [reflexivity|].
  simpl. by rewrite upper_char_idem, IH.
Qed.

Lemma canonicalizeAlgorithm_canonical (name : string) :
  In name HashAlgorithm -> canonicalizeAlgorithm name = Ok name.
Proof.
  unfold HashAlgorithm. simpl In.
  intros [<-|[<-|[<-|[<-|[<-|[<-|[<-|[<-|[<-|[]]]]]]]]]]; vm_compute; reflexivity.
Qed.







(** The written URI of the documentation, read back. *)
Example stringify_acme :
  URI.stringify (URI.OTP_TOTP acme_config)
  = "otpauth://totp/ACME:alice%40example.com?secret=GEZDGNBVGY3TQOJQGEZDGNBVGY3TQOJQ&algorithm=SHA256&digits=8&period=30&issuer=ACME"
  /\ URI.parse no_random (URI.stringify (URI.OTP_TOTP acme_config))
     = Ok (URI.OTP_TOTP acme_config).
Proof. split; vm_compute; reflexivity. Qed.

(** A space in the issuer is written as ['+'] by the parameter
    serializer and read back as a ['+']. *)
Example issuer_space_read_back :
  URI.parse no_random
    (URI.stringify
       (URI.OTP_TOTP
          {| TOTP.issuer := "My App"; TOTP.label := "bob"; TOTP.issuerInLabel := false;
             TOTP.secret := rfc_secret; TOTP.algorithm := "SHA1";
             TOTP.digits := 6; TOTP.period := 30 |}))
  = Ok (URI.OTP_TOTP
          {| TOTP.issuer := "My+App"; TOTP.label := "bob"; TOTP.issuerInLabel := false;
             TOTP.secret := rfc_secret; TOTP.algorithm := "SHA1";
             TOTP.digits := 6; TOTP.period := 30 |}).
Proof. vm_compute. reflexivity. Qed.

(** * Part III: further properties of the code *)

(** ** secret.ts: [bytesToHex] *)

Lemma HEX_LUT_nibble (d : Z) : 0 <= d < 16 ->
  HEX_LUT !! Z.to_nat d = Some (String "0" (String (hex_char d) EmptyString)).
Proof.
  intros Hd. rewrite <- (Z2Nat.id d) at 2 by lia.
  assert (Hn : (Z.to_nat d < 16)%nat) by lia.
  generalize dependent (Z.to_nat d). intros n Hn.
  do 16 (destruct n as [|n]; [vm_compute; reflexivity|]).
  lia.
Qed.

Lemma byte_nibbles (b : byte) :
  js_ushr (byte_to_Z b) 4 = byte_to_Z b / 16
  /\ js_and (byte_to_Z b) 15 = byte_to_Z b mod 16
  /\ 0 <= byte_to_Z b / 16 < 16
  /\ 0 <= byte_to_Z b mod 16 < 16.
Proof.
  pose proof (byte_to_Z_range b) as Hb.
  split; [|split; [apply js_and_15|]].
  - rewrite js_ushr_spec by lia. unfold ToUint32.
    rewrite Z.mod_small by lia. reflexivity.
  - split; [|apply Z.mod_pos_bound; lia].
    split; [apply Z.div_pos; lia | apply Z.div_lt_upper_bound; lia].
Qed.

(** The two entries the loop assigns for a byte. *)
Lemma hex_step_fill (bytes : list byte) (k m : nat) (pre : list (option string))
    (b : byte) :
  bytes !! k = Some b -> length pre = (k * 2)%nat ->
  hex_step bytes (pre ++ replicate (2 + m) None) k
  = pre ++ [Some (String "0" (String (hex_char (byte_to_Z b / 16)) EmptyString));
            Some (String "0" (String (hex_char (byte_to_Z b mod 16)) EmptyString))]
        ++ replicate m None.
Proof.
  intros Hb Hpre. unfold hex_step.
  rewrite (byte_at_lookup bytes k b Hb).
  destruct (byte_nibbles b) as (-> & -> & Hhi & Hlo).
  rewrite !HEX_LUT_nibble by assumption.
  rewrite !insert_app_r_alt by (rewrite ?length_insert, ?length_app; lia).
  rewrite Hpre. replace (k * 2 - k * 2)%nat with 0%nat by lia.
  replace (k * 2 + 1 - k * 2)%nat with 1%nat by lia.
  reflexivity.
Qed.

Lemma hex_fold (bytes : list byte) (k : nat) :
  (k <= length bytes)%nat ->
  foldl (hex_step bytes) (replicate (length bytes * 2) None) (seq 0 k)
  = concat (map (fun b =>
                   [Some (String "0" (String (hex_char (byte_to_Z b / 16)) EmptyString));
                    Some (String "0" (String (hex_char (byte_to_Z b mod 16)) EmptyString))])
              (take k bytes))
    ++ replicate ((length bytes - k) * 2) None.
Proof.
  induction k as [|k IH]; intros Hk.
  - simpl. by rewrite Nat.sub_0_r.
  - rewrite seq_S, foldl_app, IH by lia. cbn [foldl Nat.add].
    destruct (lookup_lt_is_Some_2 bytes k ltac:(lia)) as [b Hb].
    rewrite (take_S_r bytes k b Hb), map_app, concat_app.
    replace ((length bytes - k) * 2)%nat with (2 + (length bytes - S k) * 2)%nat by lia.
    rewrite (hex_step_fill bytes k _ _ b Hb).
    + cbn [List.map map concat app]. by rewrite <- !app_assoc.
    + assert (Hlen : length (take k bytes) = k)
        by (rewrite length_take; lia).
      clear IH Hb Hk. revert Hlen. generalize (take k bytes). intros l <-.
      induction l as [|x l IHl]; [reflexivity|].
      cbn [List.map map concat length app]. rewrite IHl. lia.
Qed.

Lemma join_hex_groups (l : list byte) :
  join_empty
    (concat (map (fun b =>
                    [Some (String "0" (String (hex_char (byte_to_Z b / 16)) EmptyString));
                     Some (String "0" (String (hex_char (byte_to_Z b mod 16)) EmptyString))])
               l))
  = string_concat (map hex_group l).
Proof.
  induction l as [|b l IH]; [reflexivity|].
  cbn [List.map map concat app join_empty foldr string_concat default from_option id].
  unfold join_empty in IH. rewrite IH. reflexivity.
Qed.

(** X1.  [bytesToHex] writes four characters for every byte: a ["0"],
    the hexadecimal digit of the high nibble, a ["0"] and the digit of
    the low nibble (each nibble is looked up in the table of two-digit
    numerals), so the text is four times as long as the array. *)
Theorem bytesToHex_groups (bytes : list byte) :
  bytesToHex bytes = string_concat (map hex_group bytes)
  /\ strlen (bytesToHex bytes) = 4 * Z.of_nat (length bytes).
Proof.
  assert (H : bytesToHex bytes = string_concat (map hex_group bytes)).
  { unfold bytesToHex. rewrite (hex_fold bytes (length bytes)) by lia.
    rewrite Nat.sub_diag, firstn_all. cbn [Nat.mul replicate].
    rewrite app_nil_r. apply join_hex_groups. }
  split; [exact H|]. rewrite H. clear H.
  induction bytes as [|b bytes IH]; [reflexivity|].
  cbn [List.map map string_concat foldr]. rewrite strlen_app.
  unfold string_concat in IH. rewrite IH.
  cbn [length]. unfold hex_group, strlen. cbn [String.length]. lia.
Qed.

(** What the [hex] getter gives for the bytes [ab 01 ff 00]. *)
Example hex_example :
  hex {| bytes := map u8 [0xab; 0x01; 0xff; 0x00] |} = "0a0b00010f0f0000".
Proof. vm_compute. reflexivity. Qed.

(** ** secret.ts: the shape of a base32 text and what the decoder accepts *)

Lemma in_alphabet_char (s : Z) : 0 <= s < 32 -> in_alphabet (alphabet_char s) = true.
Proof.
  intros Hs. destruct (alphabet_facts s Hs) as (_ & Hidx & _).
  unfold in_alphabet. rewrite Hidx.
  destruct (Z.eqb_spec s (-1)); [lia | reflexivity].
Qed.

(** X2.  [base32Encode] emits [ceil (8 * n / 5)] characters for [n]
    bytes, every one a symbol of the alphabet: no padding is written. *)
Theorem base32Encode_shape (arr : list byte) :
  strlen (base32Encode arr) = (8 * Z.of_nat (length arr) + 4) / 5
  /\ string_forallb in_alphabet (base32Encode arr) = true.
Proof.
  rewrite base32Encode_tail. split.
  - assert (Hinv : codec_inv arr 0 0
              {| d_bits := 0; d_value := 0; d_index := 0;
                 d_arr := zeros (length arr) |} arr).
    { unfold codec_inv. cbn [d_bits d_value d_index d_arr].
      split; [lia|]. split; [lia|]. split; [apply length_zeros|].
      split; [reflexivity|]. left. auto. }
    destruct (codec_run arr arr 0 0 _ Hinv) as (dst & _ & _ & Hlen).
    apply (Z.div_unique _ _ _
             (8 * Z.of_nat (length arr) + 4 - 5 * strlen (encode_tail 0 0 arr))); lia.
  - apply encode_tail_forall; [apply in_alphabet_char | lia].
Qed.

Lemma decode_step_in_alphabet (st : decoder) (c : ascii) :
  in_alphabet c = true -> exists st', decode_step st c = Ok st'.
Proof.
  unfold in_alphabet, decode_step. intros H.
  destruct (indexOf ALPHABET c =? -1); [discriminate|].
  destruct (8 <=? d_bits st + 5); eauto.
Qed.

Lemma decode_step_outside (st : decoder) (c : ascii) :
  in_alphabet c = false ->
  decode_step st c
  = Throw (TypeError ("Carácter inválido encontrado: " +:+ String c EmptyString)).
Proof.
  unfold in_alphabet, decode_step. intros H.
  destruct (indexOf ALPHABET c =? -1); [reflexivity | discriminate].
Qed.

Lemma decode_loop_outcome (s : string) :
  forall st : decoder,
    match first_invalid s with
    | None => exists st', decode_loop st s = Ok st'
    | Some c =>
        decode_loop st s
        = Throw (TypeError ("Carácter inválido encontrado: " +:+ String c EmptyString))
    end.
Proof.
  induction s as [|c s IH]; intros st; cbn [first_invalid decode_loop]; [eauto|].
  destruct (in_alphabet c) eqn:E.
  - destruct (decode_step_in_alphabet st c E) as [st' ->]. cbn [bind]. apply IH.
  - by rewrite (decode_step_outside st c E).
Qed.

(** X3.  [base32Decode] succeeds exactly when every character left
    after the spaces are removed, the text is upper-cased and the
    trailing ['='] are cut is a symbol of the alphabet; otherwise it
    throws the TypeError that names the first character that is not. *)
Theorem base32Decode_outcome (str : string) :
  ascii_only str = true ->
  (first_invalid (decode_input str) = None ->
   exists out, base32Decode str = Ok out)
  /\ (forall c, first_invalid (decode_input str) = Some c ->
      base32Decode str
      = Throw (TypeError ("Carácter inválido encontrado: " +:+ String c EmptyString))).
Proof.
  intros _. unfold base32Decode.
  set (st := {| d_bits := 0; d_value := 0; d_index := 0;
                d_arr := zeros (Z.to_nat (js_or (strlen (decode_input str) * 5 / 8) 0)) |}).
  pose proof (decode_loop_outcome (decode_input str) st) as H.
  split.
  - intros Hnone. rewrite Hnone in H. destruct H as [st' ->]. cbn [bind]. eauto.
  - intros c Hc. rewrite Hc in H. by rewrite H.
Qed.

Lemma base32Decode_outcome_witness :
  ascii_only "jbsw y3dp-ehpk" = true
  /\ first_invalid (decode_input "jbsw y3dp-ehpk") = Some "-"%char
  /\ base32Decode "jbsw y3dp-ehpk"
     = Throw (TypeError "Carácter inválido encontrado: -").
Proof.
  assert (H1 : ascii_only "jbsw y3dp-ehpk" = true) by (vm_compute; reflexivity).
  assert (H2 : first_invalid (decode_input "jbsw y3dp-ehpk") = Some "-"%char)
    by (vm_compute; reflexivity).
  split; [exact H1|]. split; [exact H2|].
  exact (proj2 (base32Decode_outcome "jbsw y3dp-ehpk" H1) "-"%char H2).
Defined.

(** *** Case, spaces and padding *)

Lemma case_char_facts (c : ascii) :
  upper_char (lower_char c) = upper_char c
  /\ Ascii.eqb (lower_char c) " " = Ascii.eqb c " ".
Proof. destruct c as [[] [] [] [] [] [] [] []]; split; reflexivity. Qed.

Lemma decode_input_lower (s : string) :
  decode_input (toLowerCase s) = decode_input s.
Proof.
  unfold decode_input.
  assert (H : toUpperCase (string_filter (fun c => negb (Ascii.eqb c " ")) (toLowerCase s))
              = toUpperCase (string_filter (fun c => negb (Ascii.eqb c " ")) s)).
  { unfold toUpperCase, toLowerCase. induction s as [|c s IH]; [reflexivity|].
    cbn [string_map string_filter].
    destruct (case_char_facts c) as [Hup ->].
    destruct (Ascii.eqb c " "); cbn [negb]; [exact IH|].
    cbn [string_map]. by rewrite Hup, IH. }
  by rewrite H.
Qed.

Lemma filter_app (p : ascii -> bool) (a b : string) :
  string_filter p (a +:+ b) = string_filter p a +:+ string_filter p b.
Proof.
  induction a as [|c a IH]; [reflexivity|].
  cbn [String.append string_filter].
  change (String.app a b) with (a +:+ b). rewrite IH.
  by destruct (p c).
Qed.

Lemma map_app_string (f : ascii -> ascii) (a b : string) :
  string_map f (a +:+ b) = string_map f a +:+ string_map f b.
Proof.
  induction a as [|c a IH]; [reflexivity|].
  cbn [String.append string_map].
  change (String.app a b) with (a +:+ b). by rewrite IH.
Qed.

Lemma char_at_app_l (t u : string) (i : Z) :
  i < strlen t -> char_at (t +:+ u) i = char_at t i.
Proof.
  unfold char_at, strlen. intros Hi.
  destruct (Z.ltb_spec i 0); [reflexivity|].
  assert (Hn : (Z.to_nat i < String.length t)%nat) by lia.
  clear Hi. revert Hn. generalize (Z.to_nat i). clear i H.
  induction t as [|c t IH]; intros n Hn; [simpl in Hn; lia|].
  destruct n as [|n]; [reflexivity|].
  cbn [String.append String.get]. apply IH. simpl in Hn. lia.
Qed.

Lemma char_at_app_end (t : string) (c : ascii) (u : string) :
  char_at (t +:+ String c u) (strlen t) = Some c.
Proof.
  unfold char_at, strlen.
  destruct (Z.ltb_spec (Z.of_nat (String.length t)) 0) as [|_]; [lia|].
  rewrite Nat2Z.id. induction t as [|d t IH]; [reflexivity|]. exact IH.
Qed.

Lemma padding_end_le (fuel : nat) (t : string) (e : Z) :
  padding_end fuel t e <= e.
Proof.
  revert e. induction fuel as [|fuel IH]; intros e; cbn [padding_end]; [lia|].
  destruct (char_at t (e - 1)) as [c|]; [|lia].
  destruct (Ascii.eqb c "="); [|lia]. specialize (IH (e - 1)). lia.
Qed.

Lemma padding_end_app (fuel : nat) (t u : string) (e : Z) :
  e <= strlen t -> padding_end fuel (t +:+ u) e = padding_end fuel t e.
Proof.
  revert e. induction fuel as [|fuel IH]; intros e He; cbn [padding_end]; [reflexivity|].
  rewrite char_at_app_l by lia.
  destruct (char_at t (e - 1)) as [c|]; [|reflexivity].
  destruct (Ascii.eqb c "="); [|reflexivity]. apply IH. lia.
Qed.

Lemma str_take_app (k : nat) (t u : string) :
  (k <= String.length t)%nat -> str_take k (t +:+ u) = str_take k t.
Proof.
  unfold str_take. revert k. induction t as [|c t IH]; intros k Hk.
  - simpl in Hk. replace k with 0%nat by lia. by destruct u.
  - destruct k as [|k]; [reflexivity|].
    cbn [String.append String.substring]. f_equal. apply IH. simpl in Hk. lia.
Qed.

Lemma decode_input_padding (s : string) :
  decode_input (s +:+ "=") = decode_input s.
Proof.
  unfold decode_input, toUpperCase.
  rewrite filter_app, map_app_string.
  set (t := string_map upper_char (string_filter (fun c => negb (Ascii.eqb c " ")) s)).
  change (string_map upper_char (string_filter (fun c => negb (Ascii.eqb c " ")) "="))
    with "=".
  assert (Hlen : String.length (t +:+ "=") = S (String.length t)).
  { pose proof (strlen_app t "=") as H. unfold strlen in H. simpl in H. lia. }
  assert (Hend : padding_end (String.length (t +:+ "=")) (t +:+ "=") (strlen (t +:+ "="))
                 = padding_end (String.length t) t (strlen t)).
  { rewrite Hlen. cbn [padding_end].
    rewrite strlen_app. change (strlen "=") with 1.
    replace (strlen t + 1 - 1) with (strlen t) by lia.
    rewrite char_at_app_end. cbn [Ascii.eqb Bool.eqb].
    apply padding_end_app. lia. }
  rewrite Hend. apply str_take_app.
  pose proof (padding_end_le (String.length t) t (strlen t)). unfold strlen in *. lia.
Qed.

Lemma decode_input_space (a b : string) :
  decode_input (a +:+ " " +:+ b) = decode_input (a +:+ b).
Proof.
  unfold decode_input. rewrite !filter_app. reflexivity.
Qed.

(** X4.  [base32Decode] reads a text the same in lower case, with one
    more ['='] at its end, and with a space inside. *)
Theorem base32Decode_lenient (a b : string) :
  ascii_only a = true -> ascii_only b = true ->
  base32Decode (toLowerCase a) = base32Decode a
  /\ base32Decode (a +:+ "=") = base32Decode a
  /\ base32Decode (a +:+ " " +:+ b) = base32Decode (a +:+ b).
Proof.
  intros _ _. unfold base32Decode.
  rewrite decode_input_lower, decode_input_padding, decode_input_space.
  repeat split.
Qed.

Lemma base32Decode_lenient_witness :
  ascii_only "JBSWY3DP" = true /\ ascii_only "EHPK3PXP" = true
  /\ base32Decode "jbswy3dp" = base32Decode "JBSWY3DP"
  /\ base32Decode "JBSWY3DP=" = base32Decode "JBSWY3DP"
  /\ base32Decode "JBSWY3DP EHPK3PXP" = base32Decode "JBSWY3DPEHPK3PXP".
Proof.
  assert (H1 : ascii_only "JBSWY3DP" = true) by (vm_compute; reflexivity).
  assert (H2 : ascii_only "EHPK3PXP" = true) by (vm_compute; reflexivity).
  split; [exact H1|]. split; [exact H2|].
  exact (base32Decode_lenient "JBSWY3DP" "EHPK3PXP" H1 H2).
Defined.

(** ** hmac.ts: keys of other lengths than the block *)

Section HmacKeys.

Variable engine : HashEngine.

Lemma padded_key (blockSize : nat) (k : list byte) :
  (length k <= blockSize)%nat ->
  (if (length k <? blockSize)%nat then typed_set (zeros blockSize) k 0 else k)
  = k ++ zeros (blockSize - length k).
Proof.
  intros Hk. destruct (Nat.ltb_spec (length k) blockSize).
  - apply typed_set_zeros_prefix. lia.
  - replace (blockSize - length k)%nat with 0%nat by lia.
    simpl. by rewrite app_nil_r.
Qed.

(** [hmacDigest] with a key that fits the block: what is hashed depends
    on the key only through its zero-padded form. *)
Lemma hmacDigest_short (algorithm : string) (key key' message : list byte) :
  (length key <= block_size algorithm)%nat ->
  (length key' <= block_size algorithm)%nat ->
  key ++ zeros (block_size algorithm - length key)
  = key' ++ zeros (block_size algorithm - length key') ->
  hmacDigest engine algorithm key message = hmacDigest engine algorithm key' message.
Proof.
  intros Hk Hk' Heq. unfold hmacDigest.
  destruct (getHashFunction engine algorithm) as [hash|e]; cbn [bind]; [|reflexivity].
  fold (block_size algorithm).
  rewrite (proj2 (Nat.ltb_ge _ _) Hk), (proj2 (Nat.ltb_ge _ _) Hk'). cbn [bind].
  cbv zeta. by rewrite (padded_key _ key Hk), (padded_key _ key' Hk'), Heq.
Qed.

(** X5.  Zero bytes at the end of a key that fits the block do not
    change the HMAC, whatever the algorithm name: the key is padded
    with zeros to the block size anyway.  Hence two secrets that differ
    only in such zero bytes generate the same HOTP tokens. *)
Theorem hmac_trailing_zeros (algorithm : string) (key message : list byte) (k : nat)
    (digits counter : Z) :
  (length key + k <= block_size algorithm)%nat ->
  hmacDigest engine algorithm (key ++ zeros k) message
  = hmacDigest engine algorithm key message
  /\ HOTP.generate engine {| bytes := key ++ zeros k |} algorithm digits counter
     = HOTP.generate engine {| bytes := key |} algorithm digits counter.
Proof.
  intros Hk.
  assert (H : forall m, hmacDigest engine algorithm (key ++ zeros k) m
                        = hmacDigest engine algorithm key m).
  { intros m. apply hmacDigest_short.
    - rewrite length_app, length_zeros. lia.
    - lia.
    - rewrite length_app, length_zeros, <- app_assoc. f_equal.
      unfold zeros. rewrite <- replicate_add. f_equal. lia. }
  split; [apply H|]. unfold HOTP.generate. cbn [bytes]. by rewrite H.
Qed.

(** X6.  A key longer than the block is first replaced by its hash:
    when that digest fits the block the HMAC is that of the digest used
    as the key, and when the hash fails its error is the outcome. *)
Theorem hmac_long_key (algorithm : string) (key message : list byte)
    (hash : list byte -> result (list byte)) :
  getHashFunction engine algorithm = Ok hash ->
  (block_size algorithm < length key)%nat ->
  (forall d, hash key = Ok d -> (length d <= block_size algorithm)%nat ->
     hmacDigest engine algorithm key message = hmacDigest engine algorithm d message)
  /\ (forall e, hash key = Throw e ->
        hmacDigest engine algorithm key message = Throw e).
Proof.
  intros Hhash Hlong. unfold hmacDigest. rewrite Hhash. cbn [bind].
  fold (block_size algorithm).
  rewrite (proj2 (Nat.ltb_lt _ _) Hlong).
  split.
  - intros d Hd Hfit. rewrite Hd. cbn [bind].
    by rewrite (proj2 (Nat.ltb_ge _ _) Hfit).
  - intros e He. by rewrite He.
Qed.

End HmacKeys.

Lemma hmac_trailing_zeros_witness :
  (length (ascii_bytes "key") + 2 <= block_size "SHA1")%nat
  /\ hmacDigest sha1_platform "SHA1" (ascii_bytes "key" ++ zeros 2) (ascii_bytes "message")
     = hmacDigest sha1_platform "SHA1" (ascii_bytes "key") (ascii_bytes "message").
Proof.
  assert (H : (length (ascii_bytes "key") + 2 <= block_size "SHA1")%nat)
    by (vm_compute; lia).
  split; [exact H|].
  exact (proj1 (hmac_trailing_zeros sha1_platform "SHA1" (ascii_bytes "key") (ascii_bytes "message")
                  2 6 0 H)).
Defined.

Lemma hmac_long_key_witness :
  getHashFunction sha1_platform "SHA1" = Ok SHA1.hash
  /\ (block_size "SHA1" < length (zeros 65))%nat
  /\ exists d,
       SHA1.hash (zeros 65) = Ok d
       /\ hmacDigest sha1_platform "SHA1" (zeros 65) (ascii_bytes "message")
          = hmacDigest sha1_platform "SHA1" d (ascii_bytes "message").
Proof.
  assert (H1 : getHashFunction sha1_platform "SHA1" = Ok SHA1.hash) by reflexivity.
  assert (H2 : (block_size "SHA1" < length (zeros 65))%nat) by (vm_compute; lia).
  split; [exact H1|]. split; [exact H2|].
  exists (SHA1.digest (zeros 65)). split; [reflexivity|].
  apply (proj1 (hmac_long_key sha1_platform "SHA1" (zeros 65) (ascii_bytes "message")
                  SHA1.hash H1 H2)); [reflexivity|].
  rewrite sha1_digest_length. vm_compute. lia.
Defined.

(** ** hotp.ts: comparison, counters and tokens *)

(** X7.  [timingSafeEqual] throws its TypeError exactly when the two
    strings differ in length; on strings of one length it answers
    whether they are equal. *)
Theorem timingSafeEqual_outcome (a b : string) :
  (strlen a <> strlen b ->
   timingSafeEqual a b
   = Throw (TypeError "Las cadenas de entrada deben tener la misma longitud"))
  /\ (strlen a = strlen b -> timingSafeEqual a b = Ok (bool_decide (a = b))).
Proof.
  split.
  - intros Hne. unfold timingSafeEqual.
    by rewrite (proj2 (Z.eqb_neq _ _) Hne).
  - apply timingSafeEqual_spec.
Qed.

Lemma uintDecode_bytes (num : Z) :
  uintDecode num = map (fun j => u8 (num / 256 ^ (7 - Z.of_nat j))) (seq 0 8).
Proof.
  apply list_eq. intros j. destruct (decide (j < 8)%nat) as [Hj|Hj].
  - rewrite uintDecode_lookup by assumption.
    rewrite list_lookup_fmap, lookup_seq_lt by assumption. reflexivity.
  - rewrite lookup_ge_None_2 by (rewrite length_uintDecode; lia).
    rewrite list_lookup_fmap, lookup_seq_ge by lia. reflexivity.
Qed.

Lemma u8_congr (x y : Z) : x mod 256 = y mod 256 -> u8 x = u8 y.
Proof. intros H. unfold u8. by rewrite H. Qed.

(** X8.  [uintDecode] gives two numbers the same eight bytes exactly
    when they are congruent modulo [2^64]: the counters of one HMAC
    message are [2^64] apart. *)
Theorem uintDecode_congruence (a b : Z) :
  uintDecode a = uintDecode b <-> a mod 2 ^ 64 = b mod 2 ^ 64.
Proof.
  split.
  - intros H.
    destruct (uintDecode_big_endian a) as [_ <-].
    destruct (uintDecode_big_endian b) as [_ <-]. by rewrite H.
  - intros H. rewrite !uintDecode_bytes.
    apply map_ext_in. intros j Hj. apply in_seq in Hj.
    apply u8_congr.
    assert (Hm : exists m, 0 <= m <= 7 /\ 7 - Z.of_nat j = m)
      by (exists (7 - Z.of_nat j); lia).
    destruct Hm as (m & Hm & ->).
    assert (Hcases : m = 0 \/ m = 1 \/ m = 2 \/ m = 3 \/ m = 4 \/ m = 5 \/ m = 6 \/ m = 7)
      by lia.
    destruct Hcases as [->|[->|[->|[->|[->|[->|[->| ->]]]]]]];
      Z.div_mod_to_equations; lia.
Qed.

Section HotpTokens.

Variable engine : HashEngine.

(** X9.  For every number of digits from 1 on, a generated token has
    exactly that many characters, all decimal digits, and its value is
    below [2^31] as well as below [10^digits]: past ten digits only
    zeros are added in front. *)
Theorem generate_token_value (secret : Secret) (algorithm : string)
    (digits counter : Z) (token : string) :
  1 <= digits ->
  HOTP.generate engine secret algorithm digits counter = Ok token ->
  strlen token = digits
  /\ string_forallb is_digit token = true
  /\ exists v, parseInt token = Some v /\ 0 <= v < 2 ^ 31 /\ v < 10 ^ digits.
Proof.
  intros Hd Hgen.
  assert (Hgen' := Hgen). unfold HOTP.generate in Hgen'.
  apply bind_inv in Hgen' as (digest & Hdig & _).
  rewrite (generate_eq engine secret algorithm digits counter digest) in Hgen
    by (try lia; exact Hdig).
  injection Hgen as <-.
  assert (Hpow : 0 < 10 ^ digits) by (apply Z.pow_pos_nonneg; lia).
  pose proof (Z.mod_pos_bound (truncate_value digest) (10 ^ digits) Hpow) as Hmod.
  destruct (padded_numeral (truncate_value digest mod 10 ^ digits) digits Hd Hmod)
    as (Hlen & Hall & Hval).
  split; [exact Hlen|]. split; [exact Hall|].
  exists (truncate_value digest mod 10 ^ digits).
  split; [exact Hval|].
  pose proof (truncate_range digest) as Hr. rewrite truncate_spec in Hr.
  fold (truncate_value digest) in Hr.
  pose proof (Z.mod_le (truncate_value digest) (10 ^ digits) ltac:(lia) Hpow).
  lia.
Qed.

(** X10.  An algorithm name other than sha1, sha256 and sha512 (in any
    letter case) makes [HOTP.generate] throw before anything is hashed,
    and that includes the names SHA224, SHA384 and SHA3-* that the TOTP
    constructor accepts: an instance constructed with one of them
    throws on every [generate]. *)
Theorem generate_unsupported_algorithm (secret : Secret) (algorithm : string)
    (digits counter : Z) :
  (toLowerCase algorithm <> "sha1" ->
   toLowerCase algorithm <> "sha256" ->
   toLowerCase algorithm <> "sha512" ->
   HOTP.generate engine secret algorithm digits counter
   = Throw (Error ("Unsupported algorithm: " +:+ algorithm)))
  /\ (forall (random : RandomSource) (o : TOTP.options) (t : TOTP.t) (timestamp : Z),
        TOTP.new random o = Ok t ->
        TOTP.algorithm t <> "SHA1" ->
        TOTP.algorithm t <> "SHA256" ->
        TOTP.algorithm t <> "SHA512" ->
        TOTP.generate_inst engine t timestamp
        = Throw (Error ("Unsupported algorithm: " +:+ TOTP.algorithm t))).
Proof.
  assert (H : forall a d c,
            toLowerCase a <> "sha1" -> toLowerCase a <> "sha256" ->
            toLowerCase a <> "sha512" ->
            HOTP.generate engine secret a d c
            = Throw (Error ("Unsupported algorithm: " +:+ a))).
  { intros a d c H1 H2 H3. unfold HOTP.generate.
    by rewrite (hmacDigest_unsupported engine a _ _ H1 H2 H3). }
  split; [apply H|].
  intros random o t timestamp Hnew N1 N2 N3.
  pose proof (TOTP_new_algorithm random o t Hnew) as Hin.
  unfold TOTP.generate_inst, TOTP.generate, HOTP.generate.
  rewrite hmacDigest_unsupported; [reflexivity| | |];
    unfold HashAlgorithm in Hin; simpl In in Hin;
    destruct Hin as [E|[E|[E|[E|[E|[E|[E|[E|[E|[]]]]]]]]]];
    rewrite <- E in *; try congruence; vm_compute; discriminate.
Qed.


End HotpTokens.

(** ** hotp.ts and totp.ts: what a validation answers *)


Section Validation.

Variable engine : HashEngine.



(** The loop of [HOTP.validate] fails only where a generation fails. *)
Lemma validate_loop_error (token : string) (secret : Secret) (algorithm : string)
    (digits counter window : Z) (e : error) (fuel : nat) :
  1 <= digits -> strlen token = digits ->
  forall (i : Z) (delta : option Z),
    HOTP.validate_loop engine fuel token secret algorithm digits counter window i delta
    = Throw e ->
    exists j,
      i <= j <= counter + window
      /\ HOTP.generate engine secret algorithm digits j = Throw e
      /\ forall k, i <= k < j ->
           exists t, HOTP.generate engine secret algorithm digits k = Ok t.
Proof.
  intros Hd Hlen. induction fuel as [|fuel IH]; intros i delta H; [discriminate|].
  cbn [HOTP.validate_loop] in H.
  destruct (Z.leb_spec i (counter + window)) as [Hi|]; [|discriminate].
  destruct (HOTP.generate engine secret algorithm digits i) as [t|e'] eqn:Egen.
  - cbn [bind] in H.
    rewrite timingSafeEqual_spec in H
      by (rewrite (generate_length engine secret algorithm digits i t Hd Egen);
          exact Hlen).
    cbn [bind] in H. apply IH in H as (j & Hj & Hthrow & Hbefore).
    exists j. split; [lia|]. split; [exact Hthrow|].
    intros k Hk. destruct (Z.eq_dec k i) as [->|]; [eauto|]. apply Hbefore. lia.
  - cbn [bind] in H. injection H as ->.
    exists i. split; [lia|]. split; [exact Egen|]. intros k Hk. lia.
Qed.

(** X13.  [HOTP.validate] (for [digits] from 1 on) throws only what a
    generation throws: the error is that of the first counter of the
    window whose generation fails, and the comparison of the tokens
    never throws. *)
Theorem validate_error (token : string) (secret : Secret) (algorithm : string)
    (digits counter window : Z) (e : error) :
  1 <= digits ->
  HOTP.validate engine token secret algorithm digits counter window = Throw e ->
  exists j,
    counter - window <= j <= counter + window
    /\ HOTP.generate engine secret algorithm digits j = Throw e
    /\ forall k, counter - window <= k < j ->
         exists t, HOTP.generate engine secret algorithm digits k = Ok t.
Proof.
  intros Hd H. unfold HOTP.validate in H.
  destruct (Z.eqb_spec (strlen token) digits) as [Hlen|]; [|discriminate].
  cbn [negb] in H.
  exact (validate_loop_error token secret algorithm digits counter window e _
           Hd Hlen _ _ H).
Qed.

(** *** totp.ts: time steps *)





End Validation.





Lemma validate_error_witness :
  1 <= 6
  /\ HOTP.validate sha1_platform "123456" rfc_secret "SHA256" 6 0 1
     = Throw (Error "SHA-256 implementation not available")
  /\ exists j,
       0 - 1 <= j <= 0 + 1
       /\ HOTP.generate sha1_platform rfc_secret "SHA256" 6 j
          = Throw (Error "SHA-256 implementation not available").
Proof.
  assert (H : HOTP.validate sha1_platform "123456" rfc_secret "SHA256" 6 0 1
              = Throw (Error "SHA-256 implementation not available"))
    by (vm_compute; reflexivity).
  split; [lia|]. split; [exact H|].
  destruct (validate_error sha1_platform "123456" rfc_secret "SHA256" 6 0 1 _
              ltac:(lia) H) as (j & Hj & Hthrow & _).
  exists j. split; [exact Hj | exact Hthrow].
Defined.

Lemma generate_token_value_witness :
  1 <= 6
  /\ HOTP.generate sha1_platform rfc_secret "SHA1" 6 0 = Ok "755224"
  /\ strlen "755224" = 6.
Proof.
  assert (H : HOTP.generate sha1_platform rfc_secret "SHA1" 6 0 = Ok "755224")
    by (vm_compute; reflexivity).
  split; [lia|]. split; [exact H|].
  exact (proj1 (generate_token_value sha1_platform rfc_secret "SHA1" 6 0 "755224"
                  ltac:(lia) H)).
Defined.

(** ** totp.ts: canonical names *)

Lemma toUpperCase_toLowerCase (s : string) :
  toUpperCase (toLowerCase s) = toUpperCase s.
Proof.
  unfold toUpperCase, toLowerCase. induction s as [|c s IH]; [reflexivity|].
  cbn [string_map]. destruct (case_char_facts c) as [-> _]. by rewrite IH.
Qed.

(** [canonicalizeAlgorithm] reads its argument through [toUpperCase]
    alone, the text of the error apart. *)
Lemma canonicalizeAlgorithm_upper (a b name : string) :
  toUpperCase a = toUpperCase b ->
  canonicalizeAlgorithm a = Ok name -> canonicalizeAlgorithm b = Ok name.
Proof.
  unfold canonicalizeAlgorithm. intros <-.
  repeat match goal with
         | |- context [if ?c then _ else _] => destruct c
         end; first [discriminate | auto].
Qed.

(** X17.  A name [canonicalizeAlgorithm] accepts is mapped to one of
    the nine names of [HashAlgorithm], which it maps to itself; the
    letter case of the argument does not matter. *)
Theorem canonicalizeAlgorithm_stable (a name : string) :
  ascii_only a = true ->
  canonicalizeAlgorithm a = Ok name ->
  In name HashAlgorithm
  /\ canonicalizeAlgorithm name = Ok name
  /\ canonicalizeAlgorithm (toLowerCase a) = Ok name
  /\ canonicalizeAlgorithm (toUpperCase a) = Ok name.
Proof.
  intros _ H.
  pose proof (canonicalizeAlgorithm_Ok a name H) as Hin.
  split; [exact Hin|]. split; [by apply canonicalizeAlgorithm_canonical|].
  split.
  - apply (canonicalizeAlgorithm_upper a); [|exact H].
    symmetry. apply toUpperCase_toLowerCase.
  - apply (canonicalizeAlgorithm_upper a); [|exact H].
    symmetry. apply toUpperCase_idem.
Qed.

Lemma canonicalizeAlgorithm_stable_witness :
  ascii_only "Sha-256" = true
  /\ canonicalizeAlgorithm "Sha-256" = Ok "SHA256"
  /\ canonicalizeAlgorithm "SHA256" = Ok "SHA256"
  /\ canonicalizeAlgorithm (toLowerCase "Sha-256") = Ok "SHA256".
Proof.
  assert (H1 : ascii_only "Sha-256" = true) by (vm_compute; reflexivity).
  assert (H2 : canonicalizeAlgorithm "Sha-256" = Ok "SHA256") by (vm_compute; reflexivity).
  split; [exact H1|]. split; [exact H2|].
  destruct (canonicalizeAlgorithm_stable "Sha-256" "SHA256" H1 H2) as (_ & H3 & H4 & _).
  split; [exact H3 | exact H4].
Defined.

(** ** hmac.ts: [xorArrays] *)

Lemma xor_fold_lookup (a b : list byte) (n k : nat) (i : nat) :
  (k <= n)%nat ->
  foldl (fun result j =>
           <[j := u8 (js_xor (byte_at a (Z.of_nat j)) (byte_at b (Z.of_nat j)))]> result)
        (zeros n) (seq 0 k) !! i
  = if decide (i < k)%nat
    then Some (u8 (js_xor (byte_at a (Z.of_nat i)) (byte_at b (Z.of_nat i))))
    else zeros n !! i.
Proof.
  induction k as [|k IH]; intros Hk.
  - cbn [seq foldl]. destruct (decide (i < 0)%nat); [lia | reflexivity].
  - rewrite seq_S, foldl_app. cbn [foldl Nat.add].
    assert (Hlen : forall l : list nat,
              length (foldl (fun result j =>
                               <[j := u8 (js_xor (byte_at a (Z.of_nat j))
                                                 (byte_at b (Z.of_nat j)))]> result)
                            (zeros n) l) = n).
    { intros l. generalize (zeros n) (length_zeros n). revert n Hk IH.
      induction l as [|j l IHl]; intros n Hk IH z Hz; [exact Hz|].
      cbn [foldl]. apply (IHl n Hk IH). by rewrite length_insert. }
    destruct (decide (i = k)) as [->|Hne].
    + rewrite list_lookup_insert_eq by (rewrite Hlen; lia).
      destruct (decide (k < S k)%nat); [reflexivity | lia].
    + rewrite list_lookup_insert_ne by congruence.
      rewrite IH by lia.
      destruct (decide (i < k)%nat), (decide (i < S k)%nat); try lia; reflexivity.
Qed.

(** X18.  [xorArrays] returns as many bytes as the shorter argument
    has, each the exclusive or of the two bytes at its index; applied
    again with the same second argument it gives the first bytes of the
    first argument back. *)
Theorem xorArrays_spec (a b : list byte) :
  length (xorArrays a b) = Nat.min (length a) (length b)
  /\ (forall i x y, a !! i = Some x -> b !! i = Some y ->
        xorArrays a b !! i = Some (u8 (Z.lxor (byte_to_Z x) (byte_to_Z y))))
  /\ xorArrays (xorArrays a b) b = take (Nat.min (length a) (length b)) a.
Proof.
  assert (Hlookup : forall (u v : list byte) i x y,
            u !! i = Some x -> v !! i = Some y ->
            xorArrays u v !! i = Some (u8 (Z.lxor (byte_to_Z x) (byte_to_Z y)))).
  { intros u v i x y Hx Hy. unfold xorArrays.
    rewrite xor_fold_lookup by lia.
    pose proof (lookup_lt_Some _ _ _ Hx). pose proof (lookup_lt_Some _ _ _ Hy).
    destruct (decide (i < Nat.min (length u) (length v))%nat); [|lia].
    rewrite (byte_at_lookup u i x Hx), (byte_at_lookup v i y Hy).
    pose proof (byte_to_Z_range x). pose proof (byte_to_Z_range y).
    by rewrite js_xor_small by lia. }
  assert (Hlength : forall u v : list byte,
            length (xorArrays u v) = Nat.min (length u) (length v)).
  { intros u v. unfold xorArrays.
    generalize (seq 0 (Nat.min (length u) (length v))).
    generalize (length_zeros (Nat.min (length u) (length v))).
    generalize (zeros (Nat.min (length u) (length v))).
    intros z Hz l. revert z Hz. induction l as [|j l IH]; intros z Hz; [exact Hz|].
    cbn [foldl]. apply IH. by rewrite length_insert. }
  split; [apply Hlength|]. split; [apply Hlookup|].
  apply list_eq. intros i.
  destruct (decide (i < Nat.min (length a) (length b))%nat) as [Hi|Hi].
  - destruct (lookup_lt_is_Some_2 a i ltac:(lia)) as [x Hx].
    destruct (lookup_lt_is_Some_2 b i ltac:(lia)) as [y Hy].
    rewrite (Hlookup (xorArrays a b) b i _ y (Hlookup a b i x y Hx Hy) Hy).
    rewrite lookup_take_lt by lia. rewrite Hx. f_equal.
    pose proof (byte_to_Z_range x) as Rx. pose proof (byte_to_Z_range y) as Ry.
    rewrite byte_to_Z_u8.
    rewrite Z.mod_small by (apply (lxor_range 8); lia).
    rewrite Z.lxor_assoc, Z.lxor_nilpotent, Z.lxor_0_r.
    apply u8_byte_to_Z.
  - rewrite lookup_ge_None_2 by (rewrite !Hlength; lia).
    rewrite lookup_take_ge by lia. reflexivity.
Qed.

(** ** uri.ts: the errors of [URI.parse] *)

Lemma lang_cat_inv (r1 r2 : regex) (s : string) :
  lang (Cat r1 r2) s -> exists s1 s2, s = s1 +:+ s2 /\ lang r1 s1 /\ lang r2 s2.
Proof.
  intros H. inversion H as [| |? ? s1 s2 H1 H2 Heq| | | |]; subst. eauto.
Qed.

Lemma lang_chr_inv (p : ascii -> bool) (s : string) :
  lang (Chr p) s -> exists c, s = String c EmptyString /\ p c = true.
Proof.
  intros H. inversion H as [|q c Hc| | | | |]; subst. eauto.
Qed.

Lemma lang_Lit_i (lit s : string) :
  lang (Lit_i lit) s -> toLowerCase s = toLowerCase lit.
Proof.
  revert s. induction lit as [|c lit IH]; intros s H; cbn [Lit_i] in H.
  - inversion H. reflexivity.
  - apply lang_cat_inv in H as (s1 & s2 & -> & H1 & H2).
    apply lang_chr_inv in H1 as (d & -> & Hd).
    apply Ascii.eqb_eq in Hd.
    unfold toLowerCase in *. cbn [String.append string_map].
    by rewrite Hd, (IH _ H2).
Qed.

Lemma length_toLowerCase (s : string) :
  String.length (toLowerCase s) = String.length s.
Proof.
  unfold toLowerCase. induction s as [|c s IH]; [reflexivity|].
  cbn [string_map String.length]. by rewrite IH.
Qed.

Lemma substring_middle (a b c : string) :
  String.substring (String.length a) (String.length b) (a +:+ b +:+ c) = b.
Proof.
  induction a as [|x a IH]; cbn [String.length String.append].
  - induction b as [|y b IHb]; cbn [String.length String.append String.substring].
    + by destruct c.
    + f_equal. exact IHb.
  - exact IH.
Qed.

(** The type group of a matching URI is [hotp] or [totp] in some
    letter case. *)
Lemma match_OTPURI_type (uri uriType rawLabel rawParams : string) :
  URI.match_OTPURI uri = Some (uriType, rawLabel, rawParams) ->
  toLowerCase uriType = "hotp" \/ toLowerCase uriType = "totp".
Proof.
  unfold URI.match_OTPURI.
  destruct (regex_test URI.OTPURI_REGEX uri) eqn:E; [|discriminate].
  destruct (split_last "?" (str_drop 15 uri)) as [[l p]|]; [|discriminate].
  intros [= <- _ _].
  apply regex_test_lang in E. unfold URI.OTPURI_REGEX in E.
  apply lang_cat_inv in E as (s1 & rest1 & Huri & H1 & Hrest1).
  apply lang_cat_inv in Hrest1 as (s2 & rest2 & -> & H2 & _). subst uri.
  pose proof (lang_Lit_i _ _ H1) as Hs1.
  apply (f_equal String.length) in Hs1. rewrite !length_toLowerCase in Hs1.
  unfold URI.type_re in H2.
  apply lang_cat_inv in H2 as (s3 & s4 & -> & H3 & H4).
  apply lang_chr_inv in H3 as (c & -> & Hc).
  pose proof (lang_Lit_i _ _ H4) as Hs4.
  assert (Hlen4 : String.length s4 = 3%nat).
  { apply (f_equal String.length) in Hs4. by rewrite !length_toLowerCase in Hs4. }
  change (String c "" +:+ s4) with (String c s4).
  change 10%nat with (String.length "otpauth://"). rewrite <- Hs1.
  change 4%nat with (S 3). rewrite <- Hlen4.
  change (S (String.length s4)) with (String.length (String c s4)).
  rewrite substring_middle.
  unfold toLowerCase in *. cbn [string_map]. rewrite Hs4.
  change (string_map lower_char "otp") with "otp".
  unfold chr_in in Hc. cbn [string_forallb] in Hc.
  destruct (Ascii.eqb_spec (lower_char c) "h") as [->|];
    [by left|].
  destruct (Ascii.eqb_spec (lower_char c) "t") as [->|];
    [by right | discriminate].
Qed.

Lemma add_param_error (r : result (gmap string string)) (cur : string) (e : error) :
  URI.add_param r cur = Throw e -> r = Throw e \/ e = URIError "URI malformed".
Proof.
  unfold URI.add_param. destruct r as [acc|e']; cbn [bind]; [|intros [= ->]; by left].
  destruct (decodeURIComponent (URI.split_key_value cur).1) as [key|e1] eqn:E1;
    cbn [bind].
  - destruct (URI.split_key_value cur).2 as [v|]; [|discriminate].
    destruct (decodeURIComponent v) as [value|e2] eqn:E2; cbn [bind]; [discriminate|].
    intros [= <-]. right. by apply decodeURIComponent_error in E2.
  - intros [= <-]. right. by apply decodeURIComponent_error in E1.
Qed.

Lemma parse_params_error (rawParams : string) (e : error) :
  URI.parse_params rawParams = Throw e -> e = URIError "URI malformed".
Proof.
  unfold URI.parse_params.
  assert (H : forall l r, foldl URI.add_param r l = Throw e ->
                          r = Throw e \/ e = URIError "URI malformed").
  { induction l as [|cur l IH]; intros r Hr; [by left|].
    cbn [foldl] in Hr. apply IH in Hr as [Hr|Hr]; [|by right].
    by apply add_param_error in Hr. }
  intros Hthrow. by apply H in Hthrow as [?|?].
Qed.

(** *** A [secret] parameter the pattern accepts always decodes *)

Lemma secret_char_facts (c : ascii) :
  is_upper c || is_lower c || chr_in "234567" c = true ->
  negb (Ascii.eqb c " ") = true
  /\ clean_char (upper_char c) = true
  /\ in_alphabet (upper_char c) = true.
Proof.
  destruct c as [[] [] [] [] [] [] [] []]; vm_compute; intros H;
    first [discriminate H | repeat split].
Qed.

Lemma forallb_map (p : ascii -> bool) (f : ascii -> ascii) (s : string) :
  string_forallb p (string_map f s) = string_forallb (fun c => p (f c)) s.
Proof.
  induction s as [|c s IH]; [reflexivity|].
  cbn [string_map string_forallb]. by rewrite IH.
Qed.

Lemma first_invalid_None (s : string) :
  string_forallb in_alphabet s = true -> first_invalid s = None.
Proof.
  induction s as [|c s IH]; [reflexivity|].
  cbn [string_forallb first_invalid]. intros H.
  apply andb_true_iff in H as [-> Hs]. by apply IH.
Qed.

Lemma decode_input_pads (s pads : string) :
  string_forallb (chr_is "=") pads = true ->
  decode_input (s +:+ pads) = decode_input s.
Proof.
  revert s. induction pads as [|c pads IH]; intros s H.
  - by rewrite str_app_nil_r.
  - cbn [string_forallb] in H. apply andb_true_iff in H as [Hc Hp].
    apply Ascii.eqb_eq in Hc. subst c.
    change (s +:+ String "=" pads) with (s +:+ ("=" +:+ pads)).
    rewrite <- str_app_assoc, (IH _ Hp). apply decode_input_padding.
Qed.

Lemma decode_input_symbols (s : string) :
  string_forallb (fun c => is_upper c || is_lower c || chr_in "234567" c) s = true ->
  decode_input s = toUpperCase s
  /\ string_forallb in_alphabet (toUpperCase s) = true.
Proof.
  intros Hs.
  assert (Hclean : string_forallb clean_char (toUpperCase s) = true).
  { unfold toUpperCase. rewrite forallb_map. revert Hs. apply forallb_impl.
    intros c Hc. apply (secret_char_facts c Hc). }
  split.
  - rewrite <- (decode_input_clean _ Hclean).
    unfold decode_input.
    assert (Hf : string_filter (fun c => negb (Ascii.eqb c " ")) s = s).
    { clear Hclean. induction s as [|c s IH]; [reflexivity|].
      cbn [string_forallb string_filter] in *.
      apply andb_true_iff in Hs as [Hc Hs].
      destruct (secret_char_facts c Hc) as (-> & _). by rewrite (IH Hs). }
    by rewrite Hf, (filter_clean _ Hclean), toUpperCase_idem.
  - unfold toUpperCase. rewrite forallb_map. revert Hs. apply forallb_impl.
    intros c Hc. apply (secret_char_facts c Hc).
Qed.

Lemma SECRET_REGEX_decodes (v : string) :
  regex_test URI.SECRET_REGEX v = true -> exists b, base32Decode v = Ok b.
Proof.
  intros H. apply regex_test_lang in H. unfold URI.SECRET_REGEX in H.
  apply lang_cat_inv in H as (s1 & s2 & -> & H1 & H2).
  apply lang_plus_chr in H1 as [_ H1]. apply lang_star_chr in H2.
  destruct (decode_input_symbols s1 H1) as [Hin Hall].
  unfold base32Decode. rewrite (decode_input_pads s1 s2 H2), Hin.
  pose proof (decode_loop_outcome (toUpperCase s1)
                {| d_bits := 0; d_value := 0; d_index := 0;
                   d_arr := zeros (Z.to_nat (js_or (strlen (toUpperCase s1) * 5 / 8) 0)) |})
    as Hrun.
  rewrite (first_invalid_None _ Hall) in Hrun. destruct Hrun as [st ->].
  cbn [bind]. eauto.
Qed.

(** X19.  [URI.parse] throws one of seven errors and nothing else: the
    URIError of a URI outside the pattern or of a malformed escape, the
    TypeError of [counter], [period], [secret] or [digits], or the
    TypeError of an unknown algorithm name.  It never throws the
    "unknown OTP type" error (the pattern admits only the two types),
    the invalid-character error of the base32 decoder (the pattern of
    [secret] admits only what decodes) or the error of a missing random
    source (the secret is always given). *)
Theorem parse_errors (random : RandomSource) (uri : string) (e : error) :
  URI.parse random uri = Throw e ->
  e = URIError "Formato de URI inválido"
  \/ e = URIError "URI malformed"
  \/ e = TypeError "Parámetro 'counter' faltante o inválido"
  \/ e = TypeError "Parámetro 'period' inválido"
  \/ e = TypeError "Parámetro 'secret' faltante o inválido"
  \/ e = TypeError "Parámetro 'digits' inválido"
  \/ exists a, e = TypeError ("Algoritmo de hash desconocido: " +:+ a).
Proof.
  unfold URI.parse.
  destruct (URI.match_OTPURI uri) as [[[uriType rawLabel] rawParams]|] eqn:Ematch;
    [|intros [= <-]; auto].
  pose proof (match_OTPURI_type _ _ _ _ Ematch) as Htype.
  destruct (URI.parse_params rawParams) as [uriParams|e1] eqn:Eparams; cbn [bind].
  2:{ intros [= <-]. apply parse_params_error in Eparams. auto. }
  destruct (URI.parse_kind uriType uriParams) as [kind|e2] eqn:Ekind; cbn [bind].
  2:{ intros [= <-]. unfold URI.parse_kind in Ekind.
      destruct Htype as [Ht|Ht]; rewrite Ht in Ekind; cbn in Ekind.
      - destruct (uriParams !! "counter") as [v|]; [|injection Ekind as <-; auto 10].
        destruct (regex_test URI.INTEGER_REGEX v); [discriminate|].
        injection Ekind as <-. auto 10.
      - destruct (uriParams !! "period") as [v|]; [|discriminate].
        destruct (regex_test URI.POSITIVE_INTEGER_REGEX v); [discriminate|].
        injection Ekind as <-. auto 10. }
  destruct (decodeURIComponent rawLabel) as [decodedLabel|e3] eqn:Elabel; cbn [bind].
  2:{ intros [= <-]. apply decodeURIComponent_error in Elabel. auto. }
  destruct (URI.parse_label decodedLabel uriParams) as [[label issuer] issuerInLabel].
  destruct (URI.parse_secret uriParams) as [secret|e4] eqn:Esecret; cbn [bind].
  2:{ intros [= <-]. unfold URI.parse_secret in Esecret.
      destruct (uriParams !! "secret") as [v|]; [|injection Esecret as <-; auto 10].
      destruct (regex_test URI.SECRET_REGEX v) eqn:Ev; [|injection Esecret as <-; auto 10].
      destruct (SECRET_REGEX_decodes v Ev) as [b Hb]. rewrite Hb in Esecret.
      discriminate. }
  destruct (URI.parse_digits_param uriParams) as [digits|e5] eqn:Edigits; cbn [bind].
  2:{ intros [= <-]. unfold URI.parse_digits_param in Edigits.
      destruct (uriParams !! "digits") as [v|]; [|discriminate].
      destruct (regex_test URI.POSITIVE_INTEGER_REGEX v); [discriminate|].
      injection Edigits as <-. auto 10. }
  destruct kind as [counter|period].
  - unfold HOTP.new. cbn. discriminate.
  - unfold TOTP.new. cbn [resolve_secret TOTP.o_secret bind TOTP.o_algorithm].
    destruct (canonicalizeAlgorithm _) as [name|e6] eqn:Ealg; cbn [bind]; [discriminate|].
    intros [= <-].
    destruct (canonicalizeAlgorithm_spec
                (default TOTP.default_algorithm (uriParams !! "algorithm")))
      as [(name & Hname & _)|Hthrow]; [congruence|].
    rewrite Hthrow in Ealg. injection Ealg as <-. do 6 right. eauto.
Qed.

Lemma parse_errors_witness :
  URI.parse no_random "otpauth://totp/X?secret=JBSWY3DPEHPK3PXP&algorithm=md5"
  = Throw (TypeError "Algoritmo de hash desconocido: md5")
  /\ exists a, TypeError "Algoritmo de hash desconocido: md5"
               = TypeError ("Algoritmo de hash desconocido: " +:+ a).
Proof.
  assert (H : URI.parse no_random "otpauth://totp/X?secret=JBSWY3DPEHPK3PXP&algorithm=md5"
              = Throw (TypeError "Algoritmo de hash desconocido: md5"))
    by (vm_compute; reflexivity).
  split; [exact H|].
  destruct (parse_errors no_random _ _ H) as [H1|[H1|[H1|[H1|[H1|[H1|H1]]]]]];
    first [discriminate H1 | exact H1].
Defined.

(** ** uri.ts: the period of a totp URI and what a parsed configuration holds *)

Lemma POSITIVE_INTEGER_REGEX_spec (v : string) :
  regex_test URI.POSITIVE_INTEGER_REGEX v = true <-> positive_integer v.
Proof.
  split; [|apply POSITIVE_INTEGER_REGEX_accepts].
  intros H. apply regex_test_lang in H. unfold URI.POSITIVE_INTEGER_REGEX in H.
  apply lang_cat_inv in H as (sign & rest & -> & Hsign & Hrest).
  apply lang_cat_inv in Hrest as (s1 & ds & -> & Hc & Hds).
  apply lang_chr_inv in Hc as (c & -> & Hc).
  apply lang_star_chr in Hds. apply lang_opt_chr in Hsign.
  apply andb_true_iff in Hc as [Hdigit Hnz].
  exists sign, c, ds. split; [reflexivity|]. split.
  - destruct Hsign as [->|(d & -> & Hd)]; [by left|].
    right. unfold chr_is in Hd. apply Ascii.eqb_eq in Hd. by subst.
  - split; [exact Hdigit|]. split; [|exact Hds].
    intros ->. discriminate.
Qed.

Lemma parse_digits_ge (s : string) (a : Z) :
  0 <= a -> exists m, parse_digits s (Some a) = Some m /\ a <= m.
Proof.
  revert a. induction s as [|c s IH]; intros a Ha; cbn [parse_digits].
  - exists a. split; [reflexivity | lia].
  - destruct (is_digit c) eqn:E; [|exists a; split; [reflexivity | lia]].
    unfold is_digit in E. apply andb_true_iff in E as [E1 E2].
    apply Z.leb_le in E1, E2. cbn [default from_option id].
    destruct (IH (10 * a + (charCode c - 48)) ltac:(lia)) as (m & Hm & Hle).
    exists m. split; [exact Hm | lia].
Qed.

(** [parseInt] reads a positive integer as a number from 1 on. *)
Lemma parseInt_positive (v : string) :
  positive_integer v -> exists n, parseInt v = Some n /\ 1 <= n.
Proof.
  intros (sign & c & ds & -> & Hsign & Hc & Hnz & Hds).
  assert (Hval : exists n, parse_digits (String c ds) None = Some n /\ 1 <= n).
  { cbn [parse_digits]. rewrite Hc. cbn [default from_option id].
    assert (Hcode : 49 <= charCode c).
    { unfold is_digit in Hc. apply andb_true_iff in Hc as [E1 _].
      apply Z.leb_le in E1.
      destruct (Z.eq_dec (charCode c) 48) as [E|]; [|lia].
      exfalso. apply Hnz. apply charCode_inj. exact E. }
    destruct (parse_digits_ge ds (10 * 0 + (charCode c - 48)) ltac:(lia))
      as (m & Hm & Hle).
    exists m. split; [exact Hm | lia]. }
  destruct Hval as (n & Hn & Hpos). exists n. split; [|exact Hpos].
  destruct Hsign as [->| ->].
  - cbn [String.append]. by rewrite (parseInt_digits c ds Hc).
  - unfold parseInt. cbn [String.append trim_start].
    change (is_white_space "+") with false. cbv iota. exact Hn.
Qed.



(** ** uri.ts: what a parsed configuration holds, and the label *)

(** X21.  Every configuration [URI.parse] returns has at least one
    digit; an HOTP one has an upper-cased algorithm name, a TOTP one a
    name of [HashAlgorithm] and a period of at least 1. *)
Theorem parse_result_invariants (random : RandomSource) (uri : string) (o : URI.otp) :
  URI.parse random uri = Ok o ->
  1 <= otp_digits o
  /\ match o with
     | URI.OTP_HOTP h => toUpperCase (HOTP.algorithm h) = HOTP.algorithm h
     | URI.OTP_TOTP t => In (TOTP.algorithm t) HashAlgorithm /\ 1 <= TOTP.period t
     end.
Proof.
  unfold URI.parse.
  destruct (URI.match_OTPURI uri) as [[[uriType rawLabel] rawParams]|]; [|discriminate].
  destruct (URI.parse_params rawParams) as [uriParams|?]; cbn [bind]; [|discriminate].
  destruct (URI.parse_kind uriType uriParams) as [kind|?] eqn:Ekind; cbn [bind];
    [|discriminate].
  destruct (decodeURIComponent rawLabel) as [decodedLabel|?]; cbn [bind]; [|discriminate].
  destruct (URI.parse_label decodedLabel uriParams) as [[label issuer] flag].
  destruct (URI.parse_secret uriParams) as [secret|?]; cbn [bind]; [|discriminate].
  destruct (URI.parse_digits_param uriParams) as [digits|?] eqn:Edigits; cbn [bind];
    [|discriminate].
  assert (Hdigits : 1 <= default 6 digits).
  { unfold URI.parse_digits_param in Edigits.
    destruct (uriParams !! "digits") as [v|]; [|injection Edigits as <-; cbn; lia].
    destruct (regex_test URI.POSITIVE_INTEGER_REGEX v) eqn:E; [|discriminate].
    injection Edigits as <-. apply POSITIVE_INTEGER_REGEX_spec in E.
    destruct (parseInt_positive v E) as (n & Hn & Hpos).
    unfold URI.parseInt_checked. rewrite Hn. exact Hpos. }
  destruct kind as [counter|period].
  - unfold HOTP.new. cbn [resolve_secret HOTP.o_secret bind]. intros [= <-].
    cbn [otp_digits HOTP.digits HOTP.algorithm HOTP.o_digits HOTP.o_algorithm].
    split; [exact Hdigits | apply toUpperCase_idem].
  - unfold TOTP.new. cbn [resolve_secret TOTP.o_secret bind TOTP.o_algorithm].
    destruct (canonicalizeAlgorithm _) as [name|?] eqn:Ealg; cbn [bind]; [|discriminate].
    intros [= <-].
    cbn [otp_digits TOTP.digits TOTP.algorithm TOTP.period TOTP.o_digits TOTP.o_period].
    split; [exact Hdigits|]. split; [exact (canonicalizeAlgorithm_Ok _ _ Ealg)|].
    unfold URI.parse_kind in Ekind.
    destruct (String.eqb (toLowerCase uriType) "hotp").
    { destruct (uriParams !! "counter") as [v|]; [|discriminate].
      destruct (regex_test URI.INTEGER_REGEX v); discriminate. }
    destruct (String.eqb (toLowerCase uriType) "totp"); [|discriminate].
    destruct (uriParams !! "period") as [v|].
    + destruct (regex_test URI.POSITIVE_INTEGER_REGEX v) eqn:E; [|discriminate].
      injection Ekind as <-. apply POSITIVE_INTEGER_REGEX_spec in E.
      destruct (parseInt_positive v E) as (n & Hn & Hpos).
      unfold URI.parseInt_checked. rewrite Hn. exact Hpos.
    + injection Ekind as <-. cbn. unfold TOTP.default_period. lia.
Qed.

Lemma parse_result_invariants_witness :
  URI.parse no_random "otpauth://totp/X?secret=JBSWY3DPEHPK3PXP&algorithm=sha-512"
  = Ok (URI.OTP_TOTP
          {| TOTP.issuer := EmptyString; TOTP.label := "X"; TOTP.issuerInLabel := true;
             TOTP.secret := {| bytes := map u8 [0x48; 0x65; 0x6c; 0x6c; 0x6f; 0x21;
                                                0xde; 0xad; 0xbe; 0xef] |};
             TOTP.algorithm := "SHA512"; TOTP.digits := 6; TOTP.period := 30 |})
  /\ 1 <= 6 /\ In "SHA512" HashAlgorithm /\ 1 <= 30.
Proof.
  assert (H : URI.parse no_random
                "otpauth://totp/X?secret=JBSWY3DPEHPK3PXP&algorithm=sha-512"
              = Ok (URI.OTP_TOTP
                      {| TOTP.issuer := EmptyString; TOTP.label := "X";
                         TOTP.issuerInLabel := true;
                         TOTP.secret := {| bytes := map u8 [0x48; 0x65; 0x6c; 0x6c; 0x6f;
                                                            0x21; 0xde; 0xad; 0xbe; 0xef] |};
                         TOTP.algorithm := "SHA512"; TOTP.digits := 6;
                         TOTP.period := 30 |}))
    by (vm_compute; reflexivity).
  split; [exact H|].
  destruct (parse_result_invariants no_random _ _ H) as (H1 & H2 & H3).
  split; [exact H1|]. split; [exact H2 | exact H3].
Defined.

Lemma split_on_cons (c : ascii) (s : string) :
  exists h t, split_on c s = h :: t.
Proof.
  induction s as [|d s (h & t & IH)]; cbn [split_on]; [eauto|].
  destruct (Ascii.eqb d c); [eauto|]. rewrite IH. eauto.
Qed.

Lemma truthy_idem (o : option string) : URI.truthy (URI.truthy o) = URI.truthy o.
Proof. destruct o as [[|c s]|]; reflexivity. Qed.

(** X22.  The label of a URI, once decoded: without a colon it is the
    label, trimmed, and the issuer is the [issuer] parameter; with one
    colon the text after it, trimmed, is the label and the issuer is
    the [issuer] parameter when there is a non-empty one, else the
    trimmed text before the colon; with two colons or more the label is
    the trimmed text before the first colon, the rest is dropped, and
    the issuer is the parameter alone. *)
Theorem parse_label_colons (a b rest : string) (m : gmap string string) :
  no_char ":" a = true -> no_char ":" b = true ->
  URI.parse_label a m
  = (Some (trim a), URI.truthy (m !! "issuer"),
     match URI.truthy (m !! "issuer") with Some _ => Some false | None => None end)
  /\ URI.parse_label (a +:+ ":" +:+ b) m
     = (Some (trim b),
        match URI.truthy (m !! "issuer") with
        | Some i => Some i
        | None => Some (trim a)
        end, None)
  /\ URI.parse_label (a +:+ ":" +:+ b +:+ ":" +:+ rest) m
     = (Some (trim a), URI.truthy (m !! "issuer"),
        match URI.truthy (m !! "issuer") with Some _ => Some false | None => None end).
Proof.
  intros Ha Hb. unfold URI.parse_label. rewrite !truthy_idem.
  split; [|split].
  - by rewrite (split_on_single ":" a Ha).
  - change (a +:+ ":" +:+ b) with (a +:+ String ":" b).
    by rewrite (split_on_app ":" a b Ha), (split_on_single ":" b Hb).
  - change (a +:+ ":" +:+ b +:+ ":" +:+ rest)
      with (a +:+ String ":" (b +:+ String ":" rest)).
    rewrite (split_on_app ":" a _ Ha), (split_on_app ":" b rest Hb).
    destruct (split_on_cons ":" rest) as (h & t & ->). reflexivity.
Qed.

Lemma parse_label_colons_witness :
  no_char ":" "ACME" = true /\ no_char ":" " bob " = true
  /\ URI.parse_label "ACME: bob :x:y" ∅ = (Some "ACME", None, None).
Proof.
  assert (H1 : no_char ":" "ACME" = true) by reflexivity.
  assert (H2 : no_char ":" " bob " = true) by reflexivity.
  split; [exact H1|]. split; [exact H2|].
  exact (proj2 (proj2 (parse_label_colons "ACME" " bob " "x:y" ∅ H1 H2))).
Defined.

(** ** hotp.ts, totp.ts and uri.ts: the text of a key URI *)

Lemma uri_text_char_facts (c : ascii) :
  (uri_char c = true -> uri_text_char c = true)
  /\ (form_char c = true -> uri_text_char c = true).
Proof.
  destruct c as [[] [] [] [] [] [] [] []]; vm_compute; split; intros H;
    first [discriminate H | reflexivity].
Qed.

Lemma params_toString_chars (l : URLSearchParams) :
  string_forallb uri_text_char (params_toString l) = true.
Proof.
  assert (Hf : forall s, string_forallb uri_text_char (form_encode s) = true).
  { intros s. generalize (form_encode_chars s). apply forallb_impl.
    intros c. apply (uri_text_char_facts c). }
  induction l as [|[k v] l IH]; [reflexivity|].
  rewrite params_toString_cons, !forallb_app, !Hf.
  destruct l; [reflexivity|]. cbn [string_forallb]. rewrite IH. reflexivity.
Qed.

Lemma key_uri_chars (kind issuer label : string) (issuerInLabel : bool)
    (secret : Secret) (algorithm : string) (digits : Z) (name : string) (value : Z) :
  string_forallb uri_text_char kind = true ->
  string_forallb uri_text_char
    (key_uri kind issuer label issuerInLabel secret algorithm digits name value) = true.
Proof.
  intros Hkind.
  assert (He : forall s, string_forallb uri_text_char (encodeURIComponent s) = true).
  { intros s. generalize (encodeURIComponent_chars s). apply forallb_impl.
    intros c. apply (uri_text_char_facts c). }
  unfold key_uri. rewrite !forallb_app, Hkind, params_toString_chars.
  unfold label_text.
  destruct ((0 <? strlen issuer) && issuerInLabel);
    rewrite ?forallb_app, !He; reflexivity.
Qed.

(** X23.  The URI [toString] writes for an HOTP or a TOTP instance
    holds only letters, digits and the characters [-_.!~*'()%+:/?=&],
    whatever the fields hold: no space, no control character and
    nothing outside ASCII. *)
Theorem toString_characters (h : HOTP.t) (t : TOTP.t) :
  string_forallb uri_text_char (HOTP.toString h) = true
  /\ string_forallb uri_text_char (TOTP.toString t) = true.
Proof.
  rewrite HOTP_toString_key_uri, TOTP_toString_key_uri.
  split; by apply key_uri_chars.
Qed.

(** ** uri.ts: how the parameters are read *)




(** ** totp.ts: where the hyphen of a name may stand *)

Lemma remove_first_app (c : ascii) (a b : string) :
  no_char c a = true -> remove_first c (a +:+ String c b) = a +:+ b.
Proof.
  unfold no_char. induction a as [|d a IH]; cbn [String.append remove_first string_forallb].
  - by rewrite Ascii.eqb_refl.
  - intros H. apply andb_true_iff in H as [Hd Ha].
    change (String.app a (String c b)) with (a +:+ String c b).
    destruct (Ascii.eqb d c); [discriminate|]. by rewrite (IH Ha).
Qed.

(** A text that starts with [p] and a separator, where neither [p]
    nor the text before the first separator holds one, starts with [p]
    itself. *)
Lemma prefix_separator (c : ascii) (p a b : string) :
  no_char c p = true ->
  no_char c a = true ->
  String.prefix (p +:+ String c EmptyString) (a +:+ String c b) = true ->
  a = p.
Proof.
  unfold no_char. revert a. induction p as [|x p IH]; intros a Hp Ha.
  - destruct a as [|d a]; [reflexivity|].
    cbn [String.append String.prefix string_forallb] in *.
    apply andb_true_iff in Ha as [Hd _].
    destruct (ascii_dec c d) as [E|E]; cbv iota.
    + subst d. rewrite Ascii.eqb_refl in Hd. cbn [negb] in Hd. discriminate Hd.
    + intros H. discriminate H.
  - cbn [string_forallb] in Hp. apply andb_true_iff in Hp as [Hx Hp].
    destruct a as [|d a]; cbn [String.append String.prefix string_forallb] in *.
    + destruct (ascii_dec x c) as [E|E]; cbv iota.
      * subst x. rewrite Ascii.eqb_refl in Hx. cbn [negb] in Hx. discriminate Hx.
      * intros H. discriminate H.
    + apply andb_true_iff in Ha as [_ Ha].
      destruct (ascii_dec x d) as [E|E]; cbv iota.
      * subst d. intros H. f_equal. by apply IH.
      * intros H. discriminate H.
Qed.

Lemma upper_hyphen (c : ascii) :
  Ascii.eqb (upper_char c) "-" = Ascii.eqb c "-".
Proof. destruct c as [[] [] [] [] [] [] [] []]; reflexivity. Qed.

(** X25.  [canonicalizeAlgorithm] removes the first hyphen of a name
    wherever it stands: a text [a-b], with no hyphen in [a], that
    spells SHA1, SHA224, SHA256, SHA384 or SHA512 in some letter case
    once that hyphen is taken out is accepted as that name, unless [a]
    spells SHA3 (then the whole text has to be one of the four SHA3
    names). *)
Theorem canonicalizeAlgorithm_hyphen (a b name : string) :
  ascii_only (a +:+ b) = true ->
  In name ["SHA1"; "SHA224"; "SHA256"; "SHA384"; "SHA512"] ->
  no_char "-" a = true ->
  toUpperCase (a +:+ b) = name ->
  toUpperCase a <> "SHA3" ->
  canonicalizeAlgorithm (a +:+ "-" +:+ b) = Ok name.
Proof.
  intros _ Hin Ha Hname Hsha3. unfold canonicalizeAlgorithm.
  assert (Hup : toUpperCase (a +:+ "-" +:+ b)
                = toUpperCase a +:+ String "-" (toUpperCase b)).
  { unfold toUpperCase. by rewrite !map_app_string. }
  assert (Ha' : no_char "-" (toUpperCase a) = true).
  { unfold no_char, toUpperCase in *. rewrite forallb_map.
    revert Ha. apply forallb_impl. intros c. by rewrite upper_hyphen. }
  rewrite Hup.
  assert (Hstart : startsWith (toUpperCase a +:+ String "-" (toUpperCase b)) "SHA3-"
                   = false).
  { unfold startsWith.
    destruct (String.prefix "SHA3-" (toUpperCase a +:+ String "-" (toUpperCase b)))
      eqn:E; [|reflexivity].
    exfalso. apply Hsha3.
    exact (prefix_separator "-" "SHA3" (toUpperCase a) (toUpperCase b) eq_refl Ha' E). }
  rewrite Hstart, (remove_first_app "-" _ _ Ha').
  assert (Hjoin : toUpperCase a +:+ toUpperCase b = name).
  { rewrite <- Hname. unfold toUpperCase. by rewrite map_app_string. }
  rewrite Hjoin. simpl In in Hin.
  destruct Hin as [<-|[<-|[<-|[<-|[<-|[]]]]]]; reflexivity.
Qed.

Lemma canonicalizeAlgorithm_hyphen_witness :
  ascii_only ("s" +:+ "ha512") = true
  /\ In "SHA512" ["SHA1"; "SHA224"; "SHA256"; "SHA384"; "SHA512"]
  /\ canonicalizeAlgorithm "s-ha512" = Ok "SHA512".
Proof.
  assert (H1 : ascii_only ("s" +:+ "ha512") = true) by (vm_compute; reflexivity).
  assert (H2 : In "SHA512" ["SHA1"; "SHA224"; "SHA256"; "SHA384"; "SHA512"])
    by (simpl; tauto).
  split; [exact H1|]. split; [exact H2|].
  apply (canonicalizeAlgorithm_hyphen "s" "ha512" "SHA512" H1 H2 eq_refl eq_refl).
  vm_compute. discriminate.
Defined.

(** After [SHA3] the hyphen is not removed. *)
Example canonicalizeAlgorithm_sha3_hyphen :
  canonicalizeAlgorithm "SHA-384" = Ok "SHA384"
  /\ canonicalizeAlgorithm "SHA3-84"
     = Throw (TypeError "Algoritmo de hash desconocido: SHA3-84")
  /\ canonicalizeAlgorithm "SHA3256"
     = Throw (TypeError "Algoritmo de hash desconocido: SHA3256").
Proof. split; [|split]; vm_compute; reflexivity. Qed.

(** ** uri.ts: the round trip of an issuer with spaces *)














